(** * sunode: forward, forward-sensitivity and adjoint solve orchestration

    A shallow embedding of [sunode/solver.py] ([Solver], [AdjointSolver]) and
    of the Theano operators of [sunode/wrappers/as_theano.py]
    ([SolveODE], [SolveODEAdjoint], [SolveODEAdjointBackward]).

    The SUNDIALS engine behind [lib] is an external collaborator: it is an
    abstract state machine (class [Sundials]) whose calls return an integer
    status and the new contents of the buffers they were handed.  Python
    exceptions are values of [exn]; every method is a state-and-exception
    computation over the solver object, the arrays the caller passed by
    reference, and a ghost trace of the engine calls made so far.
    [BaseSolver], which no property below is about, is left out. *)

From Stdlib Require Import ZArith List Bool String Floats Lia.
From stdpp Require Import base list gmap strings.
Import ListNotations.

#[local] Set Warnings "-inexact-float".

(** ** Data *)

(** numpy arrays of doubles, by rank. *)
Abbreviation vec := (list float).
Abbreviation mat := (list (list float)).
Abbreviation tensor3 := (list (list (list float))).

(** What [np.array(x)] yields for a scalar, a sequence or a nested
    sequence; only the rank is inspected by the tolerance dispatch. *)
Inductive ndarray : Type :=
| Arr0 (x : float)
| Arr1 (v : vec)
| Arr2 (m : mat).

Definition ndim (a : ndarray) : nat :=
  match a with
  | Arr0 _ => 0
  | Arr1 _ => 1
  | Arr2 _ => 2
  end.

(** ** Exceptions *)

(** The three messages a [SolverError] is raised with in [solver.py]. *)
Inductive solver_msg : Type :=
| BadReturnCode (status : string) (retval : Z)
    (* "Bad sundials return code while solving ode: %s (%s)" *)
| FailedBetween (t_upper t_lower : float) (status : string) (retval : Z)
    (* "Solving ode failed between time {t_upper} and {t_lower}: {error} ({retval})" *)
| TooManyRetries (t_upper t_lower : float).
    (* "Too many solver retries between time {t_upper} and {t_lower}." *)

Inductive exn : Type :=
| SolverError (msg : solver_msg)
| ValueError (msg : string)
| KeyError (key : Z)
| IndexError
| TypeError
| NameError (name : string)
| AssertionError (reached expected : float)
| CheckError (retcode : Z).

(** Outcome of a call.  [OutOfFuel] is not a Python outcome: it marks a run
    of the model whose fuel was too small for an unbounded [while] loop. *)
Inductive result (A : Type) : Type :=
| Ok (a : A)
| Raise (e : exn)
| OutOfFuel.
Arguments Ok {A} a.
Arguments Raise {A} e.
Arguments OutOfFuel {A}.

(** [o is None] *)
Definition is_none {A : Type} (o : option A) : bool :=
  match o with
  | None => true
  | Some _ => false
  end.

(** ** State and exception monad *)

Definition M (W A : Type) : Type := W -> result A * W.

Definition ret {W A : Type} (a : A) : M W A := fun w => (Ok a, w).

Definition raise {W A : Type} (e : exn) : M W A := fun w => (Raise e, w).

Definition out_of_fuel {W A : Type} : M W A := fun w => (OutOfFuel, w).

Definition bind {W A B : Type} (m : M W A) (k : A -> M W B) : M W B :=
  fun w =>
    match m w with
    | (Ok a, w') => k a w'
    | (Raise e, w') => (Raise e, w')
    | (OutOfFuel, w') => (OutOfFuel, w')
    end.

Definition gets {W A : Type} (f : W -> A) : M W A := fun w => (Ok (f w), w).

Definition modify {W : Type} (f : W -> W) : M W unit := fun w => (Ok tt, f w).

Definition lift {W A : Type} (r : result A) : M W A := fun w => (r, w).

Notation "x <- m ;; k" := (bind m (fun x => k))
  (at level 100, m at next level, k at level 200, right associativity).

(** [for i, x in enumerate(l)] starting the count at [i]. *)
Fixpoint for_each {W A : Type} (body : nat -> A -> M W unit) (i : nat) (l : list A)
  : M W unit :=
  match l with
  | [] => ret tt
  | x :: l' => _ <- body i x ;; for_each body (S i) l'
  end.

(** [try: body except SolverError: handler]; other exceptions pass. *)
Definition try_except_SolverError {W A : Type} (body handler : M W A) : M W A :=
  fun w =>
    match body w with
    | (Raise (SolverError _), w') => handler w'
    | other => other
    end.

(** ** numpy slice assignment *)

(** Broadcasting of a rank-1 value to [n] slots: same length, or length one. *)
Definition broadcast {A : Type} (n : nat) (b : list A) : option (list A) :=
  if (length b =? n)%nat then Some b
  else match b with
       | [x] => Some (replicate n x)
       | _ => None
       end.

Definition broadcast_error : exn :=
  ValueError "could not broadcast input array".

(** [a[:] = b] for rank-1 [a]. *)
Definition assign (a b : vec) : result vec :=
  match broadcast (length a) b with
  | Some v => Ok v
  | None => Raise broadcast_error
  end.

(** [a[:] = c] for a scalar [c]. *)
Definition fill (c : float) (a : vec) : vec := map (fun _ => c) a.

(** [a[:] = c] for a scalar [c] and rank-2 [a]. *)
Definition fill2 (c : float) (a : mat) : mat := map (fill c) a.

(** [a[:] -= g] *)
Definition isub (a g : vec) : result vec :=
  match broadcast (length a) g with
  | Some v => Ok (zip_with PrimFloat.sub a v)
  | None => Raise broadcast_error
  end.

(** [out[i, :] = v] for rank-2 [out]. *)
Definition set_row (out : mat) (i : nat) (v : vec) : result mat :=
  match out !! i with
  | None => Raise IndexError
  | Some row =>
      match assign row v with
      | Ok r => Ok (<[i := r]> out)
      | Raise e => Raise e
      | OutOfFuel => OutOfFuel
      end
  end.

(** [blk[:, :] = m] for rank-2 [blk] and [m]. *)
Fixpoint assign_rows (rows src : mat) : result mat :=
  match rows, src with
  | [], _ => Ok []
  | _ :: _, [] => Raise broadcast_error
  | r :: rows', s :: src' =>
      match assign r s, assign_rows rows' src' with
      | Ok r', Ok rest => Ok (r' :: rest)
      | Raise e, _ => Raise e
      | _, Raise e => Raise e
      | _, _ => OutOfFuel
      end
  end.

Definition assign2 (blk m : mat) : result mat :=
  match broadcast (length blk) m with
  | Some src => assign_rows blk src
  | None => Raise broadcast_error
  end.

(** Python's [a[-i]] for [i >= 0]: [-0] is index [0], [-i] counts from the end. *)
Definition neg_index (len i : nat) : option nat :=
  match i with
  | O => if (0 <? len)%nat then Some O else None
  | S _ => if (i <=? len)%nat then Some (len - i)%nat else None
  end.

(** ** The engine *)

(** Ghost record of the engine calls, with the arguments that matter, and of
    the whole-buffer zero fills of the backward pass. *)
Inductive buffer_id : Type := BufStateB | BufQuad | BufQuadOut.

(** Which of the four tolerance setters of the engine was called. *)
Inductive tol_kind : Type := TolSS | TolSV | TolVS | TolVV.

Inductive event : Type :=
| EvReInit (t0 : float) (y : vec)
| EvSensReInit (mode : Z) (yS : mat)
| EvCVode (tout : float) (itask : Z)
| EvGetSens
| EvAdjReInit
| EvCVodeF (tout : float) (itask : Z)
| EvReInitB (which : Z) (tB0 : float) (yB0 : vec)
| EvQuadReInitB (which : Z) (yQB0 : vec)
| EvCVodeB (tBout : float) (itask : Z)
| EvGetB (which : Z)
| EvGetQuadB (which : Z)
| EvTolerances (kind : tol_kind) (rtol atol : ndarray)
| EvZero (b : buffer_id).

(** [sunode.basic.lib], [ERRORS] and [check], and the parameter updates of
    the problem, none of which is part of the two files embedded here.  A
    call takes the engine handle and the current contents of the buffers it
    is given, and returns the status together with what it left in them.
    The user-data block registered with the engine is engine-side memory,
    so writing parameters into it is an engine transition. *)
Class Sundials : Type := {
  engine : Type;
  CV_TOO_MUCH_WORK : Z;
  CV_NORMAL : Z;
  ERRORS : gmap Z string;
  (* [check(retcode)] returns normally on these codes and raises otherwise *)
  check_ok : Z -> bool;
  CVodeSStolerances : engine -> ndarray -> ndarray -> Z * engine;
  CVodeSVtolerances : engine -> ndarray -> ndarray -> Z * engine;
  CVodeVStolerances : engine -> ndarray -> ndarray -> Z * engine;
  CVodeVVtolerances : engine -> ndarray -> ndarray -> Z * engine;
  CVodeReInit : engine -> float -> vec -> Z * engine;
  CVodeSensReInit : engine -> Z -> mat -> Z * engine;
  (* ode, tout, yout, tret, itask |-> retval, ode, yout, tret *)
  CVode : engine -> float -> vec -> float -> Z -> Z * engine * vec * float;
  (* ode, tret, yS |-> retval, tret, yS *)
  CVodeGetSens : engine -> float -> mat -> Z * float * mat;
  CVodeAdjReInit : engine -> Z * engine;
  (* ode, tout, yout, tret, itask, ncheck |-> retval, ode, yout, tret, ncheck *)
  CVodeF : engine -> float -> vec -> float -> Z -> Z -> Z * engine * vec * float * Z;
  CVodeReInitB : engine -> Z -> float -> vec -> Z * engine;
  CVodeQuadReInitB : engine -> Z -> vec -> Z * engine;
  CVodeB : engine -> float -> Z -> Z * engine;
  (* ode, which, tret, yB |-> retval, tret, yB *)
  CVodeGetB : engine -> Z -> float -> vec -> Z * float * vec;
  CVodeGetQuadB : engine -> Z -> float -> vec -> Z * float * vec;
  update_subset_params : engine -> vec -> result engine;
  update_remaining_params : engine -> vec -> result engine;
  (* the engine writes into the vectors it is handed; it cannot resize them *)
  CVode_length : forall e t y tp k, length (CVode e t y tp k).1.2 = length y;
  CVodeF_length : forall e t y tp k nc, length (CVodeF e t y tp k nc).1.1.2 = length y;
  CVodeGetSens_shape : forall e tp yS,
    map length (CVodeGetSens e tp yS).2 = map length yS;
  CVodeGetB_length : forall e which tp y, length (CVodeGetB e which tp y).2 = length y;
  CVodeGetQuadB_length : forall e which tp q,
    length (CVodeGetQuadB e which tp q).2 = length q
}.

Section Common.
Context {lib : Sundials} {W : Type}.

(** [check(retcode)] *)
Definition check (retcode : Z) : M W unit :=
  if check_ok retcode then ret tt else raise (CheckError retcode).

(** [ERRORS[retval]] *)
Definition errors_lookup (retval : Z) : M W string :=
  match ERRORS !! retval with
  | Some name => ret name
  | None => raise (KeyError retval)
  end.

(** The stepping loop shared, verbatim, by [Solver.solve] and
    [AdjointSolver.solve_forward]:
<<
    retval = TOO_MUCH_WORK
    while retval == TOO_MUCH_WORK:
        retval = step(t)
        if retval != TOO_MUCH_WORK and retval != 0:
            raise SolverError("Bad sundials return code ...")
>>
    [step] is the engine call of the caller; [fuel] bounds the iterations
    of the model only. *)
Fixpoint step_while (step : float -> M W Z) (fuel : nat) (retval : Z) (t : float)
  : M W unit :=
  if (retval =? CV_TOO_MUCH_WORK)%Z then
    match fuel with
    | O => out_of_fuel
    | S fuel' =>
        retval' <- step t ;;
        if negb (retval' =? CV_TOO_MUCH_WORK)%Z && negb (retval' =? 0)%Z then
          name <- errors_lookup retval' ;;
          raise (SolverError (BadReturnCode name retval'))
        else step_while step fuel' retval' t
    end
  else ret tt.

Definition step_loop (step : float -> M W Z) (fuel : nat) (t : float) : M W unit :=
  step_while step fuel CV_TOO_MUCH_WORK t.
End Common.

(** ** [class Solver] *)

Module Solver.
Section WithLib.
Context {lib : Sundials}.

(** The object ([_]-prefixed fields), the arrays [solve] receives by
    reference ([y_out], [sens_out]), the [double*] cell [time_p] and the
    ghost trace. *)
Record state : Type := {
  _compute_sens : bool;
  n_params : nat;
  _sens_mode : Z;
  _ode : engine;
  _state_buffer : vec;
  _sens_buffers : mat;
  _atol : ndarray;
  _rtol : ndarray;
  y_out : mat;
  sens_out : option tensor3;
  time_p : float;
  trace : list event
}.

Definition set_ode (w : state) (e : engine) : state :=
  {| _compute_sens := _compute_sens w; n_params := n_params w;
     _sens_mode := _sens_mode w; _ode := e;
     _state_buffer := _state_buffer w; _sens_buffers := _sens_buffers w;
     _atol := _atol w; _rtol := _rtol w; y_out := y_out w;
     sens_out := sens_out w; time_p := time_p w; trace := trace w |}.

Definition set_state_buffer (w : state) (y : vec) : state :=
  {| _compute_sens := _compute_sens w; n_params := n_params w;
     _sens_mode := _sens_mode w; _ode := _ode w;
     _state_buffer := y; _sens_buffers := _sens_buffers w;
     _atol := _atol w; _rtol := _rtol w; y_out := y_out w;
     sens_out := sens_out w; time_p := time_p w; trace := trace w |}.

Definition set_sens_buffers (w : state) (yS : mat) : state :=
  {| _compute_sens := _compute_sens w; n_params := n_params w;
     _sens_mode := _sens_mode w; _ode := _ode w;
     _state_buffer := _state_buffer w; _sens_buffers := yS;
     _atol := _atol w; _rtol := _rtol w; y_out := y_out w;
     sens_out := sens_out w; time_p := time_p w; trace := trace w |}.

Definition set_tols (w : state) (atol rtol : ndarray) : state :=
  {| _compute_sens := _compute_sens w; n_params := n_params w;
     _sens_mode := _sens_mode w; _ode := _ode w;
     _state_buffer := _state_buffer w; _sens_buffers := _sens_buffers w;
     _atol := atol; _rtol := rtol; y_out := y_out w;
     sens_out := sens_out w; time_p := time_p w; trace := trace w |}.

Definition set_y_out (w : state) (y : mat) : state :=
  {| _compute_sens := _compute_sens w; n_params := n_params w;
     _sens_mode := _sens_mode w; _ode := _ode w;
     _state_buffer := _state_buffer w; _sens_buffers := _sens_buffers w;
     _atol := _atol w; _rtol := _rtol w; y_out := y;
     sens_out := sens_out w; time_p := time_p w; trace := trace w |}.

Definition set_sens_out (w : state) (s : option tensor3) : state :=
  {| _compute_sens := _compute_sens w; n_params := n_params w;
     _sens_mode := _sens_mode w; _ode := _ode w;
     _state_buffer := _state_buffer w; _sens_buffers := _sens_buffers w;
     _atol := _atol w; _rtol := _rtol w; y_out := y_out w;
     sens_out := s; time_p := time_p w; trace := trace w |}.

Definition set_time_p (w : state) (t : float) : state :=
  {| _compute_sens := _compute_sens w; n_params := n_params w;
     _sens_mode := _sens_mode w; _ode := _ode w;
     _state_buffer := _state_buffer w; _sens_buffers := _sens_buffers w;
     _atol := _atol w; _rtol := _rtol w; y_out := y_out w;
     sens_out := sens_out w; time_p := t; trace := trace w |}.

Definition log (w : state) (ev : event) : state :=
  {| _compute_sens := _compute_sens w; n_params := n_params w;
     _sens_mode := _sens_mode w; _ode := _ode w;
     _state_buffer := _state_buffer w; _sens_buffers := _sens_buffers w;
     _atol := _atol w; _rtol := _rtol w; y_out := y_out w;
     sens_out := sens_out w; time_p := time_p w; trace := trace w ++ [ev] |}.

(** *** Engine calls on [self._ode] *)

Definition call_tolerances (kind : tol_kind)
    (f : engine -> ndarray -> ndarray -> Z * engine) (rtol atol : ndarray)
  : M state Z :=
  fun w =>
    let '(r, e) := f (_ode w) rtol atol in
    (Ok r, log (set_ode w e) (EvTolerances kind rtol atol)).

Definition call_CVodeReInit (t0 : float) : M state Z :=
  fun w =>
    let '(r, e) := CVodeReInit (_ode w) t0 (_state_buffer w) in
    (Ok r, log (set_ode w e) (EvReInit t0 (_state_buffer w))).

Definition call_CVodeSensReInit : M state Z :=
  fun w =>
    let '(r, e) := CVodeSensReInit (_ode w) (_sens_mode w) (_sens_buffers w) in
    (Ok r, log (set_ode w e) (EvSensReInit (_sens_mode w) (_sens_buffers w))).

Definition call_CVode (t : float) : M state Z :=
  fun w =>
    let '(r, e, y, tp) := CVode (_ode w) t (_state_buffer w) (time_p w) CV_NORMAL in
    (Ok r, log (set_time_p (set_state_buffer (set_ode w e) y) tp)
               (EvCVode t CV_NORMAL)).

Definition call_CVodeGetSens : M state Z :=
  fun w =>
    let '(r, tp, yS) := CVodeGetSens (_ode w) (time_p w) (_sens_buffers w) in
    (Ok r, log (set_time_p (set_sens_buffers w yS) tp) EvGetSens).

(** *** [set_derivative_params], [set_remaining_params] *)

Definition set_derivative_params (params : vec) : M state unit :=
  fun w =>
    match update_subset_params (_ode w) params with
    | Ok e => (Ok tt, set_ode w e)
    | Raise x => (Raise x, w)
    | OutOfFuel => (OutOfFuel, w)
    end.

Definition set_remaining_params (params : vec) : M state unit :=
  fun w =>
    match update_remaining_params (_ode w) params with
    | Ok e => (Ok tt, set_ode w e)
    | Raise x => (Raise x, w)
    | OutOfFuel => (OutOfFuel, w)
    end.

(** *** [_set_tolerances(self, atol, rtol)] *)

Definition _set_tolerances (atol rtol : ndarray) : M state unit :=
  _ <- (if (ndim atol =? 1)%nat && (ndim rtol =? 1)%nat then
          r <- call_tolerances TolVV CVodeVVtolerances rtol atol ;; check r
        else if (ndim atol =? 1)%nat && (ndim rtol =? 0)%nat then
          r <- call_tolerances TolSV CVodeSVtolerances rtol atol ;; check r
        else if (ndim atol =? 0)%nat && (ndim rtol =? 1)%nat then
          r <- call_tolerances TolVS CVodeVStolerances rtol atol ;; check r
        else if (ndim atol =? 0)%nat && (ndim rtol =? 0)%nat then
          r <- call_tolerances TolSS CVodeSStolerances rtol atol ;; check r
        else raise (ValueError "Invalid tolerance.")) ;;
  modify (fun w => set_tols w atol rtol).

(** *** [make_output_buffers(self, tvals)]

    [n_states] stands for [self._problem.n_states]; the second array is
    returned with sensitivities only. *)

Definition make_output_buffers (n_states : nat) (tvals : list float) (w : state)
  : mat * option tensor3 :=
  (replicate (length tvals) (replicate n_states 0%float),
   if _compute_sens w then
     Some (replicate (length tvals)
             (replicate (n_params w) (replicate n_states 0%float)))
   else None).

(** *** [solve(self, t0, tvals, y0, y_out, *, sens0=None, sens_out=None)] *)

(** [sens_data[i][:] = sens0[i, :]] *)
Definition load_sens_row (sens0 : option mat) (i : nat) : M state unit :=
  match sens0 with
  | None => raise TypeError
  | Some s0 =>
      bufs <- gets _sens_buffers ;;
      match bufs !! i, s0 !! i with
      | Some buf, Some row =>
          v <- lift (assign buf row) ;;
          modify (fun w => set_sens_buffers w (<[i := v]> (_sens_buffers w)))
      | _, _ => raise IndexError
      end
  end.

(** [y_out[i, :] = v] *)
Definition write_y_out (i : nat) (v : vec) : M state unit :=
  out <- gets y_out ;;
  out' <- lift (set_row out i v) ;;
  modify (fun w => set_y_out w out').

(** [sens_out[0, :, :] = sens0] *)
Definition write_sens_block (sens0 : option mat) : M state unit :=
  so <- gets sens_out ;;
  match so, sens0 with
  | Some out, Some s0 =>
      match out !! 0%nat with
      | None => raise IndexError
      | Some blk =>
          blk' <- lift (assign2 blk s0) ;;
          modify (fun w => set_sens_out w (Some (<[0%nat := blk']> out)))
      end
  | _, _ => raise TypeError
  end.

(** [sens_out[i, j, :] = sens_data[j]] *)
Definition write_sens_row (i j : nat) : M state unit :=
  so <- gets sens_out ;;
  bufs <- gets _sens_buffers ;;
  match so with
  | None => raise TypeError
  | Some out =>
      match bufs !! j, out !! i with
      | Some buf, Some blk =>
          blk' <- lift (set_row blk j buf) ;;
          modify (fun w => set_sens_out w (Some (<[i := blk']> out)))
      | _, _ => raise IndexError
      end
  end.

(** One iteration of [for i, t in enumerate(tvals)]. *)
Definition solve_body (fuel : nat) (t0 : float) (y0 : vec) (sens0 : option mat)
    (i : nat) (t : float) : M state unit :=
  if PrimFloat.eqb t t0 then
    _ <- write_y_out 0 y0 ;;
    cs <- gets _compute_sens ;;
    if cs then write_sens_block sens0 else ret tt
  else
    _ <- step_loop call_CVode fuel t ;;
    state_data <- gets _state_buffer ;;
    _ <- write_y_out i state_data ;;
    cs <- gets _compute_sens ;;
    if cs then
      r <- call_CVodeGetSens ;;
      _ <- check r ;;
      n <- gets n_params ;;
      for_each (fun _ j => write_sens_row i j) 0 (seq 0 n)
    else ret tt.

(** The message of the source, without the quotation marks it puts
    around the two argument names. *)
Definition sens_required : exn :=
  ValueError "sens_out and sens0 are required when computin sensitivities.".

Definition solve (fuel : nat) (t0 : float) (tvals : list float) (y0 : vec)
    (sens0 : option mat) : M state unit :=
  cs <- gets _compute_sens ;;
  so <- gets sens_out ;;
  if cs && (is_none sens0 || is_none so) then
    raise sens_required
  else
    _ <- (if cs then
            n <- gets n_params ;;
            for_each (fun _ i => load_sens_row sens0 i) 0 (seq 0 n)
          else ret tt) ;;
    sd <- gets _state_buffer ;;
    y <- lift (assign sd y0) ;;
    _ <- modify (fun w => set_state_buffer w y) ;;
    _ <- modify (fun w => set_time_p w t0) ;;
    r <- call_CVodeReInit t0 ;;
    _ <- check r ;;
    _ <- (if cs then r <- call_CVodeSensReInit ;; check r else ret tt) ;;
    for_each (solve_body fuel t0 y0 sens0) 0 tvals.
End WithLib.
End Solver.

(** ** [class AdjointSolver] *)

Module AdjointSolver.
Section WithLib.
Context {lib : Sundials}.

(** The object, the arrays [solve_forward] and [solve_backward] receive by
    reference, the cells [time_p] and [n_check], and the ghost trace.
    [n_states] and [n_params] are those of [self._problem]. *)
Record state : Type := {
  n_states : nat;
  n_params : nat;
  _ode : engine;
  _odeB : Z;
  _state_buffer : vec;
  _state_bufferB : vec;
  _quad_buffer : vec;
  _quad_buffer_out : vec;
  _atol : ndarray;
  _rtol : ndarray;
  y_out : mat;
  grad_out : vec;
  lamda_out : vec;
  lamda_all_out : option mat;
  quad_all_out : option mat;
  time_p : float;
  n_check : Z;
  trace : list event
}.

Definition set_ode (w : state) (e : engine) : state :=
  {| n_states := n_states w; n_params := n_params w; _ode := e; _odeB := _odeB w;
     _state_buffer := _state_buffer w; _state_bufferB := _state_bufferB w;
     _quad_buffer := _quad_buffer w; _quad_buffer_out := _quad_buffer_out w;
     _atol := _atol w; _rtol := _rtol w; y_out := y_out w; grad_out := grad_out w;
     lamda_out := lamda_out w; lamda_all_out := lamda_all_out w;
     quad_all_out := quad_all_out w; time_p := time_p w; n_check := n_check w;
     trace := trace w |}.

Definition set_state_buffer (w : state) (y : vec) : state :=
  {| n_states := n_states w; n_params := n_params w; _ode := _ode w;
     _odeB := _odeB w; _state_buffer := y; _state_bufferB := _state_bufferB w;
     _quad_buffer := _quad_buffer w; _quad_buffer_out := _quad_buffer_out w;
     _atol := _atol w; _rtol := _rtol w; y_out := y_out w; grad_out := grad_out w;
     lamda_out := lamda_out w; lamda_all_out := lamda_all_out w;
     quad_all_out := quad_all_out w; time_p := time_p w; n_check := n_check w;
     trace := trace w |}.

Definition set_state_bufferB (w : state) (y : vec) : state :=
  {| n_states := n_states w; n_params := n_params w; _ode := _ode w;
     _odeB := _odeB w; _state_buffer := _state_buffer w; _state_bufferB := y;
     _quad_buffer := _quad_buffer w; _quad_buffer_out := _quad_buffer_out w;
     _atol := _atol w; _rtol := _rtol w; y_out := y_out w; grad_out := grad_out w;
     lamda_out := lamda_out w; lamda_all_out := lamda_all_out w;
     quad_all_out := quad_all_out w; time_p := time_p w; n_check := n_check w;
     trace := trace w |}.

Definition set_quad_buffer (w : state) (q : vec) : state :=
  {| n_states := n_states w; n_params := n_params w; _ode := _ode w;
     _odeB := _odeB w; _state_buffer := _state_buffer w;
     _state_bufferB := _state_bufferB w; _quad_buffer := q;
     _quad_buffer_out := _quad_buffer_out w; _atol := _atol w; _rtol := _rtol w;
     y_out := y_out w; grad_out := grad_out w; lamda_out := lamda_out w;
     lamda_all_out := lamda_all_out w; quad_all_out := quad_all_out w;
     time_p := time_p w; n_check := n_check w; trace := trace w |}.

Definition set_quad_buffer_out (w : state) (q : vec) : state :=
  {| n_states := n_states w; n_params := n_params w; _ode := _ode w;
     _odeB := _odeB w; _state_buffer := _state_buffer w;
     _state_bufferB := _state_bufferB w; _quad_buffer := _quad_buffer w;
     _quad_buffer_out := q; _atol := _atol w; _rtol := _rtol w; y_out := y_out w;
     grad_out := grad_out w; lamda_out := lamda_out w;
     lamda_all_out := lamda_all_out w; quad_all_out := quad_all_out w;
     time_p := time_p w; n_check := n_check w; trace := trace w |}.

Definition set_y_out (w : state) (y : mat) : state :=
  {| n_states := n_states w; n_params := n_params w; _ode := _ode w;
     _odeB := _odeB w; _state_buffer := _state_buffer w;
     _state_bufferB := _state_bufferB w; _quad_buffer := _quad_buffer w;
     _quad_buffer_out := _quad_buffer_out w; _atol := _atol w; _rtol := _rtol w;
     y_out := y; grad_out := grad_out w; lamda_out := lamda_out w;
     lamda_all_out := lamda_all_out w; quad_all_out := quad_all_out w;
     time_p := time_p w; n_check := n_check w; trace := trace w |}.

Definition set_grad_out (w : state) (g : vec) : state :=
  {| n_states := n_states w; n_params := n_params w; _ode := _ode w;
     _odeB := _odeB w; _state_buffer := _state_buffer w;
     _state_bufferB := _state_bufferB w; _quad_buffer := _quad_buffer w;
     _quad_buffer_out := _quad_buffer_out w; _atol := _atol w; _rtol := _rtol w;
     y_out := y_out w; grad_out := g; lamda_out := lamda_out w;
     lamda_all_out := lamda_all_out w; quad_all_out := quad_all_out w;
     time_p := time_p w; n_check := n_check w; trace := trace w |}.

Definition set_lamda_out (w : state) (l : vec) : state :=
  {| n_states := n_states w; n_params := n_params w; _ode := _ode w;
     _odeB := _odeB w; _state_buffer := _state_buffer w;
     _state_bufferB := _state_bufferB w; _quad_buffer := _quad_buffer w;
     _quad_buffer_out := _quad_buffer_out w; _atol := _atol w; _rtol := _rtol w;
     y_out := y_out w; grad_out := grad_out w; lamda_out := l;
     lamda_all_out := lamda_all_out w; quad_all_out := quad_all_out w;
     time_p := time_p w; n_check := n_check w; trace := trace w |}.

Definition set_lamda_all_out (w : state) (l : option mat) : state :=
  {| n_states := n_states w; n_params := n_params w; _ode := _ode w;
     _odeB := _odeB w; _state_buffer := _state_buffer w;
     _state_bufferB := _state_bufferB w; _quad_buffer := _quad_buffer w;
     _quad_buffer_out := _quad_buffer_out w; _atol := _atol w; _rtol := _rtol w;
     y_out := y_out w; grad_out := grad_out w; lamda_out := lamda_out w;
     lamda_all_out := l; quad_all_out := quad_all_out w; time_p := time_p w;
     n_check := n_check w; trace := trace w |}.

Definition set_quad_all_out (w : state) (q : option mat) : state :=
  {| n_states := n_states w; n_params := n_params w; _ode := _ode w;
     _odeB := _odeB w; _state_buffer := _state_buffer w;
     _state_bufferB := _state_bufferB w; _quad_buffer := _quad_buffer w;
     _quad_buffer_out := _quad_buffer_out w; _atol := _atol w; _rtol := _rtol w;
     y_out := y_out w; grad_out := grad_out w; lamda_out := lamda_out w;
     lamda_all_out := lamda_all_out w; quad_all_out := q; time_p := time_p w;
     n_check := n_check w; trace := trace w |}.

Definition set_time_p (w : state) (t : float) : state :=
  {| n_states := n_states w; n_params := n_params w; _ode := _ode w;
     _odeB := _odeB w; _state_buffer := _state_buffer w;
     _state_bufferB := _state_bufferB w; _quad_buffer := _quad_buffer w;
     _quad_buffer_out := _quad_buffer_out w; _atol := _atol w; _rtol := _rtol w;
     y_out := y_out w; grad_out := grad_out w; lamda_out := lamda_out w;
     lamda_all_out := lamda_all_out w; quad_all_out := quad_all_out w;
     time_p := t; n_check := n_check w; trace := trace w |}.

Definition set_n_check (w : state) (n : Z) : state :=
  {| n_states := n_states w; n_params := n_params w; _ode := _ode w;
     _odeB := _odeB w; _state_buffer := _state_buffer w;
     _state_bufferB := _state_bufferB w; _quad_buffer := _quad_buffer w;
     _quad_buffer_out := _quad_buffer_out w; _atol := _atol w; _rtol := _rtol w;
     y_out := y_out w; grad_out := grad_out w; lamda_out := lamda_out w;
     lamda_all_out := lamda_all_out w; quad_all_out := quad_all_out w;
     time_p := time_p w; n_check := n; trace := trace w |}.

Definition set_tols (w : state) (atol rtol : ndarray) : state :=
  {| n_states := n_states w; n_params := n_params w; _ode := _ode w;
     _odeB := _odeB w; _state_buffer := _state_buffer w;
     _state_bufferB := _state_bufferB w; _quad_buffer := _quad_buffer w;
     _quad_buffer_out := _quad_buffer_out w; _atol := atol; _rtol := rtol;
     y_out := y_out w; grad_out := grad_out w; lamda_out := lamda_out w;
     lamda_all_out := lamda_all_out w; quad_all_out := quad_all_out w;
     time_p := time_p w; n_check := n_check w; trace := trace w |}.

Definition log (w : state) (ev : event) : state :=
  {| n_states := n_states w; n_params := n_params w; _ode := _ode w;
     _odeB := _odeB w; _state_buffer := _state_buffer w;
     _state_bufferB := _state_bufferB w; _quad_buffer := _quad_buffer w;
     _quad_buffer_out := _quad_buffer_out w; _atol := _atol w; _rtol := _rtol w;
     y_out := y_out w; grad_out := grad_out w; lamda_out := lamda_out w;
     lamda_all_out := lamda_all_out w; quad_all_out := quad_all_out w;
     time_p := time_p w; n_check := n_check w; trace := trace w ++ [ev] |}.

(** *** Engine calls on [self._ode] and the backward problem [self._odeB] *)

Definition call_tolerances (kind : tol_kind)
    (f : engine -> ndarray -> ndarray -> Z * engine) (rtol atol : ndarray)
  : M state Z :=
  fun w =>
    let '(r, e) := f (_ode w) rtol atol in
    (Ok r, log (set_ode w e) (EvTolerances kind rtol atol)).

Definition call_CVodeReInit (t0 : float) : M state Z :=
  fun w =>
    let '(r, e) := CVodeReInit (_ode w) t0 (_state_buffer w) in
    (Ok r, log (set_ode w e) (EvReInit t0 (_state_buffer w))).

Definition call_CVodeAdjReInit : M state Z :=
  fun w =>
    let '(r, e) := CVodeAdjReInit (_ode w) in
    (Ok r, log (set_ode w e) EvAdjReInit).

Definition call_CVodeF (t : float) : M state Z :=
  fun w =>
    let '(r, e, y, tp, nc) :=
      CVodeF (_ode w) t (_state_buffer w) (time_p w) CV_NORMAL (n_check w) in
    (Ok r, log (set_n_check (set_time_p (set_state_buffer (set_ode w e) y) tp) nc)
               (EvCVodeF t CV_NORMAL)).

Definition call_CVodeReInitB (t_upper : float) : M state Z :=
  fun w =>
    let '(r, e) := CVodeReInitB (_ode w) (_odeB w) t_upper (_state_bufferB w) in
    (Ok r, log (set_ode w e) (EvReInitB (_odeB w) t_upper (_state_bufferB w))).

Definition call_CVodeQuadReInitB : M state Z :=
  fun w =>
    let '(r, e) := CVodeQuadReInitB (_ode w) (_odeB w) (_quad_buffer w) in
    (Ok r, log (set_ode w e) (EvQuadReInitB (_odeB w) (_quad_buffer w))).

Definition call_CVodeB (t_lower : float) : M state Z :=
  fun w =>
    let '(r, e) := CVodeB (_ode w) t_lower CV_NORMAL in
    (Ok r, log (set_ode w e) (EvCVodeB t_lower CV_NORMAL)).

Definition call_CVodeGetB : M state Z :=
  fun w =>
    let '(r, tp, y) := CVodeGetB (_ode w) (_odeB w) (time_p w) (_state_bufferB w) in
    (Ok r, log (set_time_p (set_state_bufferB w y) tp) (EvGetB (_odeB w))).

Definition call_CVodeGetQuadB : M state Z :=
  fun w =>
    let '(r, tp, q) :=
      CVodeGetQuadB (_ode w) (_odeB w) (time_p w) (_quad_buffer_out w) in
    (Ok r, log (set_time_p (set_quad_buffer_out w q) tp) (EvGetQuadB (_odeB w))).

(** *** [_set_tolerances(self, atol, rtol)] *)

Definition _set_tolerances (atol rtol : ndarray) : M state unit :=
  _ <- (if (ndim atol =? 1)%nat && (ndim rtol =? 0)%nat then
          r <- call_tolerances TolSV CVodeSVtolerances rtol atol ;; check r
        else if (ndim atol =? 0)%nat && (ndim rtol =? 0)%nat then
          r <- call_tolerances TolSS CVodeSStolerances rtol atol ;; check r
        else raise (ValueError "Invalid tolerance.")) ;;
  modify (fun w => set_tols w atol rtol).

(** *** [make_output_buffers(self, tvals)] *)

Definition make_output_buffers (tvals : list float) (w : state) : mat * vec * vec :=
  (replicate (length tvals) (replicate (n_states w) 0%float),
   replicate (n_params w) 0%float,
   replicate (n_states w) 0%float).

(** *** [set_derivative_params], [set_remaining_params] *)

Definition set_derivative_params (params : vec) : M state unit :=
  fun w =>
    match update_subset_params (_ode w) params with
    | Ok e => (Ok tt, set_ode w e)
    | Raise x => (Raise x, w)
    | OutOfFuel => (OutOfFuel, w)
    end.

Definition set_remaining_params (params : vec) : M state unit :=
  fun w =>
    match update_remaining_params (_ode w) params with
    | Ok e => (Ok tt, set_ode w e)
    | Raise x => (Raise x, w)
    | OutOfFuel => (OutOfFuel, w)
    end.

(** *** [solve_forward(self, t0, tvals, y0, y_out)] *)

(** [y_out[i, :] = v] *)
Definition write_y_out (i : nat) (v : vec) : M state unit :=
  out <- gets y_out ;;
  out' <- lift (set_row out i v) ;;
  modify (fun w => set_y_out w out').

(** One iteration of [for i, t in enumerate(tvals)]. *)
Definition solve_forward_body (fuel : nat) (t0 : float) (y0 : vec)
    (i : nat) (t : float) : M state unit :=
  if PrimFloat.eqb t t0 then
    write_y_out 0 y0
  else
    _ <- step_loop call_CVodeF fuel t ;;
    state_data <- gets _state_buffer ;;
    write_y_out i state_data.

Definition solve_forward (fuel : nat) (t0 : float) (tvals : list float) (y0 : vec)
  : M state unit :=
  sd <- gets _state_buffer ;;
  y <- lift (assign sd y0) ;;
  _ <- modify (fun w => set_state_buffer w y) ;;
  _ <- modify (fun w => set_time_p w t0) ;;
  _ <- modify (fun w => set_n_check w 0%Z) ;;
  r <- call_CVodeReInit t0 ;;
  _ <- check r ;;
  r <- call_CVodeAdjReInit ;;
  _ <- check r ;;
  for_each (solve_forward_body fuel t0 y0) 0 tvals.

(** *** [solve_backward(self, t0, tend, tvals, grads, grad_out, lamda_out,
        lamda_all_out=None, quad_all_out=None, max_retries=50)] *)

(** [state_data[:] = 0; quad_data[:] = 0; quad_out_data[:] = 0] *)
Definition zero_buffers : M state unit :=
  _ <- modify (fun w =>
         log (set_state_bufferB w (fill 0%float (_state_bufferB w))) (EvZero BufStateB)) ;;
  _ <- modify (fun w =>
         log (set_quad_buffer w (fill 0%float (_quad_buffer w))) (EvZero BufQuad)) ;;
  modify (fun w =>
    log (set_quad_buffer_out w (fill 0%float (_quad_buffer_out w))) (EvZero BufQuadOut)).

(** [ts = [t0] + list(tvals[::-1]) + [tend]; zip(ts[1:], ts[:-1])]:
    pairs [(t_lower, t_upper)]. *)
Definition t_intervals (t0 tend : float) (tvals : list float) : list (float * float) :=
  let ts := [t0] ++ rev tvals ++ [tend] in
  zip (tail ts) (removelast ts).

(** [zip(t_intervals, reversed([None] + list(grads)))] *)
Definition backward_items (t0 tend : float) (tvals : list float) (grads : mat)
  : list ((float * float) * option vec) :=
  zip (t_intervals t0 tend tvals) (rev (None :: map Some grads)).

(** [for retry in range(max_retries): ... else: raise SolverError(...)] *)
Fixpoint retry_loop (retries : nat) (t_lower t_upper : float) : M state unit :=
  match retries with
  | O => raise (SolverError (TooManyRetries t_upper t_lower))
  | S retries' =>
      retval <- call_CVodeB t_lower ;;
      if (retval =? 0)%Z then ret tt
      else if negb (retval =? CV_TOO_MUCH_WORK)%Z then
        error <- errors_lookup retval ;;
        raise (SolverError (FailedBetween t_upper t_lower error retval))
      else retry_loop retries' t_lower t_upper
  end.

(** The [if t_lower < t_upper:] block. *)
Definition step_interval (max_retries : Z) (t_lower t_upper : float) : M state unit :=
  r <- call_CVodeReInitB t_upper ;;
  _ <- check r ;;
  r <- call_CVodeQuadReInitB ;;
  _ <- check r ;;
  _ <- retry_loop (Z.to_nat max_retries) t_lower t_upper ;;
  r <- call_CVodeGetB ;;
  _ <- check r ;;
  r <- call_CVodeGetQuadB ;;
  _ <- check r ;;
  _ <- (qd <- gets _quad_buffer ;;
        qo <- gets _quad_buffer_out ;;
        q <- lift (assign qd qo) ;;
        modify (fun w => set_quad_buffer w q)) ;;
  tp <- gets time_p ;;
  if PrimFloat.eqb tp t_lower then ret tt
  else raise (AssertionError tp t_lower).

(** [all_out[-i, :] = v] on an optional array. *)
Definition write_all_out (get : state -> option mat)
    (set : state -> option mat -> state) (i : nat) (v : vec) : M state unit :=
  o <- gets get ;;
  match o with
  | None => ret tt
  | Some out =>
      match neg_index (length out) i with
      | None => raise IndexError
      | Some k =>
          out' <- lift (set_row out k v) ;;
          modify (fun w => set w (Some out'))
      end
  end.

(** The [if grad is not None:] block. *)
Definition inject (i : nat) (grad : option vec) : M state unit :=
  match grad with
  | None => ret tt
  | Some g =>
      sd <- gets _state_bufferB ;;
      v <- lift (isub sd g) ;;
      _ <- modify (fun w => set_state_bufferB w v) ;;
      state_data <- gets _state_bufferB ;;
      _ <- write_all_out lamda_all_out set_lamda_all_out i state_data ;;
      quad_data <- gets _quad_buffer ;;
      write_all_out quad_all_out set_quad_all_out i quad_data
  end.

(** One iteration of the loop over the sub-intervals. *)
Definition backward_body (max_retries : Z) (i : nat)
    (item : (float * float) * option vec) : M state unit :=
  let '((t_lower, t_upper), grad) := item in
  _ <- (if PrimFloat.ltb t_lower t_upper then step_interval max_retries t_lower t_upper
        else ret tt) ;;
  inject i grad.

Definition backward_loop (max_retries : Z)
    (items : list ((float * float) * option vec)) : M state unit :=
  for_each (backward_body max_retries) 0 items.

(** [grad_out[:] = quad_out_data; lamda_out[:] = state_data] *)
Definition write_results : M state unit :=
  go <- gets grad_out ;;
  qo <- gets _quad_buffer_out ;;
  g <- lift (assign go qo) ;;
  _ <- modify (fun w => set_grad_out w g) ;;
  lo <- gets lamda_out ;;
  sd <- gets _state_bufferB ;;
  l <- lift (assign lo sd) ;;
  modify (fun w => set_lamda_out w l).

Definition solve_backward (t0 tend : float) (tvals : list float) (grads : mat)
    (max_retries : Z) : M state unit :=
  _ <- zero_buffers ;;
  _ <- modify (fun w => set_time_p w t0) ;;
  _ <- backward_loop max_retries (backward_items t0 tend tvals grads) ;;
  write_results.
End WithLib.
End AdjointSolver.

(** ** The Theano operators of [wrappers/as_theano.py] *)

(** [class SolveODE]: [perform] reads the name [sens0], which is bound
    neither in the method nor in the module. *)
Module SolveODE.
Section WithLib.
Context {lib : Sundials}.

Definition perform (inputs : vec * vec * vec) : M Solver.state (mat * tensor3) :=
  let '(y0, params, params_fixed) := inputs in
  _ <- Solver.set_derivative_params params ;;
  _ <- Solver.set_remaining_params params_fixed ;;
  raise (NameError "sens0").
End WithLib.
End SolveODE.

(** [class SolveODEAdjointBackward].  The arrays of the world are the
    operator's own [_y_out], [_grad_out] and [_lamda_out]; [_t0] and [_tvals]
    are its constructor arguments. *)
Module SolveODEAdjointBackward.
Section WithLib.
Context {lib : Sundials}.
Import AdjointSolver.

(** [self._lamda_out[:] = np.nan; self._grad_out[:] = np.nan] *)
Definition poison : M state unit :=
  _ <- modify (fun w => set_lamda_out w (fill nan (lamda_out w))) ;;
  modify (fun w => set_grad_out w (fill nan (grad_out w))).

(** The body of the [try] block; [solve_backward] is called without
    [lamda_all_out] and [quad_all_out] and with the default [max_retries]. *)
Definition solve_both (fuel : nat) (_t0 : float) (_tvals : list float)
    (y0 : vec) (grads : mat) : M state unit :=
  _ <- solve_forward fuel _t0 _tvals y0 ;;
  t_last <- match last _tvals with
            | Some t => ret t
            | None => raise IndexError
            end ;;
  _ <- modify (fun w => set_quad_all_out (set_lamda_all_out w None) None) ;;
  solve_backward t_last _t0 _tvals grads 50.

Definition perform (fuel : nat) (_t0 : float) (_tvals : list float)
    (inputs : vec * vec * vec * mat) : M state (vec * vec) :=
  let '(y0, params, params_fixed, grads) := inputs in
  _ <- set_derivative_params params ;;
  _ <- set_remaining_params params_fixed ;;
  _ <- try_except_SolverError (solve_both fuel _t0 _tvals y0 grads) poison ;;
  lamda <- gets lamda_out ;;
  gradient <- gets grad_out ;;
  ret (lamda, gradient).
End WithLib.
End SolveODEAdjointBackward.

(** [class SolveODEAdjoint] *)
Module SolveODEAdjoint.
Section WithLib.
Context {lib : Sundials}.
Import AdjointSolver.

Definition perform (fuel : nat) (_t0 : float) (_tvals : list float)
    (inputs : vec * vec * vec) : M state mat :=
  let '(y0, params, params_fixed) := inputs in
  _ <- set_derivative_params params ;;
  _ <- set_remaining_params params_fixed ;;
  _ <- try_except_SolverError
         (solve_forward fuel _t0 _tvals y0)
         (modify (fun w => set_y_out w (fill2 nan (y_out w)))) ;;
  gets y_out.

(** The world of an operator just built on the solver:
    [self._y_out, self._grad_out, self._lamda_out = solver.make_output_buffers(tvals)]. *)
Definition fresh_buffers (_tvals : list float) (w : state) : state :=
  let '(y, gr, l) := make_output_buffers _tvals w in
  set_lamda_out (set_grad_out (set_y_out w y) gr) l.

(** [grad]: the value of the three returned expressions once the graph is
    evaluated.  The backward operator is built on the same solver, with
    fresh output buffers; the third gradient is [grad_not_implemented]. *)
Definition grad (fuel : nat) (_t0 : float) (_tvals : list float)
    (inputs : vec * vec * vec) (g : mat) : M state (vec * vec * option vec) :=
  let '(y0, params, params_fixed) := inputs in
  _ <- modify (fresh_buffers _tvals) ;;
  out <- SolveODEAdjointBackward.perform fuel _t0 _tvals
           (y0, params, params_fixed, g) ;;
  let '(lamda, gradient) := out in
  ret (map PrimFloat.opp lamda, gradient, None).
End WithLib.
End SolveODEAdjoint.

(** ** A scripted engine

    A small instance of [Sundials] on which the methods can be run: the
    engine answers the stepping calls [CVode], [CVodeF] and [CVodeB] with
    the next status of a script (success once the script is used up),
    advances every component of the state by one on a successful forward
    step, and remembers the time it reached. *)
Module Scripted.
(** The statuses still to be answered, and the time last reached. *)
Record handle : Type := { script : list Z; reached : float }.

(** The answer to a stepping request for the time [t]. *)
Definition next (e : handle) (t : float) : Z * handle :=
  match script e with
  | [] => (0%Z, {| script := []; reached := t |})
  | c :: s =>
      (c, {| script := s; reached := if (c =? 0)%Z then t else reached e |})
  end.

(** The state vector after a step that returned [r]. *)
Definition advance (r : Z) (y : vec) : vec :=
  map (fun v => if (r =? 0)%Z then PrimFloat.add v 1%float else v) y.

(** The two entries of [ERRORS] the runs below meet. *)
Definition errors : gmap Z string :=
  {[ (-1)%Z := "CV_TOO_MUCH_WORK"%string; (-4)%Z := "CV_CONV_FAILURE"%string ]}.

(** [CVode] and [CVodeF]: the state and the reached time move on success only. *)
Definition cvode (e : handle) (t : float) (y : vec) (tp : float) (itask : Z)
  : Z * handle * vec * float :=
  let r := (next e t).1 in
  (r, (next e t).2, advance r y, if (r =? 0)%Z then t else tp).

Definition cvodef (e : handle) (t : float) (y : vec) (tp : float) (itask nc : Z)
  : Z * handle * vec * float * Z :=
  let r := (next e t).1 in
  (r, (next e t).2, advance r y, if (r =? 0)%Z then t else tp, (nc + 1)%Z).

Definition lib : Sundials := {|
  engine := handle;
  CV_TOO_MUCH_WORK := (-1)%Z;
  CV_NORMAL := 1%Z;
  ERRORS := errors;
  check_ok := fun r => (r =? 0)%Z;
  CVodeSStolerances := fun e _ _ => (0%Z, e);
  CVodeSVtolerances := fun e _ _ => (0%Z, e);
  CVodeVStolerances := fun e _ _ => (0%Z, e);
  CVodeVVtolerances := fun e _ _ => (0%Z, e);
  CVodeReInit := fun e t _ => (0%Z, {| script := script e; reached := t |});
  CVodeSensReInit := fun e _ _ => (0%Z, e);
  CVode := cvode;
  CVodeGetSens := fun e _ yS => (0%Z, reached e, yS);
  CVodeAdjReInit := fun e => (0%Z, e);
  CVodeF := cvodef;
  CVodeReInitB := fun e _ t _ => (0%Z, {| script := script e; reached := t |});
  CVodeQuadReInitB := fun e _ _ => (0%Z, e);
  CVodeB := fun e t _ => next e t;
  CVodeGetB := fun e _ _ y => (0%Z, reached e, y);
  CVodeGetQuadB := fun e _ _ q => (0%Z, reached e, q);
  update_subset_params := fun e _ => Ok e;
  update_remaining_params := fun e _ => Ok e;
  CVode_length := fun e t y tp k => length_map _ y;
  CVodeF_length := fun e t y tp k nc => length_map _ y;
  CVodeGetSens_shape := fun e tp yS => eq_refl;
  CVodeGetB_length := fun e which tp y => eq_refl;
  CVodeGetQuadB_length := fun e which tp q => eq_refl
|}.

#[local] Existing Instance lib.

(** [np.zeros(n)] *)
Definition zeros (n : nat) : vec := replicate n 0%float.

(** A [Solver] on [n_states] states and [n_params] parameters whose engine
    will answer with [codes]; the output arrays are those of
    [make_output_buffers] for [n_times] output times. *)
Definition solver (compute_sens : bool) (n_states n_params n_times : nat)
    (codes : list Z) : Solver.state :=
  {| Solver._compute_sens := compute_sens;
     Solver.n_params := n_params;
     Solver._sens_mode := 1%Z;
     Solver._ode := {| script := codes; reached := 0%float |};
     Solver._state_buffer := zeros n_states;
     Solver._sens_buffers := replicate n_params (zeros n_states);
     Solver._atol := Arr0 1e-10%float;
     Solver._rtol := Arr0 1e-10%float;
     Solver.y_out := replicate n_times (zeros n_states);
     Solver.sens_out :=
       if compute_sens
       then Some (replicate n_times (replicate n_params (zeros n_states)))
       else None;
     Solver.time_p := 0%float;
     Solver.trace := [] |}.

(** An [AdjointSolver], likewise. *)
Definition adjoint_solver (n_states n_params n_times : nat) (codes : list Z)
  : AdjointSolver.state :=
  {| AdjointSolver.n_states := n_states;
     AdjointSolver.n_params := n_params;
     AdjointSolver._ode := {| script := codes; reached := 0%float |};
     AdjointSolver._odeB := 0%Z;
     AdjointSolver._state_buffer := zeros n_states;
     AdjointSolver._state_bufferB := zeros n_states;
     AdjointSolver._quad_buffer := zeros n_params;
     AdjointSolver._quad_buffer_out := zeros n_params;
     AdjointSolver._atol := Arr0 1e-10%float;
     AdjointSolver._rtol := Arr0 1e-10%float;
     AdjointSolver.y_out := replicate n_times (zeros n_states);
     AdjointSolver.grad_out := zeros n_params;
     AdjointSolver.lamda_out := zeros n_states;
     AdjointSolver.lamda_all_out := None;
     AdjointSolver.quad_all_out := None;
     AdjointSolver.time_p := 0%float;
     AdjointSolver.n_check := 0%Z;
     AdjointSolver.trace := [] |}.
End Scripted.

(** ** A drifting engine

    The scripted engine, but for [CVodeGetQuadB]: its read-back of the
    quadrature reports a time half a unit past the one reached. *)
Module Drifting.
Definition lib : Sundials := {|
  engine := Scripted.handle;
  CV_TOO_MUCH_WORK := (-1)%Z;
  CV_NORMAL := 1%Z;
  ERRORS := Scripted.errors;
  check_ok := fun r => (r =? 0)%Z;
  CVodeSStolerances := fun e _ _ => (0%Z, e);
  CVodeSVtolerances := fun e _ _ => (0%Z, e);
  CVodeVStolerances := fun e _ _ => (0%Z, e);
  CVodeVVtolerances := fun e _ _ => (0%Z, e);
  CVodeReInit := fun e t _ =>
    (0%Z, {| Scripted.script := Scripted.script e; Scripted.reached := t |});
  CVodeSensReInit := fun e _ _ => (0%Z, e);
  CVode := Scripted.cvode;
  CVodeGetSens := fun e _ yS => (0%Z, Scripted.reached e, yS);
  CVodeAdjReInit := fun e => (0%Z, e);
  CVodeF := Scripted.cvodef;
  CVodeReInitB := fun e _ t _ =>
    (0%Z, {| Scripted.script := Scripted.script e; Scripted.reached := t |});
  CVodeQuadReInitB := fun e _ _ => (0%Z, e);
  CVodeB := fun e t _ => Scripted.next e t;
  CVodeGetB := fun e _ _ y => (0%Z, Scripted.reached e, y);
  CVodeGetQuadB := fun e _ _ q =>
    (0%Z, PrimFloat.add (Scripted.reached e) 0.5%float, q);
  update_subset_params := fun e _ => Ok e;
  update_remaining_params := fun e _ => Ok e;
  CVode_length := fun e t y tp k => length_map _ y;
  CVodeF_length := fun e t y tp k nc => length_map _ y;
  CVodeGetSens_shape := fun e tp yS => eq_refl;
  CVodeGetB_length := fun e which tp y => eq_refl;
  CVodeGetQuadB_length := fun e which tp q => eq_refl
|}.

#[local] Existing Instance lib.

(** An [AdjointSolver] on this engine, with one state and one parameter. *)
Definition adjoint_solver : AdjointSolver.state :=
  {| AdjointSolver.n_states := 1;
     AdjointSolver.n_params := 1;
     AdjointSolver._ode := {| Scripted.script := []; Scripted.reached := 0%float |};
     AdjointSolver._odeB := 0%Z;
     AdjointSolver._state_buffer := [0%float];
     AdjointSolver._state_bufferB := [0%float];
     AdjointSolver._quad_buffer := [0%float];
     AdjointSolver._quad_buffer_out := [0%float];
     AdjointSolver._atol := Arr0 1e-10%float;
     AdjointSolver._rtol := Arr0 1e-10%float;
     AdjointSolver.y_out := [[0%float]];
     AdjointSolver.grad_out := [0%float];
     AdjointSolver.lamda_out := [0%float];
     AdjointSolver.lamda_all_out := None;
     AdjointSolver.quad_all_out := None;
     AdjointSolver.time_p := 0%float;
     AdjointSolver.n_check := 0%Z;
     AdjointSolver.trace := [] |}.
End Drifting.

(** * Vocabulary of the properties *)

(** ** Relations between the worlds before and after a computation *)

(** [m] moves every world to an [R]-related one, whatever its outcome. *)
Definition stable {W : Type} (R : W -> W -> Prop) {A : Type} (m : M W A) : Prop :=
  forall w, R w (m w).2.

(** Relations given by an observation that stays what it was. *)
Definition keeps {W B : Type} (obs : W -> B) : W -> W -> Prop :=
  fun w w' => obs w' = obs w.


(** Every event but the zero fill of a buffer. *)
Definition nonzero_event (ev : event) : Prop :=
  match ev with
  | EvZero _ => False
  | _ => True
  end.

(** Every entry is the NaN that [np.nan] stores. *)
Definition all_nan (v : vec) : Prop := Forall (fun x => x = nan) v.

(** ** Tolerances *)

(** The engine setter that matches the ranks of [rtol] and [atol]. *)
Definition tol_kind_of (rtol atol : ndarray) : tol_kind :=
  match ndim rtol, ndim atol with
  | 0%nat, 0%nat => TolSS
  | 0%nat, _ => TolSV
  | _, 0%nat => TolVS
  | _, _ => TolVV
  end.

(** A configuration is accepted when it reaches the engine: the matching
    setter is the one call made, and the pair is stored on the solver as
    soon as [check] lets the returned status pass. *)
Definition accepted {W : Type} (trace : W -> list event) (stored : W -> ndarray * ndarray)
    (m : M W unit) (rtol atol : ndarray) (w : W) : Prop :=
  trace (m w).2 = trace w ++ [EvTolerances (tol_kind_of rtol atol) rtol atol]
  /\ ((m w).1 = Ok tt -> stored (m w).2 = (rtol, atol))
  /\ forall msg, (m w).1 <> Raise (ValueError msg).

(** A configuration is rejected when the call raises
    [ValueError('Invalid tolerance.')] and leaves the world as it was. *)
Definition rejected {W : Type} (m : M W unit) (w : W) : Prop :=
  m w = (Raise (ValueError "Invalid tolerance."), w).

(** ** Answers of the engine to a stepping request *)



(** ** Worlds of [Solver] *)

Section SolverVocabulary.
Context {lib : Sundials}.
Import Solver.

(** The trace only grows. *)
Definition trace_extends (w w' : state) : Prop := exists tr, trace w' = trace w ++ tr.

(** What the stepping loop leaves alone: the arrays of the caller, the
    sensitivity buffers, and the size of the state buffer. *)
Record step_frame (u u' : state) : Prop := {
  sf_y_out : y_out u' = y_out u;
  sf_sens_out : sens_out u' = sens_out u;
  sf_sens_buffers : _sens_buffers u' = _sens_buffers u;
  sf_n_params : n_params u' = n_params u;
  sf_compute_sens : _compute_sens u' = _compute_sens u;
  sf_state_buffer : length (_state_buffer u') = length (_state_buffer u)
}.

End SolverVocabulary.

(** ** Worlds of [AdjointSolver] *)

Section AdjointVocabulary.
Context {lib : Sundials}.
Import AdjointSolver.

(** What the loop over the sub-intervals, and every step of it, leaves
    alone: the result arrays [grad_out] and [lamda_out], the dimensions of
    the problem and the sizes of the three backward buffers; and it adds no
    zero fill to the trace. *)
Record backward_frame (w w' : state) : Prop := {
  bf_grad_out : grad_out w' = grad_out w;
  bf_lamda_out : lamda_out w' = lamda_out w;
  bf_n_states : n_states w' = n_states w;
  bf_n_params : n_params w' = n_params w;
  bf_state_bufferB : length (_state_bufferB w') = length (_state_bufferB w);
  bf_quad_buffer : length (_quad_buffer w') = length (_quad_buffer w);
  bf_quad_buffer_out : length (_quad_buffer_out w') = length (_quad_buffer_out w);
  bf_trace : exists tr, trace w' = trace w ++ tr /\ Forall nonzero_event tr
}.

(** The world after [state_data[:] = 0; quad_data[:] = 0; quad_out_data[:] = 0]. *)
Definition zeroed (w : state) : state := (zero_buffers w).2.

(** From the engine state [e], [n] calls [CVodeB(ode, t, CV_NORMAL)] in a
    row are answered with the retryable status, and leave the engine in [e']. *)
Fixpoint busy (n : nat) (t : float) (e e' : engine) : Prop :=
  match n with
  | O => e' = e
  | S n' => exists e1, CVodeB e t CV_NORMAL = (CV_TOO_MUCH_WORK, e1) /\ busy n' t e1 e'
  end.

(** The world in which the retries of a sub-interval start, once both
    reinitialisations went through. *)
Definition reinitialised (u : state) (t_upper : float) (e1 e2 : engine) : state :=
  log (set_ode (log (set_ode u e1) (EvReInitB (_odeB u) t_upper (_state_bufferB u))) e2)
      (EvQuadReInitB (_odeB u) (_quad_buffer u)).







(** Both parameter updates of [perform] went through, from [w] to [w1]. *)
Definition params_set (params params_fixed : vec) (w w1 : state) : Prop :=
  exists wa, set_derivative_params params w = (Ok tt, wa)
             /\ set_remaining_params params_fixed wa = (Ok tt, w1).

(** The world in which [solve_backward] starts in [SolveODEAdjointBackward]:
    the two optional arrays are not passed. *)
Definition without_all_out (w : state) : state :=
  set_quad_all_out (set_lamda_all_out w None) None.

(** The part of the world that belongs to the backward problem and to the
    results; the forward pass and the parameter updates leave it alone. *)
Definition backward_side (w : state) : nat * vec * vec * vec :=
  (n_states w, _state_bufferB w, grad_out w, lamda_out w).

End AdjointVocabulary.

(** ** Preconditions, postconditions and the exceptions let through *)

(** From a world in [P], [m] returns a value and a world in [Q], or raises
    an exception and leaves a world in [E], or runs out of fuel in a world
    in [F]. *)
Definition hoare {W A : Type} (P : W -> Prop) (m : M W A) (Q : A -> W -> Prop)
    (E : exn -> W -> Prop) (F : W -> Prop) : Prop :=
  forall w, P w ->
    match m w with
    | (Ok a, w') => Q a w'
    | (Raise e, w') => E e w'
    | (OutOfFuel, w') => F w'
    end.

(** The exceptions that stem from an answer of the engine: the errors of the
    stepping loops, a status that [check] refuses, a status without an entry
    in [ERRORS]. *)
Definition engine_born (e : exn) : Prop :=
  match e with
  | SolverError _ | CheckError _ | KeyError _ => True
  | _ => False
  end.

(** ** Further vocabulary of [AdjointSolver] *)

Section AdjointVocabularyMore.
Context {lib : Sundials}.
Import AdjointSolver.

(** The engine handle, the trace, the two quadrature buffers and the two
    result arrays: what an iteration that only injects leaves alone. *)
Definition engine_side (w : state)
  : engine * list event * vec * vec * vec * vec :=
  (_ode w, trace w, _quad_buffer w, _quad_buffer_out w, grad_out w, lamda_out w).

(** No sub-interval of the list is stepped: none has [t_lower < t_upper]. *)
Definition none_steppable (items : list ((float * float) * option vec)) : Prop :=
  Forall (fun item => PrimFloat.ltb item.1.1 item.1.2 = false) items.

(** The exception stems from an answer of the engine, whatever the world. *)
Definition on_engine : exn -> state -> Prop := fun e _ => engine_born e.

(** The state buffer has [n] entries and [y_out] is a [k] by [n] array. *)
Definition fits (n k : nat) (w : state) : Prop :=
  length (_state_buffer w) = n
  /\ length (y_out w) = k
  /\ Forall (fun row => length row = n) (y_out w).

End AdjointVocabularyMore.

(** ** Shapes of the arrays of the operators *)

Section OperatorVocabulary.
Context {lib : Sundials}.
Import AdjointSolver.

(** The shape of [y_out]: the lengths of its rows. *)
Definition y_shape (w : state) : list nat := map length (y_out w).

(** The sizes of the two result arrays of the backward pass. *)
Definition result_sizes (w : state) : nat * nat :=
  (length (lamda_out w), length (grad_out w)).

End OperatorVocabulary.

(** ** A [Solver] without sensitivities *)

(** The two engine requests of a solve without sensitivities. *)
Definition plain_event (ev : event) : Prop :=
  match ev with
  | EvReInit _ _ | EvCVode _ _ => True
  | _ => False
  end.

Section PlainSolverVocabulary.
Context {lib : Sundials}.
Import Solver.

(** Sensitivities are off, the sensitivity arrays are [so] and [sb], and the
    trace has grown from [tr0] by requests of the plain solve only. *)
Definition plain (so : option tensor3) (sb : mat) (tr0 : list event) (w : state) : Prop :=
  _compute_sens w = false
  /\ sens_out w = so
  /\ _sens_buffers w = sb
  /\ exists tr, trace w = tr0 ++ tr /\ Forall plain_event tr.

(** [m] keeps this, whatever its outcome. *)
Definition plain_inv (so : option tensor3) (sb : mat) (tr0 : list event) {A : Type}
    (m : M state A) : Prop :=
  hoare (plain so sb tr0) m (fun _ => plain so sb tr0) (fun _ => plain so sb tr0)
    (plain so sb tr0).

End PlainSolverVocabulary.

(** ** The time grid *)

(** The grid of output times of a forward solve: [t0] comes first, and the
    times increase strictly. *)
Definition time_grid (t0 : float) (tvals : list float) : Prop :=
  (exists t, tvals !! 0%nat = Some t /\ PrimFloat.eqb t t0 = true)
  /\ forall j a b, tvals !! j = Some a -> tvals !! S j = Some b ->
       PrimFloat.ltb a b = true.

(** ** The requests of a forward pass *)

(** The output times the forward loops step to: those that differ from [t0]. *)
Definition stepped_times (t0 : float) (tvals : list float) : list float :=
  List.filter (fun t => negb (PrimFloat.eqb t t0)) tvals.

(** [S n] stepping requests for every time, [n] taken from [counts]. *)
Definition forward_requests {lib : Sundials} (ts : list float) (counts : list nat)
  : list event :=
  concat (zip_with (fun t n => replicate (S n) (EvCVodeF t CV_NORMAL)) ts counts).

(** ** Shapes of the arrays of a [Solver] *)

(** A [k] by [n] array. *)
Definition rows (k n : nat) (m : mat) : Prop :=
  length m = k /\ Forall (fun row => length row = n) m.

(** A [k] by [p] by [n] array. *)
Definition blocks (k p n : nat) (t : tensor3) : Prop :=
  length t = k /\ Forall (rows p n) t.

Section SolverShapes.
Context {lib : Sundials}.
Import Solver.

(** The solver computes sensitivities or not, as [cs] says; its state buffer
    has [n] entries and [y_out] is [k] by [n]; with sensitivities there are
    [p] parameters, the sensitivity buffers are [p] by [n] and [sens_out] is
    [k] by [p] by [n]. *)
Definition solver_fits (cs : bool) (n p k : nat) (w : state) : Prop :=
  _compute_sens w = cs
  /\ length (_state_buffer w) = n
  /\ rows k n (y_out w)
  /\ (cs = true ->
      n_params w = p
      /\ rows p n (_sens_buffers w)
      /\ exists so, sens_out w = Some so /\ blocks k p n so).

(** Block [i] of [sens_out], when there is one. *)
Definition sens_block (w : state) (i : nat) : option mat :=
  match sens_out w with
  | Some so => so !! i
  | None => None
  end.

(** The solver with the arrays of its own [make_output_buffers]. *)
Definition with_own_buffers (n : nat) (tvals : list float) (w : state) : state :=
  set_sens_out (set_y_out w (make_output_buffers n tvals w).1)
    (make_output_buffers n tvals w).2.

(** The exception stems from an answer of the engine, whatever the world. *)
Definition from_engine : exn -> state -> Prop := fun e _ => engine_born e.

(** [m] keeps the shapes, and raises nothing but what the engine causes. *)
Definition fits_inv (cs : bool) (n p k : nat) {A : Type} (m : M state A) : Prop :=
  hoare (solver_fits cs n p k) m (fun _ => solver_fits cs n p k) from_engine
    (solver_fits cs n p k).

End SolverShapes.

(** ** Runs on the scripted engine *)



(** An [AdjointSolver] on an engine that answers [CV_TOO_MUCH_WORK] three
    times. *)
Definition stalling : AdjointSolver.state :=
  Scripted.adjoint_solver 1 1 3 [(-1)%Z; (-1)%Z; (-1)%Z].

(** [stalling] in a backward pass from [t = 2] with a budget of three
    retries, once the first sub-interval [(2, 2)] is done. *)
Definition stalling_start : AdjointSolver.state :=
  Eval vm_compute in
    (AdjointSolver.backward_loop (lib := Scripted.lib) 3
       [((2%float, 2%float), Some [1%float])]
       (AdjointSolver.set_time_p (zeroed stalling) 2%float)).2.

(** An [AdjointSolver] whose forward pass fails with [CV_CONV_FAILURE] on
    the step to [t = 1], before and after that pass. *)
Definition forward_failing : AdjointSolver.state :=
  Scripted.adjoint_solver 1 1 2 [(-4)%Z].

Definition forward_failed : AdjointSolver.state :=
  Eval vm_compute in
    (AdjointSolver.solve_forward (lib := Scripted.lib) 3 0%float [0%float; 1%float]
       [5%float] forward_failing).2.

(** An [AdjointSolver] whose forward pass goes through and whose backward
    pass fails on the sub-interval [(0, 1)]: before the passes, between them,
    and after the failure. *)
Definition backward_failing : AdjointSolver.state :=
  Scripted.adjoint_solver 1 1 2 [0%Z; (-4)%Z].

Definition backward_failing_mid : AdjointSolver.state :=
  Eval vm_compute in
    (AdjointSolver.solve_forward (lib := Scripted.lib) 3 0%float [0%float; 1%float]
       [5%float] backward_failing).2.

Definition backward_failed : AdjointSolver.state :=
  Eval vm_compute in
    (AdjointSolver.solve_backward (lib := Scripted.lib) 1%float 0%float
       [0%float; 1%float] [[1%float]; [1%float]] 50
       (without_all_out backward_failing_mid)).2.

(** An [AdjointSolver] for three output times whose engine asks for one
    retry in the forward pass, before and after both passes with unit loss
    gradients. *)
Definition adjoint_run : AdjointSolver.state :=
  Scripted.adjoint_solver 1 1 3 [(-1)%Z; 0%Z; 0%Z].

Definition adjoint_run_done : AdjointSolver.state :=
  Eval vm_compute in
    (SolveODEAdjointBackward.solve_both (lib := Scripted.lib) 5 0%float
       [0%float; 1%float; 2%float] [1%float] [[1%float]; [1%float]; [1%float]]
       (SolveODEAdjoint.fresh_buffers [0%float; 1%float; 2%float] adjoint_run)).2.

(** * Properties *)

(** ** Comparisons of doubles *)


(** [a == b] excludes [a < b]. *)
Lemma eqb_not_ltb (a b : float) : PrimFloat.eqb a b = true -> PrimFloat.ltb a b = false.
Proof.
  rewrite FloatAxioms.eqb_spec, FloatAxioms.ltb_spec. unfold SpecFloat.SFeqb, SpecFloat.SFltb.
  destruct (SpecFloat.SFcompare (Prim2SF a) (Prim2SF b)) as [[]|]; congruence.
Qed.


(** ** The monad *)

Section MonadFacts.
Context {W : Type}.

Context (R : W -> W -> Prop) `{!PreOrder R}.

Lemma stable_ret {A} (a : A) : stable R (ret a).
Proof. intros w. reflexivity. Qed.

Lemma stable_raise {A} (e : exn) : stable R (raise (A := A) e).
Proof. intros w. reflexivity. Qed.

Lemma stable_out_of_fuel {A} : stable R (out_of_fuel (A := A)).
Proof. intros w. reflexivity. Qed.

Lemma stable_gets {A} (f : W -> A) : stable R (gets f).
Proof. intros w. reflexivity. Qed.

Lemma stable_lift {A} (r : result A) : stable R (lift r).
Proof. intros w. reflexivity. Qed.

Lemma stable_modify (f : W -> W) : (forall w, R w (f w)) -> stable R (modify f).
Proof. intros H w. apply H. Qed.

Lemma stable_bind {A B} (m : M W A) (k : A -> M W B) :
  stable R m -> (forall a, stable R (k a)) -> stable R (bind m k).
Proof.
  intros Hm Hk w. unfold bind. specialize (Hm w).
  destruct (m w) as [[a | e |] w1]; simpl in *; try assumption.
  etransitivity; [exact Hm | apply Hk].
Qed.

Lemma stable_for_each {A} (body : nat -> A -> M W unit) (l : list A) :
  (forall i x, stable R (body i x)) -> forall i, stable R (for_each body i l).
Proof.
  intros Hb. induction l as [| x l IH]; intros i; simpl.
  - apply stable_ret.
  - apply stable_bind; [apply Hb | intros _; apply IH].
Qed.

Lemma stable_try {A} (body handler : M W A) :
  stable R body -> stable R handler -> stable R (try_except_SolverError body handler).
Proof.
  intros Hb Hh w. unfold try_except_SolverError. specialize (Hb w).
  destruct (body w) as [[a | [] |] w1]; simpl in *; try assumption.
  etransitivity; [exact Hb | apply Hh].
Qed.
End MonadFacts.

(** One structural step of a proof of [stable R m]. *)
Ltac stable_step :=
  match goal with
  | |- stable _ (bind _ _) => apply stable_bind; [typeclasses eauto | | intros ?]
  | |- stable _ (ret _) => apply stable_ret; typeclasses eauto
  | |- stable _ (raise _) => apply stable_raise; typeclasses eauto
  | |- stable _ (gets _) => apply stable_gets; typeclasses eauto
  | |- stable _ (lift _) => apply stable_lift; typeclasses eauto
  | |- stable _ (check _) => unfold check
  | |- stable _ (errors_lookup _) => unfold errors_lookup
  | |- stable _ (if ?b then _ else _) => destruct b
  | |- stable _ (match ?x with _ => _ end) => destruct x
  end.

(** [for_each] over a concatenation. *)
Lemma for_each_app {W A} (body : nat -> A -> M W unit) (l1 l2 : list A) (i : nat) (w : W) :
  for_each body i (l1 ++ l2) w =
  (_ <- for_each body i l1 ;; for_each body (i + length l1) l2) w.
Proof.
  revert i w. induction l1 as [| x l1 IH]; intros i w; simpl.
  - unfold bind, ret. rewrite Nat.add_0_r. reflexivity.
  - replace (i + S (length l1))%nat with (S i + length l1)%nat by lia.
    unfold bind in *. destruct (body i x w) as [[[] | e |] w1]; try reflexivity.
    apply IH.
Qed.

Lemma bind_ok {W A B} (m : M W A) (k : A -> M W B) (w w' : W) (a : A) :
  m w = (Ok a, w') -> bind m k w = k a w'.
Proof. intros H. unfold bind. rewrite H. reflexivity. Qed.

Lemma bind_raise {W A B} (m : M W A) (k : A -> M W B) (w w' : W) (e : exn) :
  m w = (Raise e, w') -> bind m k w = (Raise e, w').
Proof. intros H. unfold bind. rewrite H. reflexivity. Qed.

Lemma bind_inv {W A B} (m : M W A) (k : A -> M W B) (w w' : W) (r : result B) :
  bind m k w = (r, w') ->
  (exists a w1, m w = (Ok a, w1) /\ k a w1 = (r, w'))
  \/ (exists e, m w = (Raise e, w') /\ r = Raise e)
  \/ (m w = (OutOfFuel, w') /\ r = OutOfFuel).
Proof.
  unfold bind. destruct (m w) as [[a | e |] w1].
  - intros H. left. eauto.
  - intros [= <- <-]. right. left. eauto.
  - intros [= <- <-]. right. right. eauto.
Qed.

Lemma result_pair {W A} (m : M W A) (w : W) : m w = ((m w).1, (m w).2).
Proof. destruct (m w). reflexivity. Qed.


(** ** Argument validation of [Solver.solve] *)

Section SolveValidation.
Context {lib : Sundials}.

(** C10: on a [Solver] built with [compute_sens=True], [solve] called with
    [sens0] or [sens_out] equal to [None] raises the [ValueError] of its
    first statement, and the world it is raised in is the world of the call:
    no engine call was made (same engine handle, same trace) and no buffer
    of the solver or of the caller was written. *)
Theorem C10_solve_requires_sens (fuel : nat) (t0 : float) (tvals : list float)
    (y0 : vec) (sens0 : option mat) (w : Solver.state) :
  Solver._compute_sens w = true ->
  sens0 = None \/ Solver.sens_out w = None ->
  Solver.solve fuel t0 tvals y0 sens0 w = (Raise Solver.sens_required, w)
  /\ exists msg, Solver.sens_required = ValueError msg.
Proof.
  intros Hcs Hnone. split; [| eexists; reflexivity].
  unfold Solver.solve, bind, gets. rewrite Hcs. simpl.
  destruct Hnone as [-> | ->].
  - reflexivity.
  - rewrite orb_true_r. reflexivity.
Qed.
End SolveValidation.

(** C10 on the scripted engine: a solver with sensitivities called without
    [sens0]. *)
Lemma C10_solve_requires_sens_witness :
  Solver.solve 5 0%float [0%float; 1%float] [3%float; 4%float] None
    (Scripted.solver true 2 1 2 [])
  = (Raise Solver.sens_required, Scripted.solver true 2 1 2 [])
  /\ exists msg, Solver.sens_required = ValueError msg.
Proof.
  apply (C10_solve_requires_sens (lib := Scripted.lib)).
  - reflexivity.
  - left. reflexivity.
Defined.

(** ** Tolerance configurations *)

Section Tolerances.
Context {lib : Sundials}.

Lemma Solver_accepts (kind : tol_kind) f (rtol atol : ndarray) (w : Solver.state) :
  kind = tol_kind_of rtol atol ->
  accepted Solver.trace (fun w => (Solver._rtol w, Solver._atol w))
    (_ <- (r <- Solver.call_tolerances kind f rtol atol ;; check r) ;;
     modify (fun w => Solver.set_tols w atol rtol)) rtol atol w.
Proof.
  intros ->. unfold accepted, bind, Solver.call_tolerances, check, modify, ret, raise.
  destruct (f (Solver._ode w) rtol atol) as [r e]. simpl.
  destruct (check_ok r); simpl; repeat split; congruence.
Qed.

Lemma AdjointSolver_accepts (kind : tol_kind) f (rtol atol : ndarray)
    (w : AdjointSolver.state) :
  kind = tol_kind_of rtol atol ->
  accepted AdjointSolver.trace (fun w => (AdjointSolver._rtol w, AdjointSolver._atol w))
    (_ <- (r <- AdjointSolver.call_tolerances kind f rtol atol ;; check r) ;;
     modify (fun w => AdjointSolver.set_tols w atol rtol)) rtol atol w.
Proof.
  intros ->. unfold accepted, bind, AdjointSolver.call_tolerances, check, modify, ret, raise.
  destruct (f (AdjointSolver._ode w) rtol atol) as [r e]. simpl.
  destruct (check_ok r); simpl; repeat split; congruence.
Qed.

(** C7, as the code has it: [Solver._set_tolerances] accepts the four
    scalar/vector combinations of [rtol] and [atol];
    [AdjointSolver._set_tolerances] accepts a scalar [rtol] with a scalar or a
    vector [atol], and rejects every [rtol] that is not a scalar. *)
Theorem C7_tolerance_combinations (atol rtol : ndarray) :
  (forall w : Solver.state,
     (ndim atol <= 1)%nat -> (ndim rtol <= 1)%nat ->
     accepted Solver.trace (fun w => (Solver._rtol w, Solver._atol w))
       (Solver._set_tolerances atol rtol) rtol atol w)
  /\ (forall w : AdjointSolver.state,
        (ndim atol <= 1)%nat -> ndim rtol = 0%nat ->
        accepted AdjointSolver.trace
          (fun w => (AdjointSolver._rtol w, AdjointSolver._atol w))
          (AdjointSolver._set_tolerances atol rtol) rtol atol w)
  /\ (forall w : AdjointSolver.state,
        ndim rtol <> 0%nat ->
        rejected (AdjointSolver._set_tolerances atol rtol) w).
Proof.
  split; [| split].
  - intros w Ha Hr. unfold Solver._set_tolerances.
    destruct atol as [a | a | a], rtol as [r | r | r]; simpl in Ha, Hr; try lia;
      simpl; apply Solver_accepts; reflexivity.
  - intros w Ha Hr. unfold AdjointSolver._set_tolerances.
    destruct atol as [a | a | a], rtol as [r | r | r]; simpl in Ha, Hr;
      try lia; try discriminate; simpl; apply AdjointSolver_accepts; reflexivity.
  - intros w Hr. unfold rejected, AdjointSolver._set_tolerances.
    destruct atol as [a | a | a], rtol as [r | r | r]; simpl in Hr; try congruence;
      reflexivity.
Qed.
End Tolerances.

(** C7 on the scripted engine: a vector [rtol] with a scalar [atol] on
    [Solver], a scalar [rtol] with a vector [atol] on [AdjointSolver], and two
    vectors on [AdjointSolver]. *)
Lemma C7_tolerance_combinations_witness :
  accepted Solver.trace (fun w => (Solver._rtol w, Solver._atol w))
    (Solver._set_tolerances (Arr0 0.5%float) (Arr1 [0.25%float; 0.25%float]))
    (Arr1 [0.25%float; 0.25%float]) (Arr0 0.5%float) (Scripted.solver false 2 1 2 [])
  /\ accepted AdjointSolver.trace
       (fun w => (AdjointSolver._rtol w, AdjointSolver._atol w))
       (AdjointSolver._set_tolerances (Arr1 [0.5%float; 0.5%float]) (Arr0 0.25%float))
       (Arr0 0.25%float) (Arr1 [0.5%float; 0.5%float]) (Scripted.adjoint_solver 2 1 2 [])
  /\ rejected
       (AdjointSolver._set_tolerances (Arr1 [0.5%float; 0.5%float])
          (Arr1 [0.25%float; 0.25%float]))
       (Scripted.adjoint_solver 2 1 2 []).
Proof.
  split; [| split].
  - apply (C7_tolerance_combinations (lib := Scripted.lib)
             (Arr0 0.5%float) (Arr1 [0.25%float; 0.25%float])); simpl; lia.
  - apply (C7_tolerance_combinations (lib := Scripted.lib)
             (Arr1 [0.5%float; 0.5%float]) (Arr0 0.25%float)); simpl; [lia | reflexivity].
  - apply (C7_tolerance_combinations (lib := Scripted.lib)
             (Arr1 [0.5%float; 0.5%float]) (Arr1 [0.25%float; 0.25%float])).
    simpl. discriminate.
Defined.

(** C7 as stated fails on [AdjointSolver]: a vector [rtol] with a scalar
    [atol] is not accepted there; the call raises
    [ValueError('Invalid tolerance.')] before any engine call. *)
Lemma C7_adjoint_rejects_vector_rtol :
  ~ accepted AdjointSolver.trace
      (fun w => (AdjointSolver._rtol w, AdjointSolver._atol w))
      (AdjointSolver._set_tolerances (Arr0 0.5%float) (Arr1 [0.25%float; 0.25%float]))
      (Arr1 [0.25%float; 0.25%float]) (Arr0 0.5%float)
      (Scripted.adjoint_solver 2 1 2 []).
Proof.
  intros (_ & _ & H). apply (H "Invalid tolerance."%string). reflexivity.
Qed.

(** ** The forward stepping loop *)

Section StepLoop.
Context {lib : Sundials} {W : Type} (step : float -> M W Z).





End StepLoop.

Section ForwardLoops.
Context {lib : Sundials}.





End ForwardLoops.


(** ** Slice assignment keeps shapes *)

Lemma broadcast_length {A : Type} (n : nat) (b v : list A) :
  broadcast n b = Some v -> length v = n.
Proof.
  unfold broadcast. destruct (length b =? n)%nat eqn:E.
  - intros [= <-]. apply Nat.eqb_eq. exact E.
  - destruct b as [| x [| ? ?]]; try discriminate.
    intros [= <-]. apply length_replicate.
Qed.

Lemma broadcast_same {A : Type} (b : list A) : broadcast (length b) b = Some b.
Proof. unfold broadcast. rewrite Nat.eqb_refl. reflexivity. Qed.

Lemma assign_length (a b v : vec) : assign a b = Ok v -> length v = length a.
Proof.
  unfold assign. destruct (broadcast _ _) eqn:E; [| discriminate].
  intros [= <-]. eapply broadcast_length. exact E.
Qed.

Lemma assign_same_length (a b : vec) : length b = length a -> assign a b = Ok b.
Proof. intros H. unfold assign. rewrite <- H, broadcast_same. reflexivity. Qed.

Lemma assign_not_SolverError (a b : vec) (m : solver_msg) :
  assign a b <> Raise (SolverError m).
Proof. unfold assign. destruct (broadcast _ _); discriminate. Qed.

Lemma isub_length (a g v : vec) : isub a g = Ok v -> length v = length a.
Proof.
  unfold isub. destruct (broadcast _ _) as [u |] eqn:E; [| discriminate].
  intros [= <-]. rewrite length_zip_with. apply broadcast_length in E. lia.
Qed.

Lemma isub_same_length (a g : vec) :
  length g = length a -> isub a g = Ok (zip_with PrimFloat.sub a g).
Proof. intros H. unfold isub. rewrite <- H, broadcast_same. reflexivity. Qed.

Lemma set_row_length (out out' : mat) (i : nat) (v : vec) :
  set_row out i v = Ok out' -> length out' = length out.
Proof.
  unfold set_row. destruct (out !! i); [| discriminate].
  destruct (assign _ _); try discriminate. intros [= <-]. apply length_insert.
Qed.

(** ** The backward pass *)

Section Backward.
Context {lib : Sundials}.
Import AdjointSolver.

#[local] Instance backward_frame_preorder : PreOrder backward_frame.
Proof.
  split.
  - intros w. split; try reflexivity. exists []. rewrite app_nil_r. auto.
  - intros w1 w2 w3 [] []. split; try congruence.
    destruct bf_trace0 as (tr1 & E1 & F1), bf_trace1 as (tr2 & E2 & F2).
    exists (tr1 ++ tr2). rewrite E2, E1, app_assoc. split; [reflexivity |].
    apply Forall_app. auto.
Qed.

Ltac frame_prim :=
  split; simpl; try reflexivity; try congruence;
  first [ exists []; split; [symmetry; apply app_nil_r | constructor]
        | eexists; split; [reflexivity | repeat constructor; exact I] ].

Lemma frame_call_CVodeReInitB (t : float) : stable backward_frame (call_CVodeReInitB t).
Proof.
  intros w. unfold call_CVodeReInitB. destruct (CVodeReInitB _ _ _ _) as [r e].
  frame_prim.
Qed.

Lemma frame_call_CVodeQuadReInitB : stable backward_frame call_CVodeQuadReInitB.
Proof.
  intros w. unfold call_CVodeQuadReInitB. destruct (CVodeQuadReInitB _ _ _) as [r e].
  frame_prim.
Qed.

Lemma frame_call_CVodeB (t : float) : stable backward_frame (call_CVodeB t).
Proof.
  intros w. unfold call_CVodeB. destruct (CVodeB _ _ _) as [r e]. frame_prim.
Qed.

Lemma frame_call_CVodeGetB : stable backward_frame call_CVodeGetB.
Proof.
  intros w. unfold call_CVodeGetB.
  pose proof (CVodeGetB_length (_ode w) (_odeB w) (time_p w) (_state_bufferB w)) as L.
  destruct (CVodeGetB _ _ _ _) as [[r tp] y]. simpl in L. frame_prim.
Qed.

Lemma frame_call_CVodeGetQuadB : stable backward_frame call_CVodeGetQuadB.
Proof.
  intros w. unfold call_CVodeGetQuadB.
  pose proof (CVodeGetQuadB_length (_ode w) (_odeB w) (time_p w) (_quad_buffer_out w)) as L.
  destruct (CVodeGetQuadB _ _ _ _) as [[r tp] q]. simpl in L. frame_prim.
Qed.

Lemma frame_retry_loop (retries : nat) (t_lower t_upper : float) :
  stable backward_frame (retry_loop retries t_lower t_upper).
Proof.
  induction retries as [| n IH]; simpl.
  - stable_step.
  - stable_step; [apply frame_call_CVodeB |].
    repeat stable_step. exact IH.
Qed.

Lemma frame_copy_quad :
  stable backward_frame
    (qd <- gets _quad_buffer ;;
     qo <- gets _quad_buffer_out ;;
     q <- lift (assign qd qo) ;;
     modify (fun w => set_quad_buffer w q)).
Proof.
  intros w. unfold bind, gets, lift, modify.
  destruct (assign _ _) as [q | e |] eqn:E; simpl; try reflexivity.
  apply assign_length in E. frame_prim.
Qed.

Lemma frame_step_interval (max_retries : Z) (t_lower t_upper : float) :
  stable backward_frame (step_interval max_retries t_lower t_upper).
Proof.
  unfold step_interval.
  stable_step; [apply frame_call_CVodeReInitB |].
  stable_step; [repeat stable_step |].
  stable_step; [apply frame_call_CVodeQuadReInitB |].
  stable_step; [repeat stable_step |].
  stable_step; [apply frame_retry_loop |].
  stable_step; [apply frame_call_CVodeGetB |].
  stable_step; [repeat stable_step |].
  stable_step; [apply frame_call_CVodeGetQuadB |].
  stable_step; [repeat stable_step |].
  stable_step; [apply frame_copy_quad |].
  repeat stable_step.
Qed.

Lemma frame_write_all_out get set (i : nat) (v : vec) :
  (forall w o, backward_frame w (set w o)) ->
  stable backward_frame (write_all_out get set i v).
Proof.
  intros Hset. unfold write_all_out. repeat stable_step.
  apply stable_modify. intros w. apply Hset.
Qed.

Lemma frame_inject (i : nat) (grad : option vec) : stable backward_frame (inject i grad).
Proof.
  destruct grad as [g |]; simpl; [| stable_step].
  intros w. unfold bind at 1 2 3. unfold gets at 1, lift, modify at 1.
  destruct (isub _ _) as [v | e |] eqn:E; simpl; try reflexivity.
  apply isub_length in E.
  transitivity (set_state_bufferB w v); [frame_prim |].
  apply (stable_bind backward_frame); [apply stable_gets; typeclasses eauto |].
  intros sd. stable_step.
  - apply frame_write_all_out. intros; frame_prim.
  - stable_step; [stable_step |]. apply frame_write_all_out. intros; frame_prim.
Qed.

Lemma frame_backward_body (max_retries : Z) (i : nat) item :
  stable backward_frame (backward_body max_retries i item).
Proof.
  destruct item as [[t_lower t_upper] grad]. unfold backward_body.
  stable_step; [| apply frame_inject].
  stable_step; [apply frame_step_interval | stable_step].
Qed.

Lemma frame_backward_loop (max_retries : Z) items :
  stable backward_frame (backward_loop max_retries items).
Proof.
  unfold backward_loop. apply stable_for_each; [typeclasses eauto |].
  intros i x. apply frame_backward_body.
Qed.
(** *** Sub-intervals *)

Lemma lookup_removelast {A : Type} (l : list A) (k : nat) :
  (S k < length l)%nat -> removelast l !! k = l !! k.
Proof.
  intros H. rewrite removelast_firstn_len. apply lookup_take_lt. lia.
Qed.

Lemma length_removelast {A : Type} (l : list A) : length (removelast l) = pred (length l).
Proof. rewrite removelast_firstn_len. rewrite length_take. lia. Qed.

(** The [k]-th sub-interval pairs entry [k + 1] of
    [[t0] + tvals[::-1] + [tend]], as [t_lower], with entry [k], as [t_upper]. *)
Lemma t_intervals_lookup (t0 tend : float) (tvals : list float) (k : nat)
    (t_lower t_upper : float) :
  t_intervals t0 tend tvals !! k = Some (t_lower, t_upper) <->
  ([t0] ++ rev tvals ++ [tend]) !! S k = Some t_lower
  /\ ([t0] ++ rev tvals ++ [tend]) !! k = Some t_upper.
Proof.
  unfold t_intervals. cbv zeta. set (ts := [t0] ++ rev tvals ++ [tend]).
  rewrite lookup_zip_with_Some. split.
  - intros (x & y & [= -> ->] & Hx & Hy).
    assert (k < length (removelast ts))%nat as Hk by (eapply lookup_lt_Some; eauto).
    rewrite length_removelast in Hk.
    rewrite lookup_removelast in Hy by lia.
    split; [| exact Hy]. destruct ts; [discriminate | exact Hx].
  - intros [Hl Hu]. exists t_lower, t_upper. split; [reflexivity |].
    assert (S k < length ts)%nat as Hk by (eapply lookup_lt_Some; eauto).
    rewrite lookup_removelast by lia. split; [| exact Hu].
    destruct ts; [discriminate | exact Hl].
Qed.

(** *** The zero fill and the injection *)

Lemma zero_buffers_zeroed (w : state) : zero_buffers w = (Ok tt, zeroed w).
Proof. reflexivity. Qed.

Lemma zeroed_trace (w : state) :
  trace (zeroed w) = trace w ++ [EvZero BufStateB; EvZero BufQuad; EvZero BufQuadOut].
Proof. unfold zeroed. simpl. rewrite <- !app_assoc. reflexivity. Qed.

Lemma solve_backward_unfold (t0 tend : float) (tvals : list float) (grads : mat)
    (max_retries : Z) (w : state) :
  solve_backward t0 tend tvals grads max_retries w =
  (_ <- backward_loop max_retries (backward_items t0 tend tvals grads) ;; write_results)
    (set_time_p (zeroed w) t0).
Proof.
  unfold solve_backward.
  rewrite (bind_ok _ _ _ _ _ (zero_buffers_zeroed w)).
  rewrite (bind_ok _ _ (zeroed w) (set_time_p (zeroed w) t0) tt) by reflexivity.
  reflexivity.
Qed.



Lemma write_results_trace (w : state) : trace (write_results w).2 = trace w.
Proof.
  unfold write_results, bind, gets, lift, modify.
  repeat (case_match; simpl in *; simplify_eq; simpl; auto).
Qed.

(** *** A stepped sub-interval, from the reinitialisations to the read-back *)






(** *** The retry budget *)

Lemma retry_loop_exhausted (n : nat) (t_lower t_upper : float) (w : state) (e' : engine) :
  CV_TOO_MUCH_WORK <> 0%Z -> busy n t_lower (_ode w) e' ->
  (retry_loop n t_lower t_upper w).1 = Raise (SolverError (TooManyRetries t_upper t_lower)).
Proof.
  intros Hne. revert w. induction n as [| n IH]; intros w Hbusy; simpl; [reflexivity |].
  destruct Hbusy as (e1 & Hcall & Hbusy).
  unfold bind, call_CVodeB. rewrite Hcall.
  apply Z.eqb_neq in Hne. rewrite Hne, Z.eqb_refl. simpl.
  apply IH. exact Hbusy.
Qed.

Lemma retry_loop_fatal (n k : nat) (t_lower t_upper : float) (w : state)
    (e1 e2 : engine) (c : Z) (name : string) :
  CV_TOO_MUCH_WORK <> 0%Z -> (k < n)%nat -> busy k t_lower (_ode w) e1 ->
  CVodeB e1 t_lower CV_NORMAL = (c, e2) -> c <> 0%Z -> c <> CV_TOO_MUCH_WORK ->
  ERRORS !! c = Some name ->
  (retry_loop n t_lower t_upper w).1
  = Raise (SolverError (FailedBetween t_upper t_lower name c)).
Proof.
  intros Hne Hk Hbusy Hcall Hc0 Hc1 Hname. revert n w Hk Hbusy.
  induction k as [| k IH]; intros n w Hk Hbusy;
    (destruct n as [| n]; [lia |]); simpl; unfold bind, call_CVodeB.
  - simpl in Hbusy. subst e1. rewrite Hcall.
    apply Z.eqb_neq in Hc0, Hc1. rewrite Hc0, Hc1. simpl.
    unfold errors_lookup. rewrite Hname. reflexivity.
  - destruct Hbusy as (e' & Hcall' & Hbusy). rewrite Hcall'.
    apply Z.eqb_neq in Hne. rewrite Hne, Z.eqb_refl. simpl.
    apply IH; [lia | exact Hbusy].
Qed.

Lemma step_interval_retries (max_retries : Z) (t_lower t_upper : float) (u : state)
    (r1 r2 : Z) (e1 e2 : engine) (e : exn) :
  CVodeReInitB (_ode u) (_odeB u) t_upper (_state_bufferB u) = (r1, e1) ->
  check_ok r1 = true ->
  CVodeQuadReInitB e1 (_odeB u) (_quad_buffer u) = (r2, e2) ->
  check_ok r2 = true ->
  (retry_loop (Z.to_nat max_retries) t_lower t_upper (reinitialised u t_upper e1 e2)).1
  = Raise e ->
  (step_interval max_retries t_lower t_upper u).1 = Raise e.
Proof.
  intros H1 Hc1 H2 Hc2 Hretry. unfold step_interval.
  unfold bind at 1. unfold call_CVodeReInitB. rewrite H1.
  unfold bind at 1. unfold check at 1. rewrite Hc1. unfold ret at 1.
  unfold bind at 1. unfold call_CVodeQuadReInitB. simpl _ode. simpl _odeB.
  simpl _quad_buffer. rewrite H2.
  unfold bind at 1. unfold check at 1. rewrite Hc2. unfold ret at 1.
  unfold bind at 1. fold (reinitialised u t_upper e1 e2).
  destruct (retry_loop _ _ _ _) as [[[] | e0 |] u3]; simpl in *; congruence.
Qed.

Lemma write_results_not_SolverError (w : state) (m : solver_msg) :
  (write_results w).1 <> Raise (SolverError m).
Proof.
  unfold write_results, bind, gets, lift, modify, assign.
  repeat (case_match; simpl in *; simplify_eq; simpl; try discriminate).
Qed.

(** A [SolverError] leaves [solve_backward] before the result arrays are
    written. *)
Lemma solve_backward_no_partial_result (t0 tend : float) (tvals : list float) (grads : mat)
    (max_retries : Z) (w : state) (m : solver_msg) :
  (solve_backward t0 tend tvals grads max_retries w).1 = Raise (SolverError m) ->
  grad_out (solve_backward t0 tend tvals grads max_retries w).2 = grad_out w
  /\ lamda_out (solve_backward t0 tend tvals grads max_retries w).2 = lamda_out w.
Proof.
  rewrite solve_backward_unfold. set (w0 := set_time_p (zeroed w) t0).
  pose proof (frame_backward_loop max_retries (backward_items t0 tend tvals grads) w0)
    as [Hg Hl _ _ _ _ _ _].
  unfold bind. destruct (backward_loop _ _ w0) as [[[] | e |] w1]; simpl in *.
  - intros H. exfalso. exact (write_results_not_SolverError _ _ H).
  - intros _. split; [rewrite Hg | rewrite Hl]; reflexivity.
  - discriminate.
Qed.

(** An exception raised in the sub-interval that follows the completed ones
    is the outcome of the whole [solve_backward]. *)
Lemma solve_backward_raises (t0 tend : float) (tvals : list float) (grads : mat)
    (max_retries : Z) (w u : state) pre (t_lower t_upper : float) g post (e : exn) :
  backward_items t0 tend tvals grads = pre ++ ((t_lower, t_upper), g) :: post ->
  backward_loop max_retries pre (set_time_p (zeroed w) t0) = (Ok tt, u) ->
  PrimFloat.ltb t_lower t_upper = true ->
  (step_interval max_retries t_lower t_upper u).1 = Raise e ->
  (solve_backward t0 tend tvals grads max_retries w).1 = Raise e.
Proof.
  intros Hitems Hpre Hlt Hstep. rewrite solve_backward_unfold, Hitems.
  unfold backward_loop in *. unfold bind at 1. rewrite for_each_app.
  rewrite (bind_ok _ _ _ _ _ Hpre). simpl for_each. unfold bind at 1.
  unfold backward_body at 1. rewrite Hlt. unfold bind at 1.
  destruct (step_interval _ _ _ u) as [[[] | e0 |] u1]; simpl in *; congruence.
Qed.

(** C3: in [solve_backward], when the sub-intervals before
    [(t_lower, t_upper)] completed, [t_lower < t_upper], both
    reinitialisations went through, and the engine then answers
    [CV_TOO_MUCH_WORK] to [max_retries] calls of [CVodeB] in a row, the solve
    raises the [SolverError] "Too many solver retries between time t_upper
    and t_lower", and [grad_out] and [lamda_out] are as they were before the
    call; a fatal status answered within the budget raises the other
    [SolverError], "Solving ode failed between ...", which is a different
    error. *)
Theorem C3_retry_budget_exhausted (t0 tend : float) (tvals : list float) (grads : mat)
    (max_retries : Z) (w u : state) pre (t_lower t_upper : float) g post
    (r1 r2 : Z) (e1 e2 : engine) :
  backward_items t0 tend tvals grads = pre ++ ((t_lower, t_upper), g) :: post ->
  backward_loop max_retries pre (set_time_p (zeroed w) t0) = (Ok tt, u) ->
  PrimFloat.ltb t_lower t_upper = true ->
  CVodeReInitB (_ode u) (_odeB u) t_upper (_state_bufferB u) = (r1, e1) ->
  check_ok r1 = true ->
  CVodeQuadReInitB e1 (_odeB u) (_quad_buffer u) = (r2, e2) ->
  check_ok r2 = true ->
  CV_TOO_MUCH_WORK <> 0%Z ->
  let out := solve_backward t0 tend tvals grads max_retries w in
  (forall e3, busy (Z.to_nat max_retries) t_lower e2 e3 ->
     out.1 = Raise (SolverError (TooManyRetries t_upper t_lower))
     /\ grad_out out.2 = grad_out w
     /\ lamda_out out.2 = lamda_out w)
  /\ (forall k c e3 e4 name,
        (k < Z.to_nat max_retries)%nat -> busy k t_lower e2 e3 ->
        CVodeB e3 t_lower CV_NORMAL = (c, e4) -> c <> 0%Z -> c <> CV_TOO_MUCH_WORK ->
        ERRORS !! c = Some name ->
        out.1 = Raise (SolverError (FailedBetween t_upper t_lower name c))
        /\ FailedBetween t_upper t_lower name c <> TooManyRetries t_upper t_lower).
Proof.
  intros Hitems Hpre Hlt H1 Hc1 H2 Hc2 Hne out. split.
  - intros e3 Hbusy.
    assert (Hout : out.1 = Raise (SolverError (TooManyRetries t_upper t_lower))).
    { eapply solve_backward_raises; eauto.
      eapply step_interval_retries; eauto.
      eapply retry_loop_exhausted; eauto. }
    split; [exact Hout |]. apply solve_backward_no_partial_result with (m := TooManyRetries t_upper t_lower).
    exact Hout.
  - intros k c e3 e4 name Hk Hbusy Hcall Hc0 Hcne Hname. split; [| discriminate].
    eapply solve_backward_raises; eauto.
    eapply step_interval_retries; eauto.
    eapply retry_loop_fatal; eauto.
Qed.
End Backward.

(** C3 on the scripted engine: three output times and a budget of three
    retries.  The first sub-interval [(2, 2)] is degenerate; the budget runs
    out on the second, [(1, 2)]. *)
Lemma C3_retry_budget_exhausted_witness :
  (AdjointSolver.solve_backward 2%float 0%float [0%float; 1%float; 2%float]
     [[1%float]; [1%float]; [1%float]] 3 stalling).1
  = Raise (SolverError (TooManyRetries 2%float 1%float))
  /\ AdjointSolver.grad_out
       (AdjointSolver.solve_backward 2%float 0%float [0%float; 1%float; 2%float]
          [[1%float]; [1%float]; [1%float]] 3 stalling).2
     = AdjointSolver.grad_out stalling
  /\ AdjointSolver.lamda_out
       (AdjointSolver.solve_backward 2%float 0%float [0%float; 1%float; 2%float]
          [[1%float]; [1%float]; [1%float]] 3 stalling).2
     = AdjointSolver.lamda_out stalling.
Proof.
  refine (proj1 (C3_retry_budget_exhausted (lib := Scripted.lib)
            2%float 0%float [0%float; 1%float; 2%float]
            [[1%float]; [1%float]; [1%float]] 3 stalling stalling_start
            [((2%float, 2%float), Some [1%float])] 1%float 2%float (Some [1%float])
            [((0%float, 1%float), Some [1%float]); ((0%float, 0%float), None)]
            0%Z 0%Z
            {| Scripted.script := [(-1)%Z; (-1)%Z; (-1)%Z]; Scripted.reached := 2%float |}
            {| Scripted.script := [(-1)%Z; (-1)%Z; (-1)%Z]; Scripted.reached := 2%float |}
            _ _ _ _ _ _ _ _)
            {| Scripted.script := []; Scripted.reached := 2%float |} _).
  - vm_compute. reflexivity.
  - vm_compute. reflexivity.
  - vm_compute. reflexivity.
  - vm_compute. reflexivity.
  - vm_compute. reflexivity.
  - vm_compute. reflexivity.
  - vm_compute. reflexivity.
  - vm_compute. discriminate.
  - vm_compute. eexists. split; [reflexivity |]. eexists. split; [reflexivity |].
    eexists. split; reflexivity.
Defined.

(** ** The assertion on the reached time *)



Section ReachedTime.
Context {lib : Sundials}.
Import AdjointSolver.

Lemma check_inv {W : Type} (c : Z) (w w' : W) (r : result unit) :
  check c w = (r, w') ->
  w' = w /\ ((r = Ok tt /\ check_ok c = true) \/ r = Raise (CheckError c)).
Proof.
  unfold check. destruct (check_ok c); intros [= <- <-]; auto.
Qed.

Lemma retry_loop_inv (n : nat) (t_lower t_upper : float) (w w' : state) (r : result unit) :
  retry_loop n t_lower t_upper w = (r, w') ->
  (r = Ok tt /\ exists e, CVodeB e t_lower CV_NORMAL = (0%Z, _ode w'))
  \/ (exists m, r = Raise (SolverError m))
  \/ (exists k, r = Raise (KeyError k)).
Proof.
  revert w. induction n as [| n IH]; intros w; simpl.
  - intros [= <- <-]. right. left. eauto.
  - unfold bind, call_CVodeB.
    destruct (CVodeB (_ode w) t_lower CV_NORMAL) as [c e] eqn:Hcall.
    destruct (c =? 0)%Z eqn:E0.
    + apply Z.eqb_eq in E0. subst c. intros [= <- <-]. left. split; [reflexivity |].
      exists (_ode w). exact Hcall.
    + destruct (c =? CV_TOO_MUCH_WORK)%Z; simpl.
      * apply IH.
      * unfold errors_lookup. destruct (ERRORS !! c); simpl; intros [= <- <-]; eauto.
Qed.




End ReachedTime.




(** ** The Theano operators *)

Lemma fill_all_nan (v : vec) : all_nan (fill nan v).
Proof. unfold all_nan, fill. apply Forall_forall. intros x Hx.
  apply list_elem_of_In, in_map_iff in Hx as (? & <- & _). reflexivity. Qed.

Lemma fill2_all_nan (m : mat) : Forall all_nan (fill2 nan m).
Proof. unfold fill2. apply Forall_forall. intros r Hr.
  apply list_elem_of_In, in_map_iff in Hr as (? & <- & _). apply fill_all_nan. Qed.

Section Operators.
Context {lib : Sundials}.
Import AdjointSolver.

Lemma try_raise_SolverError {A} (body handler : M state A) (w w' : state) (m : solver_msg) :
  body w = (Raise (SolverError m), w') ->
  try_except_SolverError body handler w = handler w'.
Proof. intros H. unfold try_except_SolverError. rewrite H. reflexivity. Qed.

Lemma try_ok {A} (body handler : M state A) (w w' : state) (a : A) :
  body w = (Ok a, w') -> try_except_SolverError body handler w = (Ok a, w').
Proof. intros H. unfold try_except_SolverError. rewrite H. reflexivity. Qed.

Lemma solve_both_forward_fails (fuel : nat) (_t0 : float) (_tvals : list float) (y0 : vec)
    (grads : mat) (w w' : state) (e : exn) :
  solve_forward fuel _t0 _tvals y0 w = (Raise e, w') ->
  SolveODEAdjointBackward.solve_both fuel _t0 _tvals y0 grads w = (Raise e, w').
Proof. intros H. unfold SolveODEAdjointBackward.solve_both. apply bind_raise. exact H. Qed.

Lemma solve_both_backward (fuel : nat) (_t0 : float) (_tvals : list float) (y0 : vec)
    (grads : mat) (w w2 : state) (t_last : float) :
  solve_forward fuel _t0 _tvals y0 w = (Ok tt, w2) ->
  last _tvals = Some t_last ->
  SolveODEAdjointBackward.solve_both fuel _t0 _tvals y0 grads w
  = solve_backward t_last _t0 _tvals grads 50 (without_all_out w2).
Proof.
  intros H Hlast. unfold SolveODEAdjointBackward.solve_both.
  rewrite (bind_ok _ _ _ _ _ H). rewrite Hlast.
  rewrite (bind_ok _ _ w2 w2 t_last) by reflexivity.
  rewrite (bind_ok _ _ w2 (without_all_out w2) tt) by reflexivity.
  reflexivity.
Qed.

Lemma backward_perform_poisoned (fuel : nat) (_t0 : float) (_tvals : list float)
    (y0 params params_fixed : vec) (grads : mat) (w w1 w2 : state) (m : solver_msg) :
  params_set params params_fixed w w1 ->
  SolveODEAdjointBackward.solve_both fuel _t0 _tvals y0 grads w1
  = (Raise (SolverError m), w2) ->
  SolveODEAdjointBackward.perform fuel _t0 _tvals (y0, params, params_fixed, grads) w
  = (Ok (fill nan (lamda_out w2), fill nan (grad_out w2)),
     set_grad_out (set_lamda_out w2 (fill nan (lamda_out w2))) (fill nan (grad_out w2))).
Proof.
  intros (wa & Ha & H1) H. unfold SolveODEAdjointBackward.perform.
  rewrite (bind_ok _ _ _ _ _ Ha), (bind_ok _ _ _ _ _ H1).
  erewrite bind_ok; [| erewrite try_raise_SolverError by exact H; reflexivity].
  reflexivity.
Qed.

(** C2: a [SolverError] raised by the forward pass of [SolveODEAdjoint], or
    by the forward or the backward pass of [SolveODEAdjointBackward], is
    caught: [perform] returns normally, and what it returns (the trajectory;
    the adjoint state and the parameter gradient) has the shape of the
    operator's buffers and holds NaN everywhere. *)
Theorem C2_failures_become_nan (fuel : nat) (_t0 : float) (_tvals : list float)
    (y0 params params_fixed : vec) (grads : mat) (w w1 w2 : state) (m : solver_msg) :
  params_set params params_fixed w w1 ->
  (solve_forward fuel _t0 _tvals y0 w1 = (Raise (SolverError m), w2) ->
   exists w3,
     SolveODEAdjoint.perform fuel _t0 _tvals (y0, params, params_fixed) w
     = (Ok (fill2 nan (y_out w2)), w3)
     /\ Forall all_nan (fill2 nan (y_out w2)))
  /\ (solve_forward fuel _t0 _tvals y0 w1 = (Raise (SolverError m), w2)
      \/ (exists wf t_last,
            solve_forward fuel _t0 _tvals y0 w1 = (Ok tt, wf)
            /\ last _tvals = Some t_last
            /\ solve_backward t_last _t0 _tvals grads 50 (without_all_out wf)
               = (Raise (SolverError m), w2)) ->
      exists w3,
        SolveODEAdjointBackward.perform fuel _t0 _tvals (y0, params, params_fixed, grads) w
        = (Ok (fill nan (lamda_out w2), fill nan (grad_out w2)), w3)
        /\ all_nan (fill nan (lamda_out w2)) /\ all_nan (fill nan (grad_out w2))).
Proof.
  intros Hset. split.
  - intros H. destruct Hset as (wa & Ha & H1). eexists. split; [| apply fill2_all_nan].
    unfold SolveODEAdjoint.perform.
    rewrite (bind_ok _ _ _ _ _ Ha), (bind_ok _ _ _ _ _ H1).
    erewrite bind_ok; [| erewrite try_raise_SolverError by exact H; reflexivity].
    reflexivity.
  - intros H. eexists. split; [| split; apply fill_all_nan].
    apply backward_perform_poisoned with (w1 := w1) (m := m); [exact Hset |].
    destruct H as [H | (wf & t_last & Hf & Hlast & Hb)].
    + apply solve_both_forward_fails. exact H.
    + rewrite (solve_both_backward _ _ _ _ _ _ _ _ Hf Hlast). exact Hb.
Qed.
End Operators.

(** ** The sign of the gradient with respect to the initial state *)

#[local] Instance keeps_preorder {W B : Type} (obs : W -> B) : PreOrder (keeps obs).
Proof. split; unfold keeps; [intros w | intros w1 w2 w3 H1 H2]; congruence. Qed.

Lemma stable_step_while {W : Type} `{lib : Sundials} (R : W -> W -> Prop) `{!PreOrder R}
    (step : float -> M W Z) :
  (forall t, stable R (step t)) ->
  forall fuel retval t, stable R (step_while step fuel retval t).
Proof.
  intros Hstep fuel. induction fuel as [| fuel IH]; intros retval t; simpl.
  - destruct (retval =? CV_TOO_MUCH_WORK)%Z; intros w; reflexivity.
  - destruct (retval =? CV_TOO_MUCH_WORK)%Z; [| intros w; reflexivity].
    stable_step; [apply Hstep |]. repeat stable_step. apply IH.
Qed.

Section GradientSign.
Context {lib : Sundials}.
Import AdjointSolver.

Lemma solve_forward_keeps (fuel : nat) (t0 : float) (tvals : list float) (y0 : vec) :
  stable (keeps backward_side) (solve_forward fuel t0 tvals y0).
Proof.
  assert (Hwrite : forall i v, stable (keeps backward_side) (write_y_out i v)).
  { intros i v. unfold write_y_out. repeat stable_step.
    apply stable_modify. intros w. reflexivity. }
  unfold solve_forward.
  stable_step; [stable_step |].
  stable_step; [stable_step |].
  stable_step; [apply stable_modify; intros w; reflexivity |].
  stable_step; [apply stable_modify; intros w; reflexivity |].
  stable_step; [apply stable_modify; intros w; reflexivity |].
  stable_step.
  { intros w. unfold call_CVodeReInit. destruct (CVodeReInit _ _ _). reflexivity. }
  stable_step; [repeat stable_step |].
  stable_step.
  { intros w. unfold call_CVodeAdjReInit. destruct (CVodeAdjReInit _). reflexivity. }
  stable_step; [repeat stable_step |].
  apply stable_for_each; [typeclasses eauto |]. intros i t.
  unfold solve_forward_body. destruct (PrimFloat.eqb t t0); [apply Hwrite |].
  stable_step.
  { apply stable_step_while; [typeclasses eauto |]. intros t' w.
    unfold call_CVodeF. destruct (CVodeF _ _ _ _ _ _) as [[[[? ?] ?] ?] ?]. reflexivity. }
  stable_step; [stable_step | apply Hwrite].
Qed.

Lemma params_set_keeps (params params_fixed : vec) (w w1 : state) :
  params_set params params_fixed w w1 -> backward_side w1 = backward_side w.
Proof.
  intros (wa & Ha & H1). unfold set_derivative_params, set_remaining_params in *.
  destruct (update_subset_params _ _); try discriminate. injection Ha as <-.
  destruct (update_remaining_params _ _); try discriminate. injection H1 as <-.
  reflexivity.
Qed.

Lemma zeroed_lamda_out (w : state) (t0 : float) :
  lamda_out (set_time_p (zeroed w) t0) = lamda_out w.
Proof. reflexivity. Qed.

Lemma zeroed_state_bufferB (w : state) (t0 : float) :
  _state_bufferB (set_time_p (zeroed w) t0) = fill 0%float (_state_bufferB w).
Proof. reflexivity. Qed.

(** A completed [solve_backward] hands the running adjoint state out
    unchanged, as [lamda_out]. *)
Lemma solve_backward_lamda_out (t0 tend : float) (tvals : list float) (grads : mat)
    (max_retries : Z) (w w' : state) :
  length (lamda_out w) = length (_state_bufferB w) ->
  solve_backward t0 tend tvals grads max_retries w = (Ok tt, w') ->
  lamda_out w' = _state_bufferB w'.
Proof.
  intros Hlen. rewrite solve_backward_unfold. set (w0 := set_time_p (zeroed w) t0).
  intros H. apply bind_inv in H as [([] & u & Hloop & H) | [(? & _ & ?) | (_ & ?)]];
    try discriminate.
  pose proof (frame_backward_loop max_retries (backward_items t0 tend tvals grads) w0)
    as F.
  rewrite Hloop in F. change (backward_frame w0 u) in F.
  destruct F as [_ Hl _ _ Hs _ _ _].
  unfold w0 in Hl, Hs. rewrite zeroed_lamda_out in Hl. rewrite zeroed_state_bufferB in Hs.
  unfold fill in Hs. rewrite length_map in Hs.
  unfold write_results, bind, gets, lift, modify in H.
  destruct (assign (grad_out u) _) as [gr | |]; try discriminate.
  simpl in H. rewrite assign_same_length in H by congruence.
  injection H as <-. reflexivity.
Qed.

(** C5: when both passes of the backward operator complete, the first
    gradient returned by [SolveODEAdjoint.grad], the one with respect to
    [y0], is the negation, component by component, of the adjoint state the
    backward pass ended with; [solve_backward] itself wrote that adjoint state
    un-negated into [lamda_out].  [w] is the world [grad] is evaluated in, the
    backward operator it builds starts with fresh buffers. *)
Theorem C5_initial_state_gradient_is_negated_adjoint (fuel : nat) (_t0 : float)
    (_tvals : list float) (y0 params params_fixed : vec) (g : mat) (w w1 w3 : state) :
  length (_state_bufferB w) = n_states w ->
  params_set params params_fixed (SolveODEAdjoint.fresh_buffers _tvals w) w1 ->
  SolveODEAdjointBackward.solve_both fuel _t0 _tvals y0 g w1 = (Ok tt, w3) ->
  SolveODEAdjoint.grad fuel _t0 _tvals (y0, params, params_fixed) g w
  = (Ok (map PrimFloat.opp (_state_bufferB w3), grad_out w3, None), w3)
  /\ lamda_out w3 = _state_bufferB w3.
Proof.
  intros Hlen Hset Hboth.
  assert (Hl : lamda_out w3 = _state_bufferB w3).
  { pose proof (params_set_keeps _ _ _ _ Hset) as Hk. unfold backward_side in Hk.
    injection Hk as Hn Hb Hg Hlo.
    assert (Hlen1 : length (lamda_out w1) = length (_state_bufferB w1)).
    { rewrite Hlo, Hb. unfold SolveODEAdjoint.fresh_buffers, make_output_buffers.
      simpl. rewrite length_replicate. symmetry. exact Hlen. }
    unfold SolveODEAdjointBackward.solve_both in Hboth.
    apply bind_inv in Hboth as [([] & w2 & Hf & H) | [(? & _ & ?) | (_ & ?)]];
      try discriminate.
    pose proof (solve_forward_keeps fuel _t0 _tvals y0 w1) as Hk2.
    rewrite Hf in Hk2. unfold keeps, backward_side in Hk2. simpl in Hk2.
    injection Hk2 as _ Hb2 _ Hlo2.
    destruct (last _tvals) as [t_last |].
    - apply bind_inv in H as [(t & w2' & Ht & H) | [(? & _ & ?) | (_ & ?)]];
        try discriminate.
      injection Ht as -> ->.
      apply bind_inv in H as [([] & w2'' & Hm & H) | [(? & _ & ?) | (_ & ?)]];
        try discriminate.
      injection Hm as <-.
      eapply solve_backward_lamda_out; [| exact H]. simpl. congruence.
    - apply bind_inv in H as [(t & w2' & Ht & H) | [(? & Ht & ?) | (Ht & ?)]];
        discriminate. }
  split; [| exact Hl].
  destruct Hset as (wa & Ha & H1).
  unfold SolveODEAdjoint.grad.
  rewrite (bind_ok _ _ w (SolveODEAdjoint.fresh_buffers _tvals w) tt) by reflexivity.
  erewrite bind_ok.
  2:{ unfold SolveODEAdjointBackward.perform.
      rewrite (bind_ok _ _ _ _ _ Ha), (bind_ok _ _ _ _ _ H1).
      erewrite bind_ok; [| apply try_ok; exact Hboth]. reflexivity. }
  simpl. rewrite Hl. reflexivity.
Qed.
End GradientSign.

(** C2 on the scripted engine: a forward pass that fails on the step to
    [t = 1], and a backward pass that fails on the sub-interval [(0, 1)] after
    a forward pass that went through. *)
Lemma C2_failures_become_nan_witness :
  (exists w3,
     SolveODEAdjoint.perform (lib := Scripted.lib) 3 0%float [0%float; 1%float]
       ([5%float], [], []) forward_failing
     = (Ok [[nan]; [nan]], w3))
  /\ (exists w3,
        SolveODEAdjointBackward.perform (lib := Scripted.lib) 3 0%float [0%float; 1%float]
          ([5%float], [], [], [[1%float]; [1%float]]) backward_failing
        = (Ok ([nan], [nan]), w3)).
Proof.
  split.
  - destruct (proj1 (C2_failures_become_nan (lib := Scripted.lib) 3 0%float
                      [0%float; 1%float] [5%float] [] [] [] forward_failing
                      forward_failing forward_failed
                      (BadReturnCode "CV_CONV_FAILURE" (-4)%Z)
                      ltac:(eexists; split; reflexivity))
                    ltac:(vm_compute; reflexivity)) as (w3 & H & _).
    exists w3. exact H.
  - destruct (proj2 (C2_failures_become_nan (lib := Scripted.lib) 3 0%float
                      [0%float; 1%float] [5%float] [] [] [[1%float]; [1%float]]
                      backward_failing backward_failing backward_failed
                      (FailedBetween 1%float 0%float "CV_CONV_FAILURE" (-4)%Z)
                      ltac:(eexists; split; reflexivity))) as (w3 & H & _).
    + right. exists backward_failing_mid, 1%float.
      split; [vm_compute; reflexivity |]. split; [reflexivity |].
      vm_compute. reflexivity.
    + exists w3. exact H.
Defined.

(** C5 on the scripted engine: the adjoint state ends at [-3] and the
    gradient with respect to [y0] is [3]. *)
Lemma C5_initial_state_gradient_is_negated_adjoint_witness :
  SolveODEAdjoint.grad (lib := Scripted.lib) 5 0%float [0%float; 1%float; 2%float]
    ([1%float], [], []) [[1%float]; [1%float]; [1%float]] adjoint_run
  = (Ok ([3%float], [0%float], None), adjoint_run_done)
  /\ AdjointSolver.lamda_out adjoint_run_done = [(-3)%float].
Proof.
  apply (C5_initial_state_gradient_is_negated_adjoint (lib := Scripted.lib) 5 0%float
           [0%float; 1%float; 2%float] [1%float] [] []
           [[1%float]; [1%float]; [1%float]] adjoint_run
           (SolveODEAdjoint.fresh_buffers [0%float; 1%float; 2%float] adjoint_run)
           adjoint_run_done).
  - reflexivity.
  - eexists. split; reflexivity.
  - vm_compute. reflexivity.
Defined.

(** ** The forward-sensitivity solve *)

Lemma same_shape_length (a b : mat) : map length a = map length b -> length a = length b.
Proof. intros H. apply (f_equal length) in H. rewrite !length_map in H. exact H. Qed.

Lemma same_shape_lookup (a b : mat) (j : nat) (x : vec) :
  map length a = map length b -> a !! j = Some x ->
  exists y, b !! j = Some y /\ length y = length x.
Proof.
  revert b j. induction a as [| r a IH]; intros [| s b] j H Hx; try discriminate.
  injection H as Hr Hrest. destruct j as [| j]; simpl in *.
  - injection Hx as <-. eauto.
  - eapply IH; eauto.
Qed.

(** Overwriting slot [k] of a list whose first [k] slots already hold
    [new]: one more slot holds [new]. *)
Lemma replace_step {A : Type} (new old : list A) (k : nat) (x : A) :
  new !! k = Some x -> length old = length new ->
  <[k := x]> (take k new ++ drop k old) = take (S k) new ++ drop (S k) old.
Proof.
  intros Hx Hlen. assert (k < length new)%nat as Hk by (eapply lookup_lt_Some; eauto).
  destruct (lookup_lt_is_Some_2 old k ltac:(lia)) as [y Hy].
  rewrite insert_app_r_alt by (rewrite length_take; lia).
  rewrite length_take_le by lia. rewrite Nat.sub_diag.
  rewrite (drop_S _ _ _ Hy). simpl.
  rewrite (take_S_r _ _ _ Hx), <- app_assoc. reflexivity.
Qed.

Lemma replace_all {A : Type} (new old : list A) :
  length old = length new -> take (length new) new ++ drop (length new) old = new.
Proof.
  intros H. rewrite take_ge by lia. rewrite drop_ge by lia. apply app_nil_r.
Qed.

Lemma set_row_exact (out : mat) (i : nat) (v row : vec) :
  out !! i = Some row -> length v = length row ->
  set_row out i v = Ok (<[i := v]> out).
Proof.
  intros Hrow Hlen. unfold set_row. rewrite Hrow.
  rewrite (assign_same_length _ _ Hlen). reflexivity.
Qed.

Lemma assign_rows_exact (rows src : mat) :
  map length src = map length rows -> assign_rows rows src = Ok src.
Proof.
  revert src. induction rows as [| r rows IH]; intros [| s src] H; try discriminate.
  - reflexivity.
  - injection H as Hs Hrest. simpl.
    rewrite (assign_same_length _ _ Hs), (IH _ Hrest). reflexivity.
Qed.

Lemma assign2_exact (blk m : mat) : map length m = map length blk -> assign2 blk m = Ok m.
Proof.
  intros H. unfold assign2. rewrite <- (same_shape_length _ _ H), broadcast_same.
  apply assign_rows_exact. exact H.
Qed.

Section SensitivitySolve.
Context {lib : Sundials}.
Import Solver.

(** [for i in range(n_params): sens_data[i][:] = sens0[i, :]], from row [k]
    on, when the rows before [k] are loaded already. *)
Lemma load_rows (s0 orig : mat) (m : nat) :
  forall (k j : nat) (w : state),
    map length s0 = map length orig -> (k + m)%nat = length s0 ->
    _sens_buffers w = take k s0 ++ drop k orig ->
    for_each (fun _ i => load_sens_row (Some s0) i) j (seq k m) w
    = (Ok tt, set_sens_buffers w s0).
Proof.
  induction m as [| m IH]; intros k j w Hshape Hkm Hbufs.
  - simpl. unfold ret. f_equal. rewrite Nat.add_0_r in Hkm. subst k.
    rewrite replace_all in Hbufs by (symmetry; apply same_shape_length; exact Hshape).
    destruct w. simpl in *. subst. reflexivity.
  - assert (Hlen : length orig = length s0)
      by (symmetry; apply same_shape_length; exact Hshape).
    destruct (lookup_lt_is_Some_2 s0 k ltac:(lia)) as [row Hrow].
    destruct (same_shape_lookup _ _ _ _ Hshape Hrow) as (buf & Hbuf & Hbl).
    assert (Hstep : load_sens_row (Some s0) k w
                    = (Ok tt, set_sens_buffers w (take (S k) s0 ++ drop (S k) orig))).
    { unfold load_sens_row, bind, gets. rewrite Hbufs.
      rewrite lookup_app_r by (rewrite length_take; lia).
      rewrite length_take_le by lia. rewrite Nat.sub_diag, lookup_drop, Nat.add_0_r.
      rewrite Hbuf, Hrow. unfold lift.
      rewrite assign_same_length by (symmetry; exact Hbl).
      unfold modify. rewrite Hbufs, (replace_step _ _ _ _ Hrow Hlen). reflexivity. }
    change (seq k (S m)) with (k :: seq (S k) m). cbn [for_each]. cbv beta.
    rewrite (bind_ok _ _ _ _ _ Hstep). cbv beta.
    rewrite (IH (S k) (S j) (set_sens_buffers w (take (S k) s0 ++ drop (S k) orig))
               Hshape ltac:(lia) eq_refl).
    reflexivity.
Qed.

(** [for j in range(n_params): sens_out[i, j, :] = sens_data[j]], likewise. *)
Lemma write_rows (i : nat) (bufs blk : mat) (so : tensor3) (m : nat) :
  forall (k j : nat) (w : state),
    map length bufs = map length blk -> (k + m)%nat = length bufs ->
    (i < length so)%nat -> _sens_buffers w = bufs ->
    sens_out w = Some (<[i := take k bufs ++ drop k blk]> so) ->
    for_each (fun _ j => write_sens_row i j) j (seq k m) w
    = (Ok tt, set_sens_out w (Some (<[i := bufs]> so))).
Proof.
  induction m as [| m IH]; intros k j w Hshape Hkm Hi Hbufs Hso.
  - simpl. unfold ret. f_equal. rewrite Nat.add_0_r in Hkm. subst k.
    rewrite replace_all in Hso by (symmetry; apply same_shape_length; exact Hshape).
    destruct w. simpl in *. subst. reflexivity.
  - assert (Hlen : length blk = length bufs)
      by (symmetry; apply same_shape_length; exact Hshape).
    destruct (lookup_lt_is_Some_2 bufs k ltac:(lia)) as [buf Hbuf].
    destruct (same_shape_lookup _ _ _ _ Hshape Hbuf) as (row & Hrow & Hrl).
    assert (Hstep : write_sens_row i k w
                    = (Ok tt, set_sens_out w
                                (Some (<[i := take (S k) bufs ++ drop (S k) blk]> so)))).
    { unfold write_sens_row, bind, gets. rewrite Hso, Hbufs, Hbuf.
      rewrite list_lookup_insert_eq by exact Hi. unfold lift.
      erewrite set_row_exact.
      2:{ rewrite lookup_app_r by (rewrite length_take; lia).
          rewrite length_take_le by lia.
          rewrite Nat.sub_diag, lookup_drop, Nat.add_0_r. exact Hrow. }
      2:{ symmetry. exact Hrl. }
      unfold modify. rewrite (replace_step _ _ _ _ Hbuf Hlen), list_insert_insert_eq.
      reflexivity. }
    change (seq k (S m)) with (k :: seq (S k) m). cbn [for_each]. cbv beta.
    rewrite (bind_ok _ _ _ _ _ Hstep). cbv beta.
    rewrite (IH (S k) (S j)
               (set_sens_out w (Some (<[i := take (S k) bufs ++ drop (S k) blk]> so)))
               Hshape ltac:(lia) Hi Hbufs eq_refl).
    reflexivity.
Qed.

#[local] Instance trace_extends_preorder : PreOrder trace_extends.
Proof.
  split.
  - intros w. exists []. symmetry. apply app_nil_r.
  - intros w1 w2 w3 [tr1 H1] [tr2 H2]. exists (tr1 ++ tr2).
    rewrite H2, H1, app_assoc. reflexivity.
Qed.

Ltac same_trace := intros ?; exists []; symmetry; apply app_nil_r.

Lemma solve_body_extends (fuel : nat) (t0 : float) (y0 : vec) (sens0 : option mat)
    (i : nat) (t : float) :
  stable trace_extends (solve_body fuel t0 y0 sens0 i t).
Proof.
  assert (Hwrite : forall i v, stable trace_extends (write_y_out i v)).
  { intros k v. unfold write_y_out. repeat stable_step. apply stable_modify. same_trace. }
  unfold solve_body. destruct (PrimFloat.eqb t t0).
  - stable_step; [apply Hwrite |]. stable_step; [stable_step |].
    unfold write_sens_block. repeat stable_step. all: apply stable_modify; same_trace.
  - stable_step.
    { apply stable_step_while; [typeclasses eauto |]. intros t' w.
      unfold call_CVode. destruct (CVode _ _ _ _ _) as [[[? ?] ?] ?].
      eexists. reflexivity. }
    stable_step; [stable_step |]. stable_step; [apply Hwrite |].
    stable_step; [stable_step |]. stable_step; [| stable_step].
    stable_step.
    { intros w. unfold call_CVodeGetSens. destruct (CVodeGetSens _ _ _) as [[? ?] ?].
      eexists. reflexivity. }
    stable_step; [repeat stable_step |]. stable_step; [stable_step |].
    apply stable_for_each; [typeclasses eauto |]. intros _ j.
    unfold write_sens_row. repeat stable_step. all: apply stable_modify; same_trace.
Qed.

#[local] Instance step_frame_preorder : PreOrder step_frame.
Proof.
  split.
  - intros w. split; reflexivity.
  - intros w1 w2 w3 [] []. split; congruence.
Qed.

Lemma step_loop_frame (fuel : nat) (t : float) :
  stable step_frame (step_loop call_CVode fuel t).
Proof.
  apply stable_step_while; [typeclasses eauto |]. intros t' w. unfold call_CVode.
  pose proof (CVode_length (_ode w) t' (_state_buffer w) (time_p w) CV_NORMAL) as L.
  destruct (CVode _ _ _ _ _) as [[[r e] y] tp]. simpl in L.
  split; simpl; try reflexivity. exact L.
Qed.

Lemma write_y_out_exact (i : nat) (v row : vec) (w : state) :
  y_out w !! i = Some row -> length v = length row ->
  write_y_out i v w = (Ok tt, set_y_out w (<[i := v]> (y_out w))).
Proof.
  intros Hrow Hlen. unfold write_y_out, bind, gets, lift.
  rewrite (set_row_exact _ _ _ _ Hrow Hlen). reflexivity.
Qed.

(** An iteration that steps: row [i] of [y_out] is the state the engine
    left, block [i] of [sens_out] the sensitivities read back after it. *)
Lemma solve_body_stepped (fuel : nat) (t0 : float) (y0 : vec) (sens0 : option mat)
    (i : nat) (t : float) (u u' : state) (so : tensor3) (row : vec) (blk : mat) :
  _compute_sens u = true -> sens_out u = Some so ->
  n_params u = length (_sens_buffers u) ->
  y_out u !! i = Some row -> length row = length (_state_buffer u) ->
  so !! i = Some blk -> map length blk = map length (_sens_buffers u) ->
  PrimFloat.eqb t t0 = false ->
  solve_body fuel t0 y0 sens0 i t u = (Ok tt, u') ->
  y_out u' = <[i := _state_buffer u']> (y_out u)
  /\ sens_out u' = Some (<[i := _sens_buffers u']> so).
Proof.
  intros Hcs Hso Hn Hrow Hrl Hblk Hshape Hne H.
  unfold solve_body in H. rewrite Hne in H.
  apply bind_inv in H as [([] & u1 & E1 & H) | [(? & _ & ?) | (_ & ?)]]; try discriminate.
  pose proof (step_loop_frame fuel t u) as F. rewrite E1 in F.
  change (step_frame u u1) in F. destruct F as [Fy Fso Fb Fn Fcs Fl].
  rewrite (bind_ok _ _ u1 u1 (_state_buffer u1)) in H by reflexivity.
  rewrite (bind_ok _ _ _ _ _
             (write_y_out_exact i (_state_buffer u1) row u1
                ltac:(rewrite Fy; exact Hrow) ltac:(congruence))) in H.
  set (u2 := set_y_out u1 (<[i := _state_buffer u1]> (y_out u1))) in H.
  rewrite (bind_ok _ _ u2 u2 (_compute_sens u1)) in H by reflexivity.
  rewrite Fcs, Hcs in H.
  unfold bind at 1 in H. unfold call_CVodeGetSens in H.
  pose proof (CVodeGetSens_shape (_ode u2) (time_p u2) (_sens_buffers u2)) as L.
  destruct (CVodeGetSens _ _ _) as [[r tp] yS]. simpl in L.
  change (_sens_buffers u2) with (_sens_buffers u1) in L. rewrite Fb in L.
  set (u3 := log (set_time_p (set_sens_buffers u2 yS) tp) EvGetSens) in H.
  apply bind_inv in H as [([] & u3' & E3 & H) | [(? & _ & ?) | (_ & ?)]]; try discriminate.
  apply check_inv in E3 as [-> _].
  rewrite (bind_ok _ _ u3 u3 (n_params u1)) in H by reflexivity.
  rewrite Fn, Hn, <- (same_shape_length _ _ L) in H.
  rewrite (write_rows i yS blk so (length yS) 0 0 u3) in H.
  - injection H as <-. simpl. rewrite Fy. split; reflexivity.
  - rewrite L. symmetry. exact Hshape.
  - reflexivity.
  - eapply lookup_lt_Some. exact Hblk.
  - reflexivity.
  - change (sens_out u3) with (sens_out u1). rewrite Fso, Hso.
    change (take 0 yS ++ drop 0 blk) with blk.
    rewrite (list_insert_id _ _ _ Hblk). reflexivity.
Qed.

(** An iteration at [t == t0]: no engine call; [y0] and [sens0] go to row
    and block [0]. *)
Lemma solve_body_initial (fuel : nat) (t0 : float) (y0 : vec) (s0 : mat)
    (i : nat) (t : float) (u : state) (so : tensor3) (row : vec) (blk : mat) :
  _compute_sens u = true -> sens_out u = Some so ->
  y_out u !! 0%nat = Some row -> length y0 = length row ->
  so !! 0%nat = Some blk -> map length s0 = map length blk ->
  PrimFloat.eqb t t0 = true ->
  solve_body fuel t0 y0 (Some s0) i t u
  = (Ok tt, set_sens_out (set_y_out u (<[0%nat := y0]> (y_out u)))
              (Some (<[0%nat := s0]> so))).
Proof.
  intros Hcs Hso Hrow Hrl Hblk Hshape Heq. unfold solve_body. rewrite Heq.
  rewrite (bind_ok _ _ _ _ _ (write_y_out_exact 0 y0 row u Hrow Hrl)).
  set (u1 := set_y_out u (<[0%nat := y0]> (y_out u))).
  rewrite (bind_ok _ _ u1 u1 (_compute_sens u)) by reflexivity. rewrite Hcs.
  unfold write_sens_block.
  rewrite (bind_ok _ _ u1 u1 (sens_out u)) by reflexivity. rewrite Hso, Hblk.
  unfold bind, lift. rewrite (assign2_exact _ _ Hshape). reflexivity.
Qed.

End SensitivitySolve.




(** ** Output times equal to [t0] *)

(** At an output time equal to [t0] both forward loops make no engine call
    and write [y0] to row [0], whatever the index of that output time. *)
Lemma equal_time_writes_row_zero `{lib : Sundials} (fuel : nat) (t0 : float) (y0 : vec)
    (i : nat) (t : float) :
  PrimFloat.eqb t t0 = true ->
  (forall w, Solver._compute_sens w = false ->
     Solver.solve_body fuel t0 y0 None i t w = Solver.write_y_out 0 y0 w)
  /\ AdjointSolver.solve_forward_body fuel t0 y0 i t = AdjointSolver.write_y_out 0 y0.
Proof.
  intros Heq. split.
  - intros w Hcs. unfold Solver.solve_body. rewrite Heq.
    unfold bind, gets. destruct (Solver.write_y_out 0 y0 w) as [[[] | e |] w1] eqn:E;
      try reflexivity.
    assert (Solver._compute_sens w1 = false) as ->; [| reflexivity].
    unfold Solver.write_y_out, bind, gets, lift, modify in E.
    destruct (set_row _ _ _); simplify_eq. exact Hcs.
  - unfold AdjointSolver.solve_forward_body. rewrite Heq. reflexivity.
Qed.

(** Off the time grid: with [t0 = 0], [tvals = [-1, 0]], [y0 = [3, 4]] and an
    output array of zeros the solve completes, and [y0] is in row [0], the
    row both loops write at an output time equal to [t0], over the state
    [[4, 5]] reached at [t = -1]; row [1] has not been written. *)
Remark equal_time_off_grid :
  (let out := Solver.solve (lib := Scripted.lib) 5 0%float [(-1)%float; 0%float]
                [3%float; 4%float] None (Scripted.solver false 2 1 2 []) in
   out.1 = Ok tt
   /\ Solver.y_out out.2 = [[3%float; 4%float]; [0%float; 0%float]]
   /\ Solver._state_buffer out.2 = [4%float; 5%float])
  /\ (let out := AdjointSolver.solve_forward (lib := Scripted.lib) 5 0%float
                   [(-1)%float; 0%float] [3%float; 4%float]
                   (Scripted.adjoint_solver 2 1 2 []) in
      out.1 = Ok tt
      /\ AdjointSolver.y_out out.2 = [[3%float; 4%float]; [0%float; 0%float]]
      /\ AdjointSolver._state_buffer out.2 = [4%float; 5%float]).
Proof.
  split; vm_compute; (split; [reflexivity |]); (split; reflexivity).
Qed.


(** * Further properties of the backward pass *)

Lemma rev_lookup {A : Type} (l : list A) (i : nat) :
  (i < length l)%nat -> rev l !! i = l !! (length l - S i)%nat.
Proof. intros H. rewrite rev_alt. apply (reverse_lookup l i H). Qed.

Lemma rev_map_Some_lookup {A : Type} (l : list A) (j : nat) (x : A) :
  l !! j = Some x -> rev (None :: map Some l) !! (length l - S j)%nat = Some (Some x).
Proof.
  intros Hx. assert (j < length l)%nat as Hj by (eapply lookup_lt_Some; eauto).
  change (rev (None :: map Some l)) with (rev (map Some l) ++ [None]).
  rewrite lookup_app_l by (rewrite length_rev, length_map; lia).
  rewrite rev_lookup by (rewrite length_map; lia).
  rewrite length_map. replace (length l - S (length l - S j))%nat with j by lia.
  change (map Some l) with (Some <$> l). rewrite list_lookup_fmap, Hx. reflexivity.
Qed.

Section BackwardAlignment.
Context {lib : Sundials}.
Import AdjointSolver.

(** Entry [k] of [[t0] + tvals[::-1] + [tend]]. *)
Lemma ts_lookup_0 (t0 tend : float) (tvals : list float) :
  ([t0] ++ rev tvals ++ [tend]) !! 0%nat = Some t0.
Proof. reflexivity. Qed.

Lemma ts_lookup_S (t0 tend : float) (tvals : list float) (k : nat) :
  (k < length tvals)%nat ->
  ([t0] ++ rev tvals ++ [tend]) !! S k = tvals !! (length tvals - S k)%nat.
Proof.
  intros Hk. change (([t0] ++ rev tvals ++ [tend]) !! S k) with ((rev tvals ++ [tend]) !! k).
  rewrite lookup_app_l by (rewrite length_rev; lia). apply rev_lookup. exact Hk.
Qed.

Lemma ts_lookup_last (t0 tend : float) (tvals : list float) :
  ([t0] ++ rev tvals ++ [tend]) !! S (length tvals) = Some tend.
Proof.
  change (([t0] ++ rev tvals ++ [tend]) !! S (length tvals))
    with ((rev tvals ++ [tend]) !! length tvals).
  rewrite lookup_app_r by (rewrite length_rev; lia).
  rewrite length_rev, Nat.sub_diag. reflexivity.
Qed.

Lemma backward_items_lookup (t0 tend : float) (tvals : list float) (grads : mat) (k : nat)
    (t_lower t_upper : float) (g : option vec) :
  t_intervals t0 tend tvals !! k = Some (t_lower, t_upper) ->
  rev (None :: map Some grads) !! k = Some g ->
  backward_items t0 tend tvals grads !! k = Some ((t_lower, t_upper), g).
Proof.
  intros Hi Hg. unfold backward_items. apply lookup_zip_with_Some. eauto.
Qed.

(** X1: the loss gradients are aligned with the output times: with as many
    rows in [grads] as output times, the output time [tvals[j]] is the lower
    end of the sub-interval whose injection subtracts [grads[j]], and the
    upper end is the next output time ([t0], the start of the backward pass,
    for the last one); the one remaining sub-interval, down to [tend], comes
    last and has no injection. *)
Theorem backward_items_alignment (t0 tend : float) (tvals : list float) (grads : mat) :
  length grads = length tvals ->
  length (backward_items t0 tend tvals grads) = S (length tvals)
  /\ (forall j t gr,
        tvals !! j = Some t -> grads !! j = Some gr ->
        backward_items t0 tend tvals grads !! (length tvals - S j)%nat
        = Some ((t, default t0 (tvals !! S j)), Some gr))
  /\ backward_items t0 tend tvals grads !! length tvals
     = Some ((tend, default t0 (tvals !! 0%nat)), None).
Proof.
  intros Hlen. set (n := length tvals). split; [| split].
  - unfold backward_items, t_intervals. cbv zeta.
    rewrite !length_zip_with, length_removelast, length_rev.
    change (tail ([t0] ++ rev tvals ++ [tend])) with (rev tvals ++ [tend]).
    rewrite !length_app, !length_rev. simpl length. rewrite length_map. lia.
  - intros j t gr Ht Hgr.
    assert (j < n)%nat as Hj by (eapply lookup_lt_Some; eauto).
    apply backward_items_lookup.
    + apply t_intervals_lookup. split.
      * rewrite ts_lookup_S by (fold n; lia). fold n.
        replace (n - S (n - S j))%nat with j by lia. exact Ht.
      * destruct (n - S j)%nat as [| k'] eqn:Ek.
        -- rewrite ts_lookup_0. rewrite (lookup_ge_None_2 tvals (S j)) by (fold n; lia).
           reflexivity.
        -- rewrite ts_lookup_S by (fold n; lia). fold n.
           replace (n - S k')%nat with (S j) by lia.
           destruct (lookup_lt_is_Some_2 tvals (S j) ltac:(fold n; lia)) as [x Hx].
           rewrite Hx. reflexivity.
    + unfold n. rewrite <- Hlen. apply rev_map_Some_lookup. exact Hgr.
  - apply backward_items_lookup.
    + apply t_intervals_lookup. split; [apply ts_lookup_last |].
      destruct tvals as [| t1 tvals'] eqn:Et; [reflexivity |].
      rewrite <- Et. unfold n. rewrite Et. simpl length.
      rewrite ts_lookup_S by (simpl; lia). simpl length.
      replace (S (length tvals') - S (length tvals'))%nat with 0%nat by lia. reflexivity.
    + change (rev (None :: map Some grads)) with (rev (map Some grads) ++ [None]).
      rewrite lookup_app_r by (rewrite length_rev, length_map; lia).
      rewrite length_rev, length_map. unfold n. rewrite Hlen, Nat.sub_diag. reflexivity.
Qed.

(** X2: the retries of one sub-interval never exceed the budget: the loop makes
    at most [max_retries] calls of [CVodeB], all for [t_lower], and it is only
    after exactly [max_retries] of them that it raises the too-many-retries
    error.  It does raise it: at once, without any call and in the world it
    was entered in, for a budget of zero or less, and after [max_retries]
    calls when each of them is answered with the retryable status.  Where it
    completes instead, an engine call has been made and answered with
    success. *)
Theorem retry_loop_within_budget (max_retries : Z) (t_lower t_upper : float) (w : state) :
  (exists k,
     (Z.of_nat k <= Z.max 0 max_retries)%Z
     /\ trace (retry_loop (Z.to_nat max_retries) t_lower t_upper w).2
        = trace w ++ replicate k (EvCVodeB t_lower CV_NORMAL)
     /\ ((retry_loop (Z.to_nat max_retries) t_lower t_upper w).1
         = Raise (SolverError (TooManyRetries t_upper t_lower)) ->
         Z.of_nat k = Z.max 0 max_retries)
     /\ ((retry_loop (Z.to_nat max_retries) t_lower t_upper w).1 = Ok tt ->
         (0 < k)%nat))
  /\ ((max_retries <= 0)%Z ->
      retry_loop (Z.to_nat max_retries) t_lower t_upper w
      = (Raise (SolverError (TooManyRetries t_upper t_lower)), w))
  /\ (forall e', CV_TOO_MUCH_WORK <> 0%Z ->
        busy (Z.to_nat max_retries) t_lower (_ode w) e' ->
        (retry_loop (Z.to_nat max_retries) t_lower t_upper w).1
        = Raise (SolverError (TooManyRetries t_upper t_lower)))
  /\ ((retry_loop (Z.to_nat max_retries) t_lower t_upper w).1 = Ok tt ->
      exists e,
        CVodeB e t_lower CV_NORMAL
        = (0%Z, _ode (retry_loop (Z.to_nat max_retries) t_lower t_upper w).2)).
Proof.
  assert (H : forall n w, exists k,
             (k <= n)%nat
             /\ trace (retry_loop n t_lower t_upper w).2
                = trace w ++ replicate k (EvCVodeB t_lower CV_NORMAL)
             /\ ((retry_loop n t_lower t_upper w).1
                 = Raise (SolverError (TooManyRetries t_upper t_lower)) -> k = n)
             /\ ((retry_loop n t_lower t_upper w).1 = Ok tt -> (0 < k)%nat)).
  { clear w. induction n as [| n IH]; intros w.
    - exists 0%nat. simpl. rewrite app_nil_r.
      split; [lia |]. split; [reflexivity |]. split; [reflexivity | discriminate].
    - simpl. unfold bind, call_CVodeB.
      destruct (CVodeB (_ode w) t_lower CV_NORMAL) as [c e].
      set (w1 := log (set_ode w e) (EvCVodeB t_lower CV_NORMAL)).
      destruct (c =? 0)%Z.
      + exists 1%nat. simpl. split; [lia |]. split; [reflexivity |].
        split; [discriminate | lia].
      + destruct (c =? CV_TOO_MUCH_WORK)%Z; simpl.
        * destruct (IH w1) as (k & Hk & Htr & Hres & Hok). exists (S k).
          split; [lia |]. split; [| split].
          -- rewrite Htr. unfold w1. simpl. rewrite <- app_assoc. reflexivity.
          -- intros Hr. f_equal. apply Hres. exact Hr.
          -- intros _. lia.
        * exists 1%nat. split; [lia |]. unfold errors_lookup.
          destruct (ERRORS !! c); simpl;
            (split; [reflexivity |]; split; [discriminate | discriminate]). }
  split; [| split; [| split]].
  - destruct (H (Z.to_nat max_retries) w) as (k & Hk & Htr & Hres & Hok).
    exists k. split; [lia |]. split; [exact Htr |].
    split; [intros Hr; rewrite (Hres Hr); lia | exact Hok].
  - intros Hle. rewrite (Z2Nat.nonpos max_retries Hle). reflexivity.
  - intros e' Hne Hbusy. apply (retry_loop_exhausted _ _ _ _ e' Hne Hbusy).
  - intros Hok.
    pose proof (result_pair (retry_loop (Z.to_nat max_retries) t_lower t_upper) w) as E.
    apply retry_loop_inv in E as [[_ He] | [[m Hm] | [c Hc]]];
      [exact He | rewrite Hok in Hm; discriminate | rewrite Hok in Hc; discriminate].
Qed.
End BackwardAlignment.

(** X2 on the scripted engine: without a budget the error is raised at
    once; with a budget of three, on an engine that answers the retryable
    status three times, it is raised after the third call. *)
Lemma retry_loop_within_budget_witness :
  AdjointSolver.retry_loop (lib := Scripted.lib) (Z.to_nat 0) 1%float 2%float stalling
  = (Raise (SolverError (TooManyRetries 2%float 1%float)), stalling)
  /\ (AdjointSolver.retry_loop (lib := Scripted.lib) (Z.to_nat 3) 1%float 2%float
        stalling).1
     = Raise (SolverError (TooManyRetries 2%float 1%float))
  /\ AdjointSolver.trace
       (AdjointSolver.retry_loop (lib := Scripted.lib) (Z.to_nat 3) 1%float 2%float
          stalling).2
     = replicate 3 (EvCVodeB 1%float 1%Z).
Proof.
  destruct (retry_loop_within_budget (lib := Scripted.lib) 0 1%float 2%float stalling)
    as (_ & Hnone & _).
  destruct (retry_loop_within_budget (lib := Scripted.lib) 3 1%float 2%float stalling)
    as ((k & Hk & Htr & Hres & _) & _ & Hbusy & _).
  assert (Hraise : (AdjointSolver.retry_loop (lib := Scripted.lib) (Z.to_nat 3) 1%float
                      2%float stalling).1
                   = Raise (SolverError (TooManyRetries 2%float 1%float))).
  { eapply Hbusy; [discriminate |]. vm_compute.
    eexists. split; [reflexivity |]. eexists. split; [reflexivity |].
    eexists. split; [reflexivity |]. reflexivity. }
  split; [apply Hnone; lia |]. split; [exact Hraise |].
  specialize (Hres Hraise). assert (k = 3%nat) as -> by lia. exact Htr.
Defined.

(** X1 on the scripted engine: three output times and three loss gradients: four
    sub-intervals, the gradient of the first output time in the third, that
    of the last in the first, none in the fourth. *)
Lemma backward_items_alignment_witness :
  let items := AdjointSolver.backward_items 2%float 0%float [0%float; 1%float; 2%float]
                 [[10%float]; [11%float]; [12%float]] in
  length items = 4%nat
  /\ items !! 2%nat = Some ((0%float, 1%float), Some [10%float])
  /\ items !! 0%nat = Some ((2%float, 2%float), Some [12%float])
  /\ items !! 3%nat = Some ((0%float, 0%float), None).
Proof.
  intros items.
  destruct (backward_items_alignment 2%float 0%float [0%float; 1%float; 2%float]
              [[10%float]; [11%float]; [12%float]] eq_refl) as (Hlen & Hrow & Hlast).
  split; [exact Hlen |].
  split; [exact (Hrow 0%nat 0%float [10%float] eq_refl eq_refl) |].
  split; [exact (Hrow 2%nat 2%float [12%float] eq_refl eq_refl) | exact Hlast].
Defined.

Lemma SFcompare_refl_r (x : SpecFloat.spec_float) (c : comparison) (y : SpecFloat.spec_float) :
  SpecFloat.SFcompare x y = Some c -> SpecFloat.SFcompare y y = Some Eq.
Proof.
  destruct y as [s | s | | s m e]; simpl; try reflexivity.
  - destruct s; reflexivity.
  - destruct x as [? | [] | | []]; discriminate.
  - intros _. destruct s; rewrite Z.compare_refl, ?Pos.compare_refl; reflexivity.
Qed.

(** A double that is above another is not a NaN, hence equal to itself. *)
Lemma ltb_eqb_refl_r (a b : float) : PrimFloat.ltb a b = true -> PrimFloat.eqb b b = true.
Proof.
  rewrite FloatAxioms.eqb_spec, FloatAxioms.ltb_spec. unfold SpecFloat.SFeqb, SpecFloat.SFltb.
  destruct (SpecFloat.SFcompare (Prim2SF a) (Prim2SF b)) as [c|] eqn:E; [|discriminate].
  intros _. apply SFcompare_refl_r in E. rewrite E. reflexivity.
Qed.

Section BackwardEdges.
Context {lib : Sundials}.
Import AdjointSolver.
#[local] Existing Instance keeps_preorder.
#[local] Existing Instance backward_frame_preorder.

Lemma zeroed_engine_side (w : state) (t0 : float) :
  _ode (set_time_p (zeroed w) t0) = _ode w
  /\ _quad_buffer_out (set_time_p (zeroed w) t0) = fill 0%float (_quad_buffer_out w)
  /\ grad_out (set_time_p (zeroed w) t0) = grad_out w
  /\ lamda_all_out (set_time_p (zeroed w) t0) = lamda_all_out w
  /\ quad_all_out (set_time_p (zeroed w) t0) = quad_all_out w
  /\ _odeB (set_time_p (zeroed w) t0) = _odeB w.
Proof. repeat split; reflexivity. Qed.

Lemma zeroed_trace_at (w : state) (t0 : float) :
  trace (set_time_p (zeroed w) t0)
  = trace w ++ [EvZero BufStateB; EvZero BufQuad; EvZero BufQuadOut].
Proof.
  change (trace (set_time_p (zeroed w) t0)) with (trace (zeroed w)). apply zeroed_trace.
Qed.

Lemma inject_keeps_engine_side (i : nat) (grad : option vec) :
  stable (keeps engine_side) (inject i grad).
Proof.
  unfold inject, write_all_out. destruct grad; repeat stable_step.
  all: apply stable_modify; intros w; reflexivity.
Qed.

Lemma skipped_loop_keeps (max_retries : Z) items :
  none_steppable items ->
  forall i w, engine_side (for_each (backward_body max_retries) i items w).2 = engine_side w.
Proof.
  induction 1 as [| [[t_lower t_upper] grad] items Hskip _ IH]; intros i w; [reflexivity |].
  simpl in Hskip. cbn [for_each]. unfold bind at 1. unfold backward_body.
  rewrite Hskip. rewrite (bind_ok _ _ w w tt) by reflexivity.
  pose proof (inject_keeps_engine_side i grad w) as Hi. unfold keeps in Hi.
  destruct (inject i grad w) as [[[] | e |] w1]; simpl in Hi |- *; try exact Hi.
  rewrite IH. exact Hi.
Qed.

Lemma write_results_engine (w : state) :
  _ode (write_results w).2 = _ode w /\ trace (write_results w).2 = trace w.
Proof.
  unfold write_results, bind, gets, lift, modify.
  repeat (case_match; simpl in *; simplify_eq; simpl; auto).
Qed.

Lemma write_results_grad_out (w w' : state) :
  length (_quad_buffer_out w) = length (grad_out w) ->
  write_results w = (Ok tt, w') -> grad_out w' = _quad_buffer_out w.
Proof.
  intros Hlen. unfold write_results, bind, gets, lift, modify.
  rewrite (assign_same_length _ _ Hlen). simpl.
  destruct (assign _ _); [| discriminate..]. intros [= <-]. reflexivity.
Qed.

(** X3: when no sub-interval has [t_lower < t_upper], as with output times
    given in decreasing order, [solve_backward] does not complain about the
    order: it makes no engine call at all (the trace gains the three zero
    fills only), and where it completes, on a [grad_out] of the size of the
    quadrature buffer, it reports a parameter gradient of zeros. *)
Theorem backward_pass_without_steps (t0 tend : float) (tvals : list float) (grads : mat)
    (max_retries : Z) (w : state) :
  none_steppable (backward_items t0 tend tvals grads) ->
  _ode (solve_backward t0 tend tvals grads max_retries w).2 = _ode w
  /\ trace (solve_backward t0 tend tvals grads max_retries w).2
     = trace w ++ [EvZero BufStateB; EvZero BufQuad; EvZero BufQuadOut]
  /\ (length (grad_out w) = length (_quad_buffer_out w) ->
      (solve_backward t0 tend tvals grads max_retries w).1 = Ok tt ->
      grad_out (solve_backward t0 tend tvals grads max_retries w).2
      = fill 0%float (_quad_buffer_out w)).
Proof.
  intros Hskip. rewrite solve_backward_unfold. set (w0 := set_time_p (zeroed w) t0).
  destruct (zeroed_engine_side w t0) as (Hode & Hquad & Hgrad & _).
  fold w0 in Hode, Hquad, Hgrad.
  assert (Htrace : trace w0 = trace w ++ [EvZero BufStateB; EvZero BufQuad; EvZero BufQuadOut]).
  { unfold w0. change (trace (set_time_p (zeroed w) t0)) with (trace (zeroed w)).
    apply zeroed_trace. }
  pose proof (skipped_loop_keeps max_retries _ Hskip 0 w0) as Hk.
  unfold backward_loop, bind.
  destruct (for_each _ _ _ w0) as [[[] | e |] w1]; unfold engine_side in Hk;
    cbn [fst snd] in Hk |- *; injection Hk as Ho Ht Hq Hqo Hg Hl.
  - destruct (write_results_engine w1) as [Ho' Ht'].
    split; [congruence |]. split; [rewrite Ht', Ht, <- !app_assoc; reflexivity |].
    intros Hlen Hok.
    pose proof (result_pair write_results w1) as Hpair. rewrite Hok in Hpair.
    assert (Hlen1 : length (_quad_buffer_out w1) = length (grad_out w1)).
    { rewrite Hqo, Hg. unfold fill. rewrite length_map. congruence. }
    rewrite (write_results_grad_out _ _ Hlen1 Hpair). exact Hqo.
  - split; [congruence |]. split; [rewrite Ht, <- !app_assoc; reflexivity |]. discriminate.
  - split; [congruence |]. split; [rewrite Ht, <- !app_assoc; reflexivity |]. discriminate.
Qed.

(** *** The start of the backward problem *)

Lemma backward_items_last_two (tend t_prev t_last : float) (front : list float)
    (gfront : mat) (g_prev g_last : vec) :
  exists rest,
    backward_items t_last tend (front ++ [t_prev; t_last]) (gfront ++ [g_prev; g_last])
    = ((t_last, t_last), Some g_last) :: ((t_prev, t_last), Some g_prev) :: rest.
Proof.
  unfold backward_items, t_intervals. cbv zeta.
  rewrite rev_app_distr, map_app.
  change (rev (None :: map Some gfront ++ map Some [g_prev; g_last]))
    with (rev (map Some gfront ++ map Some [g_prev; g_last]) ++ [None]).
  rewrite rev_app_distr. simpl. eexists. reflexivity.
Qed.

Lemma inject_plain (i : nat) (g : vec) (w : state) :
  lamda_all_out w = None -> quad_all_out w = None ->
  length g = length (_state_bufferB w) ->
  inject i (Some g) w
  = (Ok tt, set_state_bufferB w (zip_with PrimFloat.sub (_state_bufferB w) g)).
Proof.
  intros Hl Hq Hlen. unfold inject.
  rewrite (bind_ok _ _ w w (_state_bufferB w)) by reflexivity.
  rewrite (bind_ok _ _ w w (zip_with PrimFloat.sub (_state_bufferB w) g))
    by (unfold lift; rewrite (isub_same_length _ _ Hlen); reflexivity).
  set (v := zip_with PrimFloat.sub (_state_bufferB w) g).
  rewrite (bind_ok _ _ w (set_state_bufferB w v) tt) by reflexivity.
  rewrite (bind_ok _ _ _ (set_state_bufferB w v) v) by reflexivity.
  unfold write_all_out.
  rewrite (bind_ok _ _ _ (set_state_bufferB w v) tt)
    by (unfold bind, gets; simpl; rewrite Hl; reflexivity).
  rewrite (bind_ok _ _ _ (set_state_bufferB w v) (_quad_buffer w)) by reflexivity.
  unfold bind, gets. simpl. rewrite Hq. reflexivity.
Qed.

Ltac frame_auto :=
  repeat first
    [ apply frame_call_CVodeReInitB | apply frame_call_CVodeQuadReInitB
    | apply frame_call_CVodeB | apply frame_call_CVodeGetB
    | apply frame_call_CVodeGetQuadB | apply frame_retry_loop
    | apply frame_copy_quad | apply frame_inject | apply frame_backward_body
    | stable_step ].

(** A stepped sub-interval starts with the reinitialisation of the backward
    problem at [t_upper], from the adjoint state it finds. *)
Lemma step_interval_first_event (max_retries : Z) (t_lower t_upper : float) (w : state) :
  exists tr,
    trace (step_interval max_retries t_lower t_upper w).2
    = trace w ++ [EvReInitB (_odeB w) t_upper (_state_bufferB w)] ++ tr.
Proof.
  unfold step_interval. unfold bind at 1. unfold call_CVodeReInitB.
  destruct (CVodeReInitB _ _ _ _) as [r e].
  set (w2 := log (set_ode w e) (EvReInitB (_odeB w) t_upper (_state_bufferB w))).
  match goal with
  | |- exists tr, trace (?m w2).2 = _ =>
      assert (Hst : stable backward_frame m) by frame_auto
  end.
  destruct (Hst w2) as [_ _ _ _ _ _ _ (tr & Htr & _)].
  exists tr. rewrite Htr. unfold w2. simpl. rewrite <- app_assoc. reflexivity.
Qed.

Lemma body_first_event (max_retries : Z) (i : nat) (t_lower t_upper : float)
    (g : option vec) (w : state) :
  PrimFloat.ltb t_lower t_upper = true ->
  exists tr,
    trace (backward_body max_retries i ((t_lower, t_upper), g) w).2
    = trace w ++ [EvReInitB (_odeB w) t_upper (_state_bufferB w)] ++ tr.
Proof.
  intros Hlt. destruct (step_interval_first_event max_retries t_lower t_upper w)
    as (tr1 & Htr1).
  unfold backward_body. rewrite Hlt. unfold bind.
  destruct (step_interval max_retries t_lower t_upper w) as [[[] | e |] w1];
    cbn [fst snd] in Htr1 |- *; try (exists tr1; exact Htr1).
  destruct (frame_inject i g w1) as [_ _ _ _ _ _ _ (tr2 & Htr2 & _)].
  exists (tr1 ++ tr2). rewrite Htr2, Htr1, <- !app_assoc. reflexivity.
Qed.

Lemma loop_first_event (max_retries : Z) (i : nat) (t_lower t_upper : float)
    (g : option vec) rest (w : state) :
  PrimFloat.ltb t_lower t_upper = true ->
  exists tr,
    trace (for_each (backward_body max_retries) i (((t_lower, t_upper), g) :: rest) w).2
    = trace w ++ [EvReInitB (_odeB w) t_upper (_state_bufferB w)] ++ tr.
Proof.
  intros Hlt. destruct (body_first_event max_retries i t_lower t_upper g w Hlt)
    as (tr1 & Htr1).
  assert (Hrest : stable backward_frame (for_each (backward_body max_retries) (S i) rest)).
  { apply stable_for_each; [typeclasses eauto |]. intros; apply frame_backward_body. }
  cbn [for_each]. unfold bind.
  destruct (backward_body max_retries i (t_lower, t_upper, g) w) as [[[] | e |] w1];
    cbn [fst snd] in Htr1 |- *; try (exists tr1; exact Htr1).
  destruct (Hrest w1) as [_ _ _ _ _ _ _ (tr2 & Htr2 & _)].
  exists (tr1 ++ tr2). rewrite Htr2, Htr1, <- !app_assoc. reflexivity.
Qed.

Lemma solve_backward_trace (t0 tend : float) (tvals : list float) (grads : mat)
    (max_retries : Z) (w : state) :
  trace (solve_backward t0 tend tvals grads max_retries w).2
  = trace (backward_loop max_retries (backward_items t0 tend tvals grads)
             (set_time_p (zeroed w) t0)).2.
Proof.
  rewrite solve_backward_unfold. unfold bind.
  destruct (backward_loop _ _ _) as [[[] | e |] w1]; try reflexivity.
  apply write_results_trace.
Qed.

Lemma loop_starts_from_last_gradient (max_retries : Z) (t_prev t_last : float)
    (g_prev g_last : vec) rest (w : state) :
  PrimFloat.ltb t_prev t_last = true ->
  length g_last = length (_state_bufferB w) ->
  lamda_all_out w = None -> quad_all_out w = None ->
  exists tr,
    trace (backward_loop max_retries
             (((t_last, t_last), Some g_last) :: ((t_prev, t_last), Some g_prev) :: rest) w).2
    = trace w
      ++ [EvReInitB (_odeB w) t_last (zip_with PrimFloat.sub (_state_bufferB w) g_last)]
      ++ tr.
Proof.
  intros Hlt Hlen Hl Hq.
  unfold backward_loop. cbn [for_each]. unfold backward_body at 1.
  rewrite (eqb_not_ltb _ _ (ltb_eqb_refl_r _ _ Hlt)).
  rewrite (bind_ok _ _ w (set_state_bufferB w (zip_with PrimFloat.sub (_state_bufferB w) g_last)) tt).
  2:{ rewrite (bind_ok _ _ w w tt) by reflexivity.
      apply inject_plain; assumption. }
  destruct (loop_first_event max_retries 1 t_prev t_last (Some g_prev) rest
              (set_state_bufferB w (zip_with PrimFloat.sub (_state_bufferB w) g_last)) Hlt)
    as (tr & Htr).
  cbn [for_each] in Htr. exists tr. rewrite Htr. reflexivity.
Qed.

(** X4: called as the backward operator calls it, from the last output time,
    with at least two output times, the last two increasing, a last loss
    gradient of the size of the adjoint state, and no per-time arrays:
    after the zero fills, the first engine call of [solve_backward]
    reinitialises the backward problem at the last output time with the
    adjoint state [0 - grads[-1]]. *)
Theorem backward_pass_starts_from_last_gradient (tend t_prev t_last : float)
    (front : list float) (gfront : mat) (g_prev g_last : vec) (max_retries : Z)
    (w : state) :
  PrimFloat.ltb t_prev t_last = true ->
  length g_last = length (_state_bufferB w) ->
  lamda_all_out w = None -> quad_all_out w = None ->
  exists tr,
    trace (solve_backward t_last tend (front ++ [t_prev; t_last])
             (gfront ++ [g_prev; g_last]) max_retries w).2
    = trace w
      ++ [EvZero BufStateB; EvZero BufQuad; EvZero BufQuadOut;
          EvReInitB (_odeB w) t_last
            (zip_with PrimFloat.sub (fill 0%float (_state_bufferB w)) g_last)]
      ++ tr.
Proof.
  intros Hlt Hlen Hl Hq. rewrite solve_backward_trace.
  destruct (backward_items_last_two tend t_prev t_last front gfront g_prev g_last)
    as [rest ->].
  destruct (zeroed_engine_side w t_last) as (_ & _ & _ & Hl0 & Hq0 & HoB).
  pose proof (zeroed_state_bufferB w t_last) as Hs0.
  pose proof (zeroed_trace_at w t_last) as Htrace.
  destruct (loop_starts_from_last_gradient max_retries t_prev t_last g_prev g_last rest
              (set_time_p (zeroed w) t_last) Hlt) as (tr & Htr).
  - rewrite Hs0. unfold fill. rewrite length_map. exact Hlen.
  - rewrite Hl0. exact Hl.
  - rewrite Hq0. exact Hq.
  - exists tr. rewrite Htr, Htrace, HoB, Hs0, <- !app_assoc. reflexivity.
Qed.
End BackwardEdges.

(** X3 on the scripted engine: the output times [2, 1, 0] of a pass that starts at
    [0]: no engine call, a completed pass and a gradient of zero. *)
Lemma backward_pass_without_steps_witness :
  let out := AdjointSolver.solve_backward (lib := Scripted.lib) 0%float 2%float
               [2%float; 1%float; 0%float] [[1%float]; [1%float]; [1%float]] 5
               adjoint_run in
  AdjointSolver._ode out.2 = AdjointSolver._ode adjoint_run
  /\ AdjointSolver.trace out.2
     = [EvZero BufStateB; EvZero BufQuad; EvZero BufQuadOut]
  /\ out.1 = Ok tt
  /\ AdjointSolver.grad_out out.2 = [0%float].
Proof.
  intros out.
  destruct (backward_pass_without_steps (lib := Scripted.lib) 0%float 2%float
              [2%float; 1%float; 0%float] [[1%float]; [1%float]; [1%float]] 5
              adjoint_run) as (Hode & Htrace & Hgrad).
  - vm_compute. repeat constructor.
  - split; [exact Hode |]. split; [exact Htrace |].
    assert (Hok : out.1 = Ok tt) by (vm_compute; reflexivity).
    split; [exact Hok |]. exact (Hgrad eq_refl Hok).
Defined.

(** X4 on the scripted engine: a last loss gradient of [7] starts the backward
    problem at [t = 2] with the adjoint state [-7]. *)
Lemma backward_pass_starts_from_last_gradient_witness :
  exists tr,
    AdjointSolver.trace
      (AdjointSolver.solve_backward (lib := Scripted.lib) 2%float 0%float
         ([0%float] ++ [1%float; 2%float]) ([[1%float]] ++ [[1%float]; [7%float]]) 5
         adjoint_run).2
    = AdjointSolver.trace adjoint_run
      ++ [EvZero BufStateB; EvZero BufQuad; EvZero BufQuadOut;
          EvReInitB 0%Z 2%float [(-7)%float]]
      ++ tr.
Proof.
  apply (backward_pass_starts_from_last_gradient (lib := Scripted.lib) 0%float 1%float
           2%float [0%float] [[1%float]] [1%float] [7%float] 5 adjoint_run);
    reflexivity.
Defined.

(** * Exceptions that can and cannot occur *)

Section HoareFacts.
Context {W : Type}.

Lemma hoare_ret {A} (P : W -> Prop) (Q : A -> W -> Prop) E F (a : A) :
  (forall w, P w -> Q a w) -> hoare P (ret a) Q E F.
Proof. intros H w Hw. apply H. exact Hw. Qed.

Lemma hoare_raise {A} (P : W -> Prop) (Q : A -> W -> Prop) (E : exn -> W -> Prop) F
    (e : exn) :
  (forall w, P w -> E e w) -> hoare P (raise e) Q E F.
Proof. intros H w Hw. apply H. exact Hw. Qed.

Lemma hoare_gets {A} (P : W -> Prop) E F (f : W -> A) :
  hoare P (gets f) (fun a w => P w /\ a = f w) E F.
Proof. intros w Hw. split; [exact Hw | reflexivity]. Qed.

Lemma hoare_modify (P Q : W -> Prop) E F (f : W -> W) :
  (forall w, P w -> Q (f w)) -> hoare P (modify f) (fun _ => Q) E F.
Proof. intros H w Hw. apply H. exact Hw. Qed.

Lemma hoare_bind {A B} (P : W -> Prop) (m : M W A) (Q : A -> W -> Prop)
    (k : A -> M W B) (R : B -> W -> Prop) E F :
  hoare P m Q E F -> (forall a, hoare (Q a) (k a) R E F) -> hoare P (bind m k) R E F.
Proof.
  intros Hm Hk w Hw. unfold bind. specialize (Hm w Hw).
  destruct (m w) as [[a | e |] w1]; [apply (Hk a w1 Hm) | exact Hm | exact Hm].
Qed.

Lemma hoare_pre {A} (P P' : W -> Prop) (m : M W A) (Q : A -> W -> Prop) E F :
  hoare P' m Q E F -> (forall w, P w -> P' w) -> hoare P m Q E F.
Proof. intros Hm HP w Hw. apply Hm, HP, Hw. Qed.

Lemma hoare_check `{lib : Sundials} (P : W -> Prop) (E : exn -> W -> Prop) F (r : Z) :
  (forall c w, P w -> E (CheckError c) w) -> hoare P (check r) (fun _ => P) E F.
Proof.
  intros HE w Hw. unfold check. destruct (check_ok r); [exact Hw | apply HE, Hw].
Qed.

Lemma hoare_errors_lookup `{lib : Sundials} (P : W -> Prop) (E : exn -> W -> Prop) F
    (r : Z) :
  (forall k w, P w -> E (KeyError k) w) -> hoare P (errors_lookup r) (fun _ => P) E F.
Proof.
  intros HE w Hw. unfold errors_lookup. destruct (ERRORS !! r); [exact Hw | apply HE, Hw].
Qed.

Lemma hoare_step_while `{lib : Sundials} (P : W -> Prop) (E : exn -> W -> Prop)
    (step : float -> M W Z) :
  (forall m w, P w -> E (SolverError m) w) -> (forall k w, P w -> E (KeyError k) w) ->
  (forall t, hoare P (step t) (fun _ => P) E P) ->
  forall fuel retval t, hoare P (step_while step fuel retval t) (fun _ => P) E P.
Proof.
  intros HS HK Hstep fuel. induction fuel as [| fuel IH]; intros retval t; simpl.
  - destruct (retval =? CV_TOO_MUCH_WORK)%Z; intros w Hw; exact Hw.
  - destruct (retval =? CV_TOO_MUCH_WORK)%Z; [| intros w Hw; exact Hw].
    eapply hoare_bind; [apply Hstep |]. intros r. cbv beta.
    destruct (negb (r =? CV_TOO_MUCH_WORK)%Z && negb (r =? 0)%Z).
    + eapply hoare_bind; [apply hoare_errors_lookup, HK |].
      intros name. apply hoare_raise. apply HS.
    + apply IH.
Qed.

(** A loop whose body keeps [P] for the indices below [k] keeps it as long
    as it stays below [k]. *)
Lemma hoare_for_each {A} (P : W -> Prop) (E : exn -> W -> Prop) F
    (body : nat -> A -> M W unit) (k : nat) :
  (forall i x, (i < k)%nat -> hoare P (body i x) (fun _ => P) E F) ->
  forall l i, (i + length l <= k)%nat -> hoare P (for_each body i l) (fun _ => P) E F.
Proof.
  intros Hb l. induction l as [| x l IH]; intros i Hi; simpl in *.
  - intros w Hw. exact Hw.
  - eapply hoare_bind; [apply Hb; lia |]. intros u. apply IH. lia.
Qed.
End HoareFacts.

Section ForwardBuffers.
Context {lib : Sundials}.
Import AdjointSolver.

Lemma fits_call_CVodeF (n k : nat) (t : float) :
  hoare (fits n k) (call_CVodeF t) (fun _ => fits n k) on_engine (fits n k).
Proof.
  intros w (Hs & Hk & Hrows). unfold call_CVodeF.
  pose proof (CVodeF_length (_ode w) t (_state_buffer w) (time_p w) CV_NORMAL (n_check w))
    as L.
  destruct (CVodeF _ _ _ _ _ _) as [[[[r e] y] tp] nc]. simpl in L.
  repeat split; simpl; congruence.
Qed.

Lemma fits_call_CVodeReInit (n k : nat) (t0 : float) :
  hoare (fits n k) (call_CVodeReInit t0) (fun _ => fits n k) on_engine (fits n k).
Proof.
  intros w Hw. unfold call_CVodeReInit. destruct (CVodeReInit _ _ _) as [r e]. exact Hw.
Qed.

Lemma fits_call_CVodeAdjReInit (n k : nat) :
  hoare (fits n k) call_CVodeAdjReInit (fun _ => fits n k) on_engine (fits n k).
Proof.
  intros w Hw. unfold call_CVodeAdjReInit. destruct (CVodeAdjReInit _) as [r e]. exact Hw.
Qed.

(** [y_out[i, :] = v] goes through for a row index below the number of rows
    and a value of the length of a row. *)
Lemma fits_write_y_out (n k i : nat) (v : vec) (w : state) :
  fits n k w -> (i < k)%nat -> length v = n ->
  write_y_out i v w = (Ok tt, set_y_out w (<[i := v]> (y_out w)))
  /\ fits n k (set_y_out w (<[i := v]> (y_out w))).
Proof.
  intros (Hs & Hk & Hrows) Hi Hv.
  destruct (lookup_lt_is_Some_2 (y_out w) i ltac:(lia)) as [row Hrow].
  assert (Hlen : length row = n) by (eapply (proj1 (Forall_lookup _ _) Hrows); eauto).
  assert (Hvr : length v = length row) by congruence.
  split.
  - unfold write_y_out, bind, gets, lift.
    rewrite (set_row_exact _ _ _ _ Hrow Hvr). reflexivity.
  - repeat split; simpl; [exact Hs | rewrite length_insert; exact Hk |].
    apply Forall_insert; assumption.
Qed.

Lemma fits_solve_forward_body (fuel : nat) (t0 : float) (y0 : vec) (n k i : nat)
    (t : float) :
  length y0 = n -> (i < k)%nat ->
  hoare (fits n k) (solve_forward_body fuel t0 y0 i t) (fun _ => fits n k)
    on_engine (fits n k).
Proof.
  intros Hy Hi. unfold solve_forward_body. destruct (PrimFloat.eqb t t0).
  - intros w Hw. destruct (fits_write_y_out n k 0 y0 w Hw ltac:(lia) Hy) as [-> Hfits].
    exact Hfits.
  - eapply hoare_bind.
    { apply hoare_step_while; [intros; exact I | intros; exact I | apply fits_call_CVodeF]. }
    intros u. eapply hoare_bind; [apply hoare_gets |]. intros sd. cbv beta.
    intros w [Hw ->].
    destruct (fits_write_y_out n k i (_state_buffer w) w Hw Hi (proj1 Hw)) as [-> Hfits].
    exact Hfits.
Qed.

Lemma fits_solve_forward (fuel : nat) (t0 : float) (tvals : list float) (y0 : vec)
    (n k : nat) :
  length y0 = n -> (length tvals <= k)%nat ->
  hoare (fits n k) (solve_forward fuel t0 tvals y0) (fun _ => fits n k)
    on_engine (fits n k).
Proof.
  intros Hy Hk w Hw. unfold solve_forward.
  assert (Hfit : length y0 = length (_state_buffer w))
    by (rewrite Hy; symmetry; apply Hw).
  rewrite (bind_ok _ _ w w (_state_buffer w)) by reflexivity.
  rewrite (bind_ok _ _ w w y0)
    by (unfold lift; rewrite (assign_same_length _ y0 Hfit); reflexivity).
  rewrite (bind_ok _ _ w (set_state_buffer w y0) tt) by reflexivity.
  rewrite (bind_ok _ _ _ (set_time_p (set_state_buffer w y0) t0) tt) by reflexivity.
  rewrite (bind_ok _ _ _ (set_n_check (set_time_p (set_state_buffer w y0) t0) 0) tt)
    by reflexivity.
  assert (Hw' : fits n k (set_n_check (set_time_p (set_state_buffer w y0) t0) 0)).
  { destruct Hw as (Hs & Hlen & Hrows). repeat split; assumption. }
  revert Hw'. generalize (set_n_check (set_time_p (set_state_buffer w y0) t0) 0).
  change (hoare (fits n k)
            (r <- call_CVodeReInit t0 ;; _ <- check r ;;
             r <- call_CVodeAdjReInit ;; _ <- check r ;;
             for_each (solve_forward_body fuel t0 y0) 0 tvals)
            (fun _ => fits n k) on_engine (fits n k)).
  eapply hoare_bind; [apply fits_call_CVodeReInit |]. intros r1.
  eapply hoare_bind; [apply hoare_check; intros; exact I |]. intros u1.
  eapply hoare_bind; [apply fits_call_CVodeAdjReInit |]. intros r2.
  eapply hoare_bind; [apply hoare_check; intros; exact I |]. intros u2.
  apply (hoare_for_each _ _ _ _ k); [| simpl; lia].
  intros i t Hi. apply fits_solve_forward_body; assumption.
Qed.

(** X6: on the output array that [make_output_buffers] allocates for its output
    times, and with an initial state of the size of the problem,
    [solve_forward] raises no indexing and no broadcasting error: whatever
    it raises stems from an answer of the engine, and where it completes
    the array has kept its shape. *)
Theorem forward_pass_fits_own_buffers (fuel : nat) (t0 : float) (tvals : list float)
    (y0 : vec) (w : state) :
  length (_state_buffer w) = n_states w -> length y0 = n_states w ->
  match solve_forward fuel t0 tvals y0 (SolveODEAdjoint.fresh_buffers tvals w) with
  | (Ok _, w') => fits (n_states w) (length tvals) w'
  | (Raise e, _) => engine_born e
  | (OutOfFuel, _) => True
  end.
Proof.
  intros Hs Hy.
  assert (Hfits : fits (n_states w) (length tvals) (SolveODEAdjoint.fresh_buffers tvals w)).
  { unfold SolveODEAdjoint.fresh_buffers, make_output_buffers, fits. simpl.
    split; [exact Hs |]. split; [apply length_replicate |].
    apply Forall_replicate. apply length_replicate. }
  pose proof (fits_solve_forward fuel t0 tvals y0 (n_states w) (length tvals) Hy (le_n _)
                _ Hfits) as H.
  destruct (solve_forward _ _ _ _ _) as [[[] | e |] w']; [exact H | exact H | exact I].
Qed.
End ForwardBuffers.

(** X6 on the scripted engine: a completed forward pass over three output times
    on the buffers of the constructor. *)
Lemma forward_pass_fits_own_buffers_witness :
  match AdjointSolver.solve_forward (lib := Scripted.lib) 5 0%float
          [0%float; 1%float; 2%float] [1%float]
          (SolveODEAdjoint.fresh_buffers [0%float; 1%float; 2%float] adjoint_run) with
  | (Ok _, w') => fits 1 3 w'
  | (Raise e, _) => engine_born e
  | (OutOfFuel, _) => True
  end.
Proof.
  apply (forward_pass_fits_own_buffers (lib := Scripted.lib) 5 0%float
           [0%float; 1%float; 2%float] [1%float] adjoint_run); reflexivity.
Defined.

(** * The per-time arrays of the backward pass *)

Section Snapshots.
Context {lib : Sundials}.
Import AdjointSolver.
#[local] Existing Instance keeps_preorder.

Lemma write_lamda_all_out (i k : nat) (v : vec) (out : mat) (w : state) :
  lamda_all_out w = Some out -> neg_index (length out) i = Some k ->
  (k < length out)%nat -> Forall (fun row => length row = length v) out ->
  write_all_out lamda_all_out set_lamda_all_out i v w
  = (Ok tt, set_lamda_all_out w (Some (<[k := v]> out))).
Proof.
  intros Hl Hk Hlt Hrows. unfold write_all_out, bind, gets. rewrite Hl, Hk.
  destruct (lookup_lt_is_Some_2 out k Hlt) as [row Hrow].
  assert (Hlen : length v = length row)
    by (symmetry; eapply (proj1 (Forall_lookup _ _) Hrows); eauto).
  unfold lift. rewrite (set_row_exact _ _ _ _ Hrow Hlen). reflexivity.
Qed.

Lemma write_quad_all_out_keeps (i : nat) (v : vec) :
  stable (keeps lamda_all_out) (write_all_out quad_all_out set_quad_all_out i v).
Proof.
  unfold write_all_out. repeat stable_step. apply stable_modify. intros w. reflexivity.
Qed.

Lemma inject_snapshot (i k : nat) (g : vec) (out : mat) (w : state) :
  lamda_all_out w = Some out -> length g = length (_state_bufferB w) ->
  Forall (fun row => length row = length (_state_bufferB w)) out ->
  neg_index (length out) i = Some k -> (k < length out)%nat ->
  lamda_all_out (inject i (Some g) w).2
  = Some (<[k := zip_with PrimFloat.sub (_state_bufferB w) g]> out).
Proof.
  intros Hl Hlen Hrows Hk Hlt. unfold inject.
  set (v := zip_with PrimFloat.sub (_state_bufferB w) g).
  rewrite (bind_ok _ _ w w (_state_bufferB w)) by reflexivity.
  rewrite (bind_ok _ _ w w v)
    by (unfold lift; rewrite (isub_same_length _ _ Hlen); reflexivity).
  rewrite (bind_ok _ _ w (set_state_bufferB w v) tt) by reflexivity.
  rewrite (bind_ok _ _ _ (set_state_bufferB w v) v) by reflexivity.
  assert (Hv : length v = length (_state_bufferB w))
    by (unfold v; rewrite length_zip_with; lia).
  rewrite (bind_ok _ _ _ (set_lamda_all_out (set_state_bufferB w v) (Some (<[k := v]> out))) tt).
  2:{ apply write_lamda_all_out; try assumption.
      eapply Forall_impl; [exact Hrows |]. intros row Hrow. cbv beta in *. congruence. }
  rewrite (bind_ok _ _ _ (set_lamda_all_out (set_state_bufferB w v) (Some (<[k := v]> out)))
             (_quad_buffer w)) by reflexivity.
  apply (write_quad_all_out_keeps i (_quad_buffer w)).
Qed.

(** X5: where the per-time array [lamda_all_out] is passed, with rows of the
    size of the adjoint state, iteration [i] of the backward loop stores the
    adjoint state it has just updated in row [0] when [i = 0] and in row
    [len - i] when [0 < i <= len], and keeps the other rows; for [i > len]
    the index [-i] is out of range: [IndexError] is raised once the gradient
    is subtracted, and the array is untouched. *)
Theorem snapshot_rows (i : nat) (g : vec) (out : mat) (w : state) :
  lamda_all_out w = Some out -> length g = length (_state_bufferB w) ->
  Forall (fun row => length row = length (_state_bufferB w)) out ->
  (i = 0%nat -> out <> [] ->
   lamda_all_out (inject i (Some g) w).2
   = Some (<[0%nat := zip_with PrimFloat.sub (_state_bufferB w) g]> out))
  /\ ((0 < i <= length out)%nat ->
      lamda_all_out (inject i (Some g) w).2
      = Some (<[(length out - i)%nat := zip_with PrimFloat.sub (_state_bufferB w) g]> out))
  /\ ((length out < i)%nat ->
      inject i (Some g) w
      = (Raise IndexError,
         set_state_bufferB w (zip_with PrimFloat.sub (_state_bufferB w) g))).
Proof.
  intros Hl Hlen Hrows. split; [| split].
  - intros -> Hne. apply inject_snapshot; try assumption.
    + unfold neg_index. destruct out; [contradiction | reflexivity].
    + destruct out; [contradiction | simpl; lia].
  - intros [Hpos Hle]. apply inject_snapshot; try assumption; [| lia].
    unfold neg_index. destruct i as [| i]; [lia |].
    rewrite (proj2 (Nat.leb_le _ _) Hle). reflexivity.
  - intros Hgt. unfold inject.
    set (v := zip_with PrimFloat.sub (_state_bufferB w) g).
    rewrite (bind_ok _ _ w w (_state_bufferB w)) by reflexivity.
    rewrite (bind_ok _ _ w w v)
      by (unfold lift; rewrite (isub_same_length _ _ Hlen); reflexivity).
    rewrite (bind_ok _ _ w (set_state_bufferB w v) tt) by reflexivity.
    rewrite (bind_ok _ _ _ (set_state_bufferB w v) v) by reflexivity.
    apply bind_raise. unfold write_all_out, bind, gets.
    change (lamda_all_out (set_state_bufferB w v)) with (lamda_all_out w). rewrite Hl.
    unfold neg_index. destruct i as [| i]; [lia |].
    rewrite (proj2 (Nat.leb_gt _ _) Hgt). reflexivity.
Qed.
End Snapshots.

(** X5 on the scripted engine: three rows: iteration [0] writes row [0], iteration [1]
    row [2], and iteration [4] raises [IndexError]. *)
Lemma snapshot_rows_witness :
  let w := AdjointSolver.set_lamda_all_out adjoint_run
             (Some [[0%float]; [0%float]; [0%float]]) in
  AdjointSolver.lamda_all_out (AdjointSolver.inject (lib := Scripted.lib) 0 (Some [7%float]) w).2
  = Some [[(-7)%float]; [0%float]; [0%float]]
  /\ AdjointSolver.lamda_all_out
       (AdjointSolver.inject (lib := Scripted.lib) 1 (Some [7%float]) w).2
     = Some [[0%float]; [0%float]; [(-7)%float]]
  /\ (AdjointSolver.inject (lib := Scripted.lib) 4 (Some [7%float]) w).1 = Raise IndexError.
Proof.
  intros w.
  assert (Hrows : Forall (fun row : vec => length row = length (AdjointSolver._state_bufferB w))
                    [[0%float]; [0%float]; [0%float]])
    by (repeat constructor).
  split; [| split].
  - exact (proj1 (snapshot_rows (lib := Scripted.lib) 0 [7%float] _ w eq_refl eq_refl Hrows)
             eq_refl ltac:(discriminate)).
  - exact (proj1 (proj2 (snapshot_rows (lib := Scripted.lib) 1 [7%float] _ w eq_refl eq_refl
                           Hrows)) ltac:(simpl; lia)).
  - rewrite (proj2 (proj2 (snapshot_rows (lib := Scripted.lib) 4 [7%float] _ w eq_refl eq_refl
                             Hrows)) ltac:(simpl; lia)).
    reflexivity.
Defined.

(** * The operators at their edges *)

Section ForwardStable.
Context {lib : Sundials}.
Import AdjointSolver.
Context (R : state -> state -> Prop) `{!PreOrder R}.
Context (R_ode : forall w e, R w (set_ode w e)).
Context (R_state : forall w y, R w (set_state_buffer w y)).
Context (R_time : forall w t, R w (set_time_p w t)).
Context (R_check : forall w n, R w (set_n_check w n)).
Context (R_log : forall w ev, R w (log w ev)).

Lemma stable_set_derivative_params (params : vec) : stable R (set_derivative_params params).
Proof.
  intros w. unfold set_derivative_params.
  destruct (update_subset_params _ _); simpl; [apply R_ode | reflexivity | reflexivity].
Qed.

Lemma stable_set_remaining_params (params : vec) : stable R (set_remaining_params params).
Proof.
  intros w. unfold set_remaining_params.
  destruct (update_remaining_params _ _); simpl; [apply R_ode | reflexivity | reflexivity].
Qed.

Lemma stable_call_CVodeF (t : float) : stable R (call_CVodeF t).
Proof.
  intros w. unfold call_CVodeF. destruct (CVodeF _ _ _ _ _ _) as [[[[r e] y] tp] nc].
  cbn [snd].
  transitivity (set_ode w e); [apply R_ode |].
  transitivity (set_state_buffer (set_ode w e) y); [apply R_state |].
  transitivity (set_time_p (set_state_buffer (set_ode w e) y) tp); [apply R_time |].
  transitivity (set_n_check (set_time_p (set_state_buffer (set_ode w e) y) tp) nc);
    [apply R_check | apply R_log].
Qed.

(** Whatever the forward pass keeps in its single steps, it keeps as a
    whole, and whatever its outcome. *)
Lemma stable_solve_forward (fuel : nat) (t0 : float) (tvals : list float) (y0 : vec) :
  (forall i v, stable R (write_y_out i v)) ->
  stable R (solve_forward fuel t0 tvals y0).
Proof.
  intros Hwrite. unfold solve_forward.
  stable_step; [stable_step |].
  stable_step; [stable_step |].
  stable_step; [apply stable_modify; intros w; apply R_state |].
  stable_step; [apply stable_modify; intros w; apply R_time |].
  stable_step; [apply stable_modify; intros w; apply R_check |].
  stable_step.
  { intros w. unfold call_CVodeReInit. destruct (CVodeReInit _ _ _). cbn [snd].
    transitivity (set_ode w e); [apply R_ode | apply R_log]. }
  stable_step; [repeat stable_step |].
  stable_step.
  { intros w. unfold call_CVodeAdjReInit. destruct (CVodeAdjReInit _). cbn [snd].
    transitivity (set_ode w e); [apply R_ode | apply R_log]. }
  stable_step; [repeat stable_step |].
  apply stable_for_each; [typeclasses eauto |]. intros i t.
  unfold solve_forward_body. destruct (PrimFloat.eqb t t0); [apply Hwrite |].
  stable_step.
  { apply stable_step_while; [typeclasses eauto |]. apply stable_call_CVodeF. }
  stable_step; [stable_step | apply Hwrite].
Qed.
End ForwardStable.

Lemma set_row_shape (out out' : mat) (i : nat) (v : vec) :
  set_row out i v = Ok out' -> map length out' = map length out.
Proof.
  unfold set_row. destruct (out !! i) as [row |] eqn:Hrow; [| discriminate].
  destruct (assign row v) as [r | |] eqn:Hr; try discriminate. intros [= <-].
  apply assign_length in Hr. rewrite list_fmap_insert, Hr.
  apply list_insert_id. rewrite list_lookup_fmap, Hrow. reflexivity.
Qed.

Lemma fill2_shape (c : float) (m : mat) : map length (fill2 c m) = map length m.
Proof.
  unfold fill2, fill. rewrite map_map. apply map_ext. intros row. apply length_map.
Qed.

Section OperatorEdges.
Context {lib : Sundials}.
Import AdjointSolver.
#[local] Existing Instance keeps_preorder.
#[local] Existing Instance backward_frame_preorder.

Lemma shape_write_y_out (i : nat) (v : vec) : stable (keeps y_shape) (write_y_out i v).
Proof.
  intros w. unfold write_y_out, bind, gets, lift, keeps, y_shape.
  destruct (set_row (y_out w) i v) as [out' | e |] eqn:E; simpl; try reflexivity.
  apply (set_row_shape _ _ _ _ E).
Qed.

Lemma shape_solve_forward (fuel : nat) (t0 : float) (tvals : list float) (y0 : vec) :
  stable (keeps y_shape) (solve_forward fuel t0 tvals y0).
Proof.
  apply stable_solve_forward; try typeclasses eauto; try (intros; reflexivity).
  apply shape_write_y_out.
Qed.

(** X8: [SolveODEAdjoint.perform] hands out the operator's buffer, and the buffer
    keeps the shape the constructor gave it: the returned array has one row
    per output time and one column per state, also when every entry is the
    NaN of a failed solve, and the buffer keeps this shape when an exception
    leaves the method. *)
Theorem forward_perform_keeps_shape (fuel : nat) (_t0 : float) (_tvals : list float)
    (y0 params params_fixed : vec) (w : state) :
  y_shape (SolveODEAdjoint.perform fuel _t0 _tvals (y0, params, params_fixed) w).2
  = y_shape w
  /\ forall out,
       (SolveODEAdjoint.perform fuel _t0 _tvals (y0, params, params_fixed) w).1 = Ok out ->
       map length out = map length (y_out w).
Proof.
  assert (Hst : stable (keeps y_shape)
                  (SolveODEAdjoint.perform fuel _t0 _tvals (y0, params, params_fixed))).
  { unfold SolveODEAdjoint.perform.
    stable_step; [apply stable_set_derivative_params; [typeclasses eauto | reflexivity] |].
    stable_step; [apply stable_set_remaining_params; [typeclasses eauto | reflexivity] |].
    stable_step; [| stable_step].
    apply stable_try; [typeclasses eauto | apply shape_solve_forward |].
    apply stable_modify. intros u. unfold keeps, y_shape. simpl. apply fill2_shape. }
  split; [apply Hst |].
  intros out Hout. specialize (Hst w). unfold keeps, y_shape in Hst. rewrite <- Hst.
  f_equal. revert Hout. clear Hst.
  unfold SolveODEAdjoint.perform, bind.
  destruct (set_derivative_params params w) as [[[] | e |] wa]; try discriminate.
  destruct (set_remaining_params params_fixed wa) as [[[] | e |] wb]; try discriminate.
  destruct (try_except_SolverError _ _ wb) as [[[] | e |] wc]; try discriminate.
  simpl. intros [= <-]. reflexivity.
Qed.
End OperatorEdges.

(** X8 on the scripted engine: a failed forward solve hands out a two by one
    array of NaN. *)
Lemma forward_perform_keeps_shape_witness :
  exists out,
    (SolveODEAdjoint.perform (lib := Scripted.lib) 3 0%float [0%float; 1%float]
       ([5%float], [], []) forward_failing).1 = Ok out
    /\ map length out = [1%nat; 1%nat].
Proof.
  eexists. split; [vm_compute; reflexivity |].
  apply (proj2 (forward_perform_keeps_shape (lib := Scripted.lib) 3 0%float
                  [0%float; 1%float] [5%float] [] [] forward_failing)).
  vm_compute. reflexivity.
Defined.

Section BackwardOperatorEdges.
Context {lib : Sundials}.
Import AdjointSolver.
#[local] Existing Instance keeps_preorder.
#[local] Existing Instance backward_frame_preorder.

Lemma sizes_write_y_out (i : nat) (v : vec) : stable (keeps result_sizes) (write_y_out i v).
Proof.
  unfold write_y_out. repeat stable_step. apply stable_modify. intros w. reflexivity.
Qed.

Lemma sizes_write_results : stable (keeps result_sizes) write_results.
Proof.
  intros w. unfold write_results, bind, gets, lift, modify, keeps, result_sizes.
  destruct (assign (grad_out w) (_quad_buffer_out w)) as [g | e |] eqn:Eg;
    simpl; try reflexivity.
  apply assign_length in Eg.
  destruct (assign (lamda_out w) (_state_bufferB w)) as [l | e |] eqn:El;
    simpl; try (rewrite Eg; reflexivity).
  apply assign_length in El. rewrite El, Eg. reflexivity.
Qed.

Lemma sizes_solve_backward (t0 tend : float) (tvals : list float) (grads : mat)
    (max_retries : Z) :
  stable (keeps result_sizes) (solve_backward t0 tend tvals grads max_retries).
Proof.
  unfold solve_backward.
  stable_step.
  { unfold zero_buffers. repeat stable_step; apply stable_modify; intros w; reflexivity. }
  stable_step; [apply stable_modify; intros w; reflexivity |].
  stable_step; [| apply sizes_write_results].
  intros w. destruct (frame_backward_loop max_retries (backward_items t0 tend tvals grads) w)
    as [Hg Hl _ _ _ _ _ _].
  unfold keeps, result_sizes. rewrite Hg, Hl. reflexivity.
Qed.

Lemma sizes_perform (fuel : nat) (_t0 : float) (_tvals : list float)
    (inputs : vec * vec * vec * mat) :
  stable (keeps result_sizes) (SolveODEAdjointBackward.perform fuel _t0 _tvals inputs).
Proof.
  destruct inputs as [[[y0 params] params_fixed] grads].
  unfold SolveODEAdjointBackward.perform.
  stable_step; [apply stable_set_derivative_params; [typeclasses eauto | reflexivity] |].
  stable_step; [apply stable_set_remaining_params; [typeclasses eauto | reflexivity] |].
  stable_step; [| repeat stable_step].
  apply stable_try; [typeclasses eauto | |].
  - unfold SolveODEAdjointBackward.solve_both.
    stable_step.
    { apply stable_solve_forward; try typeclasses eauto; try (intros; reflexivity).
      apply sizes_write_y_out. }
    stable_step; [repeat stable_step |].
    stable_step; [apply stable_modify; intros u; reflexivity |].
    apply sizes_solve_backward.
  - unfold SolveODEAdjointBackward.poison.
    stable_step; apply stable_modify; intros u; unfold keeps, result_sizes, fill; simpl;
      rewrite length_map; reflexivity.
Qed.

(** X9: the two arrays [SolveODEAdjointBackward.perform] returns are its result
    buffers, and these keep the sizes the constructor gave them through the
    forward pass, the backward pass and the NaN fill of a failed solve. *)
Theorem backward_perform_keeps_sizes (fuel : nat) (_t0 : float) (_tvals : list float)
    (y0 params params_fixed : vec) (grads : mat) (w : state) :
  result_sizes
    (SolveODEAdjointBackward.perform fuel _t0 _tvals (y0, params, params_fixed, grads) w).2
  = result_sizes w
  /\ forall lamda gradient,
       (SolveODEAdjointBackward.perform fuel _t0 _tvals
          (y0, params, params_fixed, grads) w).1 = Ok (lamda, gradient) ->
       length lamda = length (lamda_out w) /\ length gradient = length (grad_out w).
Proof.
  pose proof (sizes_perform fuel _t0 _tvals (y0, params, params_fixed, grads) w) as Hst.
  split; [exact Hst |].
  intros lamda gradient Hout. unfold keeps, result_sizes in Hst.
  injection Hst as Hl Hg. rewrite <- Hl, <- Hg. revert Hout. clear Hl Hg.
  unfold SolveODEAdjointBackward.perform, bind.
  destruct (set_derivative_params params w) as [[[] | e |] wa]; try discriminate.
  destruct (set_remaining_params params_fixed wa) as [[[] | e |] wb]; try discriminate.
  destruct (try_except_SolverError _ _ wb) as [[[] | e |] wc]; try discriminate.
  simpl. intros [= <- <-]. split; reflexivity.
Qed.

(** *** An initial state of the wrong size *)

Lemma broadcast_misfit {A : Type} (n : nat) (b : list A) :
  length b <> n -> length b <> 1%nat -> broadcast n b = None.
Proof.
  intros Hn H1. unfold broadcast. rewrite (proj2 (Nat.eqb_neq _ _) Hn).
  destruct b as [| x [| y b]]; try reflexivity. contradiction.
Qed.

Lemma params_set_state_buffer (params params_fixed : vec) (w w1 : state) :
  params_set params params_fixed w w1 -> _state_buffer w1 = _state_buffer w.
Proof.
  intros (wa & Ha & H1). unfold set_derivative_params, set_remaining_params in *.
  destruct (update_subset_params _ _); try discriminate. injection Ha as <-.
  destruct (update_remaining_params _ _); try discriminate. injection H1 as <-.
  reflexivity.
Qed.

Lemma solve_forward_misfit (fuel : nat) (t0 : float) (tvals : list float) (y0 : vec)
    (w : state) :
  length y0 <> length (_state_buffer w) -> length y0 <> 1%nat ->
  solve_forward fuel t0 tvals y0 w = (Raise broadcast_error, w).
Proof.
  intros Hn H1. unfold solve_forward.
  rewrite (bind_ok _ _ w w (_state_buffer w)) by reflexivity.
  apply bind_raise. unfold lift, assign. rewrite (broadcast_misfit _ _ Hn H1). reflexivity.
Qed.

(** X10: an initial state that numpy cannot broadcast to the state buffer (its
    length is neither that of the buffer nor one) stops both operators at the
    first statement of [solve_forward]: [perform] raises numpy's [ValueError]
    rather than returning NaNs, no request has reached the engine, and every
    buffer is as the parameter updates left it. *)
Theorem misshapen_initial_state_raises (fuel : nat) (_t0 : float) (_tvals : list float)
    (y0 params params_fixed : vec) (grads : mat) (w w1 : state) :
  length y0 <> length (_state_buffer w) -> length y0 <> 1%nat ->
  params_set params params_fixed w w1 ->
  SolveODEAdjoint.perform fuel _t0 _tvals (y0, params, params_fixed) w
  = (Raise broadcast_error, w1)
  /\ SolveODEAdjointBackward.perform fuel _t0 _tvals (y0, params, params_fixed, grads) w
     = (Raise broadcast_error, w1).
Proof.
  intros Hn H1 Hset. pose proof (params_set_state_buffer _ _ _ _ Hset) as Hsb.
  destruct Hset as (wa & Ha & Hb).
  assert (Hfw : solve_forward fuel _t0 _tvals y0 w1 = (Raise broadcast_error, w1))
    by (apply solve_forward_misfit; [rewrite Hsb; exact Hn | exact H1]).
  split.
  - unfold SolveODEAdjoint.perform.
    rewrite (bind_ok _ _ w wa tt Ha). rewrite (bind_ok _ _ wa w1 tt Hb).
    apply bind_raise. unfold try_except_SolverError. rewrite Hfw. reflexivity.
  - unfold SolveODEAdjointBackward.perform.
    rewrite (bind_ok _ _ w wa tt Ha). rewrite (bind_ok _ _ wa w1 tt Hb).
    apply bind_raise. unfold try_except_SolverError.
    rewrite (solve_both_forward_fails _ _ _ _ _ _ _ _ Hfw). reflexivity.
Qed.

(** *** No output time *)

Lemma solve_forward_no_times (fuel : nat) (t0 : float) (y0 : vec) (w : state) :
  length y0 = length (_state_buffer w) ->
  (exists w', solve_forward fuel t0 [] y0 w = (Ok tt, w'))
  \/ (exists c w', solve_forward fuel t0 [] y0 w = (Raise (CheckError c), w')).
Proof.
  intros Hy. unfold solve_forward.
  rewrite (bind_ok _ _ w w (_state_buffer w)) by reflexivity.
  rewrite (bind_ok _ _ w w y0)
    by (unfold lift; rewrite (assign_same_length _ y0 Hy); reflexivity).
  rewrite (bind_ok _ _ w (set_state_buffer w y0) tt) by reflexivity.
  rewrite (bind_ok _ _ _ (set_time_p (set_state_buffer w y0) t0) tt) by reflexivity.
  rewrite (bind_ok _ _ _ (set_n_check (set_time_p (set_state_buffer w y0) t0) 0) tt)
    by reflexivity.
  generalize (set_n_check (set_time_p (set_state_buffer w y0) t0) 0). intros u.
  unfold bind, call_CVodeReInit, call_CVodeAdjReInit, check, for_each, ret, raise.
  destruct (CVodeReInit _ _ _) as [r1 e1].
  destruct (check_ok r1); [| right; eauto].
  cbn [_ode set_ode log].
  destruct (CVodeAdjReInit _) as [r2 e2].
  destruct (check_ok r2); [left | right]; eauto.
Qed.

(** X11: without output times [SolveODEAdjointBackward.perform] cannot return:
    once the forward pass has reinitialised the engine, [self._tvals[-1]]
    raises [IndexError], which the [except SolverError] clause lets through
    (as it does the error of a refused reinitialisation); the result buffers
    are not filled with NaN. *)
Theorem backward_perform_without_times (fuel : nat) (_t0 : float)
    (y0 params params_fixed : vec) (grads : mat) (w w1 : state) :
  length y0 = length (_state_buffer w) ->
  params_set params params_fixed w w1 ->
  ((SolveODEAdjointBackward.perform fuel _t0 [] (y0, params, params_fixed, grads) w).1
   = Raise IndexError
   \/ exists c,
        (SolveODEAdjointBackward.perform fuel _t0 [] (y0, params, params_fixed, grads) w).1
        = Raise (CheckError c))
  /\ lamda_out
       (SolveODEAdjointBackward.perform fuel _t0 [] (y0, params, params_fixed, grads) w).2
     = lamda_out w
  /\ grad_out
       (SolveODEAdjointBackward.perform fuel _t0 [] (y0, params, params_fixed, grads) w).2
     = grad_out w.
Proof.
  intros Hy Hset. pose proof (params_set_state_buffer _ _ _ _ Hset) as Hsb.
  pose proof (params_set_keeps _ _ _ _ Hset) as Hkeep.
  destruct Hset as (wa & Ha & Hb).
  unfold SolveODEAdjointBackward.perform.
  rewrite (bind_ok _ _ w wa tt Ha). rewrite (bind_ok _ _ wa w1 tt Hb).
  pose proof (solve_forward_keeps fuel _t0 [] y0 w1) as Hfw. unfold keeps in Hfw.
  assert (Hboth : exists e w2,
             SolveODEAdjointBackward.solve_both fuel _t0 [] y0 grads w1 = (Raise e, w2)
             /\ backward_side w2 = backward_side w1
             /\ (e = IndexError \/ exists c, e = CheckError c)).
  { destruct (solve_forward_no_times fuel _t0 y0 w1 ltac:(congruence))
      as [(w2 & H2) | (c & w2 & H2)]; rewrite H2 in Hfw; cbn [snd] in Hfw.
    - exists IndexError, w2. split; [| split; [exact Hfw | left; reflexivity]].
      unfold SolveODEAdjointBackward.solve_both. rewrite (bind_ok _ _ w1 w2 tt H2).
      reflexivity.
    - exists (CheckError c), w2. split; [| split; [exact Hfw | right; eauto]].
      apply solve_both_forward_fails. exact H2. }
  destruct Hboth as (e & w2 & Hboth & Hside & He).
  assert (Htry : try_except_SolverError
                   (SolveODEAdjointBackward.solve_both fuel _t0 [] y0 grads)
                   SolveODEAdjointBackward.poison w1 = (Raise e, w2)).
  { unfold try_except_SolverError. rewrite Hboth.
    destruct He as [-> | [c ->]]; reflexivity. }
  rewrite (bind_raise _ _ w1 w2 e Htry). cbn [fst snd].
  unfold backward_side in Hside, Hkeep.
  split; [destruct He as [-> | [c ->]]; eauto |].
  split; congruence.
Qed.
End BackwardOperatorEdges.

(** X9 on the scripted engine: a failed solve hands out two arrays of length one. *)
Lemma backward_perform_keeps_sizes_witness :
  exists lamda gradient,
    (SolveODEAdjointBackward.perform (lib := Scripted.lib) 3 0%float [0%float; 1%float]
       ([5%float], [], [], [[1%float]; [1%float]]) forward_failing).1
    = Ok (lamda, gradient)
    /\ length lamda = 1%nat /\ length gradient = 1%nat.
Proof.
  eexists. eexists. split; [vm_compute; reflexivity |].
  apply (proj2 (backward_perform_keeps_sizes (lib := Scripted.lib) 3 0%float
                  [0%float; 1%float] [5%float] [] [] [[1%float]; [1%float]]
                  forward_failing)).
  vm_compute. reflexivity.
Defined.

(** X10 on the scripted engine: an initial state of three entries on a solver
    with one state. *)
Lemma misshapen_initial_state_raises_witness :
  SolveODEAdjoint.perform (lib := Scripted.lib) 5 0%float [0%float; 1%float; 2%float]
    ([1%float; 2%float; 3%float], [], []) adjoint_run
  = (Raise broadcast_error, adjoint_run)
  /\ SolveODEAdjointBackward.perform (lib := Scripted.lib) 5 0%float
       [0%float; 1%float; 2%float]
       ([1%float; 2%float; 3%float], [], [], [[1%float]; [1%float]; [1%float]]) adjoint_run
     = (Raise broadcast_error, adjoint_run).
Proof.
  apply (misshapen_initial_state_raises (lib := Scripted.lib) 5 0%float
           [0%float; 1%float; 2%float] [1%float; 2%float; 3%float] [] []
           [[1%float]; [1%float]; [1%float]] adjoint_run adjoint_run).
  - vm_compute. discriminate.
  - vm_compute. discriminate.
  - eexists. split; reflexivity.
Defined.

(** X11 on the scripted engine: no output time, and an engine that accepts
    both reinitialisations: [IndexError], and result buffers still zero. *)
Lemma backward_perform_without_times_witness :
  (SolveODEAdjointBackward.perform (lib := Scripted.lib) 5 0%float []
     ([1%float], [], [], []) adjoint_run).1 = Raise IndexError
  /\ AdjointSolver.lamda_out
       (SolveODEAdjointBackward.perform (lib := Scripted.lib) 5 0%float []
          ([1%float], [], [], []) adjoint_run).2 = [0%float]
  /\ AdjointSolver.grad_out
       (SolveODEAdjointBackward.perform (lib := Scripted.lib) 5 0%float []
          ([1%float], [], [], []) adjoint_run).2 = [0%float].
Proof.
  destruct (backward_perform_without_times (lib := Scripted.lib) 5 0%float [1%float] [] []
              [] adjoint_run adjoint_run eq_refl) as (_ & Hl & Hg).
  - eexists. split; reflexivity.
  - split; [vm_compute; reflexivity |]. split; [exact Hl | exact Hg].
Defined.

(** * A solve without sensitivities *)

Section HoareMore.
Context {W : Type}.

Lemma hoare_false {A} (P : W -> Prop) (m : M W A) Q E F :
  (forall w, P w -> False) -> hoare P m Q E F.
Proof. intros H w Hw. destruct (H w Hw). Qed.

Lemma hoare_lift {A} (P : W -> Prop) (r : result A) :
  hoare P (lift r) (fun _ => P) (fun _ => P) P.
Proof. intros w Hw. unfold lift. destruct r; exact Hw. Qed.

Lemma hoare_post {A} (P : W -> Prop) (m : M W A) (Q Q' : A -> W -> Prop)
    (E E' : exn -> W -> Prop) (F F' : W -> Prop) :
  hoare P m Q' E' F' ->
  (forall a w, Q' a w -> Q a w) -> (forall e w, E' e w -> E e w) ->
  (forall w, F' w -> F w) -> hoare P m Q E F.
Proof.
  intros Hm HQ HE HF w Hw. specialize (Hm w Hw).
  destruct (m w) as [[a | e |] w1]; auto.
Qed.

Lemma bind_agree {A B} (m : M W A) (k1 k2 : A -> M W B) (w : W) :
  (forall a w', m w = (Ok a, w') -> k1 a w' = k2 a w') -> bind m k1 w = bind m k2 w.
Proof.
  intros H. unfold bind. destruct (m w) as [[a | e |] w'] eqn:E; auto.
Qed.

Lemma bind_agree_hoare {A B} (P : W -> Prop) (m : M W A) (Q : A -> W -> Prop) E F
    (k1 k2 : A -> M W B) (w : W) :
  hoare P m Q E F -> P w -> (forall a w', Q a w' -> k1 a w' = k2 a w') ->
  bind m k1 w = bind m k2 w.
Proof.
  intros Hm Hw H. unfold bind. specialize (Hm w Hw).
  destruct (m w) as [[a | e |] w']; auto.
Qed.

(** Two loop bodies that agree on the worlds of [P], one of which keeps [P]
    where it completes, give the same loop from a world of [P]. *)
Lemma for_each_agree {A} (P : W -> Prop) (body1 body2 : nat -> A -> M W unit) E F :
  (forall i x w, P w -> body1 i x w = body2 i x w) ->
  (forall i x, hoare P (body1 i x) (fun _ => P) E F) ->
  forall l i w, P w -> for_each body1 i l w = for_each body2 i l w.
Proof.
  intros Heq Hinv l. induction l as [| x l IH]; intros i w Hw; [reflexivity |].
  cbn [for_each]. unfold bind. rewrite <- (Heq i x w Hw).
  specialize (Hinv i x w Hw).
  destruct (body1 i x w) as [[[] | e |] w1]; [apply IH; exact Hinv | reflexivity..].
Qed.
End HoareMore.

Section PlainSolve.
Context {lib : Sundials}.
Import Solver.
Context (so : option tensor3) (sb : mat) (tr0 : list event).

Lemma plain_log (w : state) (e : engine) (ev : event) :
  plain_event ev -> plain so sb tr0 w -> plain so sb tr0 (log (set_ode w e) ev).
Proof.
  intros Hev (Hc & Hso & Hsb & tr & Htr & Hall).
  repeat split; try assumption.
  exists (tr ++ [ev]). split; [simpl; rewrite Htr, app_assoc; reflexivity |].
  apply Forall_app. split; [exact Hall | repeat constructor; exact Hev].
Qed.

Ltac forget_value :=
  eapply hoare_bind; [apply hoare_gets |]; intros ?;
  apply (hoare_pre _ (plain so sb tr0)); [| intros ? [? _]; assumption].

Ltac read_compute_sens :=
  eapply hoare_bind; [apply hoare_gets |]; intros [|];
  [ apply hoare_false; intros ? [(? & _) ?]; congruence
  | apply (hoare_pre _ (plain so sb tr0)); [| intros ? [? _]; assumption] ].

Ltac keep_plain :=
  apply (hoare_bind _ _ (fun _ => plain so sb tr0)).

Ltac plain_fields :=
  let Hc := fresh in let Hso := fresh in let Hsb := fresh in let Htr := fresh in
  intros ? (Hc & Hso & Hsb & Htr); repeat split; assumption.

Lemma plain_write_y_out (i : nat) (v : vec) : plain_inv so sb tr0 (write_y_out i v).
Proof.
  unfold plain_inv, write_y_out. forget_value.
  keep_plain; [apply hoare_lift |]. intros out'.
  apply hoare_modify. plain_fields.
Qed.

Lemma plain_call_CVode (t : float) : plain_inv so sb tr0 (call_CVode t).
Proof.
  intros w Hw. unfold call_CVode. destruct (CVode _ _ _ _ _) as [[[r e] y] tp].
  destruct Hw as (Hc & Hso & Hsb & tr & Htr & Hall).
  repeat split; try assumption.
  exists (tr ++ [EvCVode t CV_NORMAL]). split; [simpl; rewrite Htr, app_assoc; reflexivity |].
  apply Forall_app. split; [exact Hall | repeat constructor].
Qed.

Lemma plain_step_loop (fuel : nat) (t : float) :
  plain_inv so sb tr0 (step_loop call_CVode fuel t).
Proof.
  apply hoare_step_while; [auto | auto | apply plain_call_CVode].
Qed.

Lemma plain_solve_body (fuel : nat) (t0 : float) (y0 : vec) (sens0 : option mat)
    (i : nat) (t : float) :
  plain_inv so sb tr0 (solve_body fuel t0 y0 sens0 i t).
Proof.
  unfold plain_inv, solve_body. destruct (PrimFloat.eqb t t0).
  - keep_plain; [apply plain_write_y_out |]. intros u.
    read_compute_sens. apply hoare_ret. auto.
  - keep_plain; [apply plain_step_loop |].
    intros u. forget_value.
    keep_plain; [apply plain_write_y_out |]. intros u'.
    read_compute_sens. apply hoare_ret. auto.
Qed.

Lemma plain_solve (fuel : nat) (t0 : float) (tvals : list float) (y0 : vec)
    (sens0 : option mat) :
  plain_inv so sb tr0 (solve fuel t0 tvals y0 sens0).
Proof.
  unfold plain_inv, solve. read_compute_sens. forget_value. cbn [andb]. cbv iota.
  keep_plain; [apply hoare_ret; auto |]. intros u.
  forget_value.
  keep_plain; [apply hoare_lift |]. intros y.
  keep_plain; [apply hoare_modify; plain_fields |]. intros u1.
  keep_plain; [apply hoare_modify; plain_fields |]. intros u2.
  keep_plain.
  { intros w Hw. unfold call_CVodeReInit. destruct (CVodeReInit _ _ _) as [r e].
    apply plain_log; [exact I | exact Hw]. }
  intros r.
  keep_plain; [apply hoare_check; auto |]. intros u3.
  keep_plain; [apply hoare_ret; auto |]. intros u4.
  apply (hoare_for_each _ _ _ _ (length tvals)); [| simpl; lia].
  intros i t _. apply plain_solve_body.
Qed.

(** With sensitivities off, an iteration does not look at [sens0]. *)
Lemma solve_body_ignores_sens0 (fuel : nat) (t0 : float) (y0 : vec) (sens0 : option mat)
    (i : nat) (t : float) (w : state) :
  plain so sb tr0 w ->
  solve_body fuel t0 y0 sens0 i t w = solve_body fuel t0 y0 None i t w.
Proof.
  assert (Hend : forall (k1 k2 : M state unit) u,
             plain so sb tr0 u ->
             (cs <- gets _compute_sens ;; if cs then k1 else ret tt) u
             = (cs <- gets _compute_sens ;; if cs then k2 else ret tt) u).
  { intros k1 k2 u Hu. unfold bind, gets. rewrite (proj1 Hu). reflexivity. }
  intros Hw. unfold solve_body. destruct (PrimFloat.eqb t t0).
  - apply bind_agree. intros [] w1 H1.
    pose proof (plain_write_y_out 0 y0 w Hw) as Hinv. rewrite H1 in Hinv.
    apply Hend. exact Hinv.
  - apply bind_agree. intros [] w1 H1.
    pose proof (plain_step_loop fuel t w Hw) as Hinv. rewrite H1 in Hinv.
    apply bind_agree. intros sd w1' [= <- <-].
    apply bind_agree. intros [] w2 H2.
    pose proof (plain_write_y_out i (_state_buffer w1) w1 Hinv) as Hinv2.
    rewrite H2 in Hinv2.
    apply Hend. exact Hinv2.
Qed.
Ltac agree_step tac :=
  apply (bind_agree_hoare (plain so sb tr0) _ (fun _ => plain so sb tr0)
           (fun _ => plain so sb tr0) (plain so sb tr0));
  [tac | assumption | intros ? ? ?].

Lemma solve_ignores_sens0 (fuel : nat) (t0 : float) (tvals : list float) (y0 : vec)
    (sens0 : option mat) (w : state) :
  plain so sb tr0 w ->
  solve fuel t0 tvals y0 sens0 w = solve fuel t0 tvals y0 None w.
Proof.
  intros Hw. unfold solve.
  apply bind_agree. intros cs w1 [= <- <-]. rewrite (proj1 Hw).
  apply bind_agree. intros so' w1 [= <- <-]. cbn [andb]. cbv iota.
  agree_step ltac:(apply hoare_ret; auto).
  apply bind_agree. intros sd w1 [= <- <-].
  agree_step ltac:(apply hoare_lift).
  agree_step ltac:(apply hoare_modify; plain_fields).
  agree_step ltac:(apply hoare_modify; plain_fields).
  agree_step ltac:(intros u Hu; unfold call_CVodeReInit;
                   destruct (CVodeReInit _ _ _) as [r e];
                   apply plain_log; [exact I | exact Hu]).
  agree_step ltac:(apply hoare_check; auto).
  agree_step ltac:(apply hoare_ret; auto).
  apply (for_each_agree (plain so sb tr0) _ _ (fun _ => plain so sb tr0) (plain so sb tr0));
    [| intros; apply plain_solve_body | assumption].
  intros i t u Hu. apply solve_body_ignores_sens0. exact Hu.
Qed.
End PlainSolve.

Section PlainSolveResult.
Context {lib : Sundials}.
Import Solver.

(** X12: on a solver built without sensitivities, [solve] does not look at the
    keyword argument [sens0], leaves [sens_out] and the sensitivity buffers
    as they are, and asks the engine for nothing but the reinitialisation
    and the steps: no sensitivity is reinitialised or read, whatever the
    outcome of the solve. *)
Theorem solve_without_sensitivities (fuel : nat) (t0 : float) (tvals : list float)
    (y0 : vec) (sens0 : option mat) (w : state) :
  _compute_sens w = false ->
  solve fuel t0 tvals y0 sens0 w = solve fuel t0 tvals y0 None w
  /\ sens_out (solve fuel t0 tvals y0 sens0 w).2 = sens_out w
  /\ _sens_buffers (solve fuel t0 tvals y0 sens0 w).2 = _sens_buffers w
  /\ exists tr, trace (solve fuel t0 tvals y0 sens0 w).2 = trace w ++ tr
                /\ Forall plain_event tr.
Proof.
  intros Hc.
  assert (Hw : plain (sens_out w) (_sens_buffers w) (trace w) w).
  { repeat split; try assumption. exists []. split; [symmetry; apply app_nil_r | constructor]. }
  split; [apply (solve_ignores_sens0 _ _ _ _ _ _ _ _ _ Hw) |].
  pose proof (plain_solve _ _ _ fuel t0 tvals y0 sens0 w Hw) as H.
  destruct (solve fuel t0 tvals y0 sens0 w) as [[[] | e |] w'];
    destruct H as (_ & Hso & Hsb & Htr); auto.
Qed.
End PlainSolveResult.

(** X12 on the scripted engine: a solver without sensitivities called with a
    [sens0]. *)
Lemma solve_without_sensitivities_witness :
  let out := Solver.solve (lib := Scripted.lib) 5 0%float [0%float; 1%float]
               [3%float; 4%float] (Some [[1%float; 0%float]])
               (Scripted.solver false 2 1 2 []) in
  out = Solver.solve (lib := Scripted.lib) 5 0%float [0%float; 1%float]
          [3%float; 4%float] None (Scripted.solver false 2 1 2 [])
  /\ Solver.sens_out out.2 = None
  /\ Solver._sens_buffers out.2 = [[0%float; 0%float]]
  /\ exists tr, Solver.trace out.2 = [] ++ tr /\ Forall plain_event tr.
Proof.
  apply (solve_without_sensitivities (lib := Scripted.lib) 5 0%float [0%float; 1%float]
           [3%float; 4%float] (Some [[1%float; 0%float]]) (Scripted.solver false 2 1 2 [])).
  reflexivity.
Defined.


(** * The requests of a completed forward pass *)

Section ForwardRequests.
Context {lib : Sundials}.
Import AdjointSolver.

Lemma step_while_trace (fuel : nat) :
  forall (retval : Z) (t : float) (w w' : state),
    step_while call_CVodeF fuel retval t w = (Ok tt, w') ->
    exists n, trace w' = trace w ++ replicate n (EvCVodeF t CV_NORMAL)
              /\ (retval = CV_TOO_MUCH_WORK -> (0 < n)%nat).
Proof.
  induction fuel as [| fuel IH]; intros retval t w w'; simpl;
    destruct (retval =? CV_TOO_MUCH_WORK)%Z eqn:E.
  - discriminate.
  - intros [= <-]. exists 0%nat. split; [symmetry; apply app_nil_r |].
    intros ->. rewrite Z.eqb_refl in E. discriminate.
  - unfold bind at 1. unfold call_CVodeF.
    destruct (CVodeF _ _ _ _ _ _) as [[[[r e] y] tp] nc].
    destruct (negb (r =? CV_TOO_MUCH_WORK)%Z && negb (r =? 0)%Z).
    + unfold bind, errors_lookup. destruct (ERRORS !! r); discriminate.
    + intros H. apply IH in H as (n & Htr & _). exists (S n). split; [| lia].
      rewrite Htr. simpl. rewrite <- app_assoc. reflexivity.
  - intros [= <-]. exists 0%nat. split; [symmetry; apply app_nil_r |].
    intros ->. rewrite Z.eqb_refl in E. discriminate.
Qed.

Lemma write_y_out_trace (i : nat) (v : vec) (w w' : state) (r : result unit) :
  write_y_out i v w = (r, w') -> trace w' = trace w.
Proof.
  unfold write_y_out, bind, gets, lift, modify.
  destruct (set_row (y_out w) i v); intros [= <- <-]; reflexivity.
Qed.

Lemma solve_forward_body_trace (fuel : nat) (t0 : float) (y0 : vec) (i : nat) (t : float)
    (w w' : state) :
  solve_forward_body fuel t0 y0 i t w = (Ok tt, w') ->
  if PrimFloat.eqb t t0 then trace w' = trace w
  else exists n, trace w' = trace w ++ replicate (S n) (EvCVodeF t CV_NORMAL).
Proof.
  unfold solve_forward_body. destruct (PrimFloat.eqb t t0).
  - apply write_y_out_trace.
  - intros H. apply bind_inv in H as [(a & w1 & Hm & Hk) | [(e & _ & He) | (_ & He)]];
      try discriminate.
    destruct a. apply step_while_trace in Hm as (n & Htr & Hpos).
    apply bind_inv in Hk as [(sd & w2 & Hg & Hk) | [(e & _ & He) | (_ & He)]];
      try discriminate.
    injection Hg as <- <-. apply write_y_out_trace in Hk.
    destruct n as [| n]; [specialize (Hpos eq_refl); lia |].
    exists n. rewrite Hk. exact Htr.
Qed.

Lemma forward_loop_trace (fuel : nat) (t0 : float) (y0 : vec) (tvals : list float) :
  forall (i : nat) (w w' : state),
    for_each (solve_forward_body fuel t0 y0) i tvals w = (Ok tt, w') ->
    exists counts,
      length counts = length (stepped_times t0 tvals)
      /\ trace w' = trace w ++ forward_requests (stepped_times t0 tvals) counts.
Proof.
  induction tvals as [| t tvals IH]; intros i w w' H.
  - injection H as <-. exists []. split; [reflexivity | symmetry; apply app_nil_r].
  - cbn [for_each] in H.
    apply bind_inv in H as [(a & w1 & Hm & Hk) | [(e & _ & He) | (_ & He)]];
      try discriminate.
    destruct a. apply solve_forward_body_trace in Hm.
    apply IH in Hk as (counts & Hlen & Htr).
    unfold stepped_times in *. cbn [List.filter].
    destruct (PrimFloat.eqb t t0); cbn [negb].
    + exists counts. split; [exact Hlen |]. rewrite Htr, Hm. reflexivity.
    + destruct Hm as (n & Hm). exists (n :: counts). split; [simpl; lia |].
      rewrite Htr, Hm. unfold forward_requests. cbn [zip_with concat].
      rewrite <- !app_assoc. reflexivity.
Qed.

(** X7: a forward pass that completes has asked the engine, in this order, for
    the reinitialisation at [t0] with the initial state, for the
    reinitialisation of the adjoint module, and then for one or more steps
    to each output time that differs from [t0], the output times taken in
    the order of [tvals]; an output time equal to [t0] costs no request. *)
Theorem forward_requests_follow_output_times (fuel : nat) (t0 : float)
    (tvals : list float) (y0 : vec) (w w' : state) :
  solve_forward fuel t0 tvals y0 w = (Ok tt, w') ->
  exists y counts,
    assign (_state_buffer w) y0 = Ok y
    /\ length counts = length (stepped_times t0 tvals)
    /\ trace w'
       = trace w ++ [EvReInit t0 y; EvAdjReInit]
         ++ forward_requests (stepped_times t0 tvals) counts.
Proof.
  unfold solve_forward. intros H.
  apply bind_inv in H as [(sd & w1 & Hm & H) | [(e & _ & He) | (_ & He)]]; try discriminate.
  injection Hm as <- <-.
  apply bind_inv in H as [(y & w1 & Hm & H) | [(e & _ & He) | (_ & He)]]; try discriminate.
  unfold lift in Hm. injection Hm as Hy <-.
  apply bind_inv in H as [(u & w1 & Hm & H) | [(e & _ & He) | (_ & He)]]; try discriminate.
  injection Hm as <-.
  apply bind_inv in H as [(u1 & w2 & Hm & H) | [(e & _ & He) | (_ & He)]]; try discriminate.
  injection Hm as <-.
  apply bind_inv in H as [(u2 & w3 & Hm & H) | [(e & _ & He) | (_ & He)]]; try discriminate.
  injection Hm as <-.
  apply bind_inv in H as [(r1 & w4 & Hm & H) | [(e & _ & He) | (_ & He)]]; try discriminate.
  unfold call_CVodeReInit in Hm. destruct (CVodeReInit _ _ _) as [c1 e1] in Hm.
  injection Hm as <- <-.
  apply bind_inv in H as [(u3 & w5 & Hm & H) | [(e & _ & He) | (_ & He)]]; try discriminate.
  apply check_inv in Hm as [-> _].
  apply bind_inv in H as [(r2 & w6 & Hm & H) | [(e & _ & He) | (_ & He)]]; try discriminate.
  unfold call_CVodeAdjReInit in Hm. destruct (CVodeAdjReInit _) as [c2 e2] in Hm.
  injection Hm as <- <-.
  apply bind_inv in H as [(u4 & w7 & Hm & H) | [(e & _ & He) | (_ & He)]]; try discriminate.
  apply check_inv in Hm as [-> _].
  destruct (forward_loop_trace fuel t0 y0 tvals 0 _ _ H) as (counts & Hlen & Htr).
  exists y, counts. split; [exact Hy |]. split; [exact Hlen |].
  rewrite Htr. subst.
  cbn [trace log set_ode set_n_check set_time_p set_state_buffer _state_buffer].
  rewrite <- !app_assoc. reflexivity.
Qed.
End ForwardRequests.

(** X7 on the scripted engine: output times [0, 1, 2] from [t0 = 0]: the
    steps go to [1] and [2]. *)
Lemma forward_requests_follow_output_times_witness :
  exists y counts,
    assign (AdjointSolver._state_buffer adjoint_run) [1%float] = Ok y
    /\ length counts = length (stepped_times 0%float [0%float; 1%float; 2%float])
    /\ AdjointSolver.trace
         (AdjointSolver.solve_forward (lib := Scripted.lib) 5 0%float
            [0%float; 1%float; 2%float] [1%float] adjoint_run).2
       = AdjointSolver.trace adjoint_run ++ [EvReInit 0%float y; EvAdjReInit]
         ++ forward_requests (lib := Scripted.lib)
              (stepped_times 0%float [0%float; 1%float; 2%float]) counts.
Proof.
  apply (forward_requests_follow_output_times (lib := Scripted.lib) 5 0%float
           [0%float; 1%float; 2%float] [1%float] adjoint_run).
  vm_compute. reflexivity.
Defined.

(** * Tolerances the engine refuses *)

Section RefusedTolerances.
Context {lib : Sundials}.

Lemma Solver_setter_refused (kind : tol_kind) f (rtol atol : ndarray) (w : Solver.state) :
  match (_ <- (r <- Solver.call_tolerances kind f rtol atol ;; check r) ;;
         modify (fun w => Solver.set_tols w atol rtol)) w with
  | (Ok _, w') => Solver._atol w' = atol /\ Solver._rtol w' = rtol
  | (Raise e, w') =>
      (exists c, e = CheckError c)
      /\ Solver._atol w' = Solver._atol w /\ Solver._rtol w' = Solver._rtol w
  | (OutOfFuel, _) => False
  end.
Proof.
  unfold bind, Solver.call_tolerances, check, modify, ret, raise.
  destruct (f _ _ _) as [r e]. destruct (check_ok r); simpl; eauto.
Qed.

Lemma AdjointSolver_setter_refused (kind : tol_kind) f (rtol atol : ndarray)
    (w : AdjointSolver.state) :
  match (_ <- (r <- AdjointSolver.call_tolerances kind f rtol atol ;; check r) ;;
         modify (fun w => AdjointSolver.set_tols w atol rtol)) w with
  | (Ok _, w') => AdjointSolver._atol w' = atol /\ AdjointSolver._rtol w' = rtol
  | (Raise e, w') =>
      (exists c, e = CheckError c)
      /\ AdjointSolver._atol w' = AdjointSolver._atol w
      /\ AdjointSolver._rtol w' = AdjointSolver._rtol w
  | (OutOfFuel, _) => False
  end.
Proof.
  unfold bind, AdjointSolver.call_tolerances, check, modify, ret, raise.
  destruct (f _ _ _) as [r e]. destruct (check_ok r); simpl; eauto.
Qed.

(** X13: [_set_tolerances] of both solvers stores the pair only once the engine
    has taken it: where the call raises, for a status of the engine that
    [check] refuses or for ranks without a setter, [self._atol] and
    [self._rtol] are the ones stored before, and the call raises nothing
    else. *)
Theorem tolerances_stored_only_when_accepted (atol rtol : ndarray) :
  (forall w : Solver.state,
     match Solver._set_tolerances atol rtol w with
     | (Ok _, w') => Solver._atol w' = atol /\ Solver._rtol w' = rtol
     | (Raise e, w') =>
         ((exists c, e = CheckError c) \/ e = ValueError "Invalid tolerance.")
         /\ Solver._atol w' = Solver._atol w /\ Solver._rtol w' = Solver._rtol w
     | (OutOfFuel, _) => False
     end)
  /\ (forall w : AdjointSolver.state,
        match AdjointSolver._set_tolerances atol rtol w with
        | (Ok _, w') => AdjointSolver._atol w' = atol /\ AdjointSolver._rtol w' = rtol
        | (Raise e, w') =>
            ((exists c, e = CheckError c) \/ e = ValueError "Invalid tolerance.")
            /\ AdjointSolver._atol w' = AdjointSolver._atol w
            /\ AdjointSolver._rtol w' = AdjointSolver._rtol w
        | (OutOfFuel, _) => False
        end).
Proof.
  split; intros w.
  - unfold Solver._set_tolerances.
    repeat match goal with
           | |- context [if ?b then _ else _] => destruct b
           end;
      try (pose proof (Solver_setter_refused) as H;
           match goal with
           | |- context [Solver.call_tolerances ?k ?f rtol atol] =>
               specialize (H k f rtol atol w)
           end;
           destruct (bind _ _ w) as [[[] | e |] w']; [exact H | | exact H];
           destruct H as (Hc & Ha & Hr); auto).
    simpl. auto.
  - unfold AdjointSolver._set_tolerances.
    repeat match goal with
           | |- context [if ?b then _ else _] => destruct b
           end;
      try (pose proof (AdjointSolver_setter_refused) as H;
           match goal with
           | |- context [AdjointSolver.call_tolerances ?k ?f rtol atol] =>
               specialize (H k f rtol atol w)
           end;
           destruct (bind _ _ w) as [[[] | e |] w']; [exact H | | exact H];
           destruct H as (Hc & Ha & Hr); auto).
    simpl. auto.
Qed.
End RefusedTolerances.

(** * A [Solver] on its own output buffers *)

Lemma sized_lookup {A : Type} (P : A -> Prop) (k : nat) (l : list A) (i : nat) :
  length l = k -> Forall P l -> (i < k)%nat -> exists x, l !! i = Some x /\ P x.
Proof.
  intros Hlen HP Hi. destruct (lookup_lt_is_Some_2 l i ltac:(lia)) as [x Hx].
  exists x. split; [exact Hx |]. eapply (proj1 (Forall_lookup _ _) HP); eauto.
Qed.

Lemma sized_insert {A : Type} (P : A -> Prop) (k : nat) (l : list A) (i : nat) (v : A) :
  length l = k -> Forall P l -> P v ->
  length (<[i := v]> l) = k /\ Forall P (<[i := v]> l).
Proof.
  intros Hlen HP Hv. split; [rewrite length_insert; exact Hlen |].
  apply Forall_insert; assumption.
Qed.

Lemma rows_shape (k n : nat) (m : mat) : rows k n m <-> map length m = replicate k n.
Proof.
  revert k. induction m as [| r m IH]; intros k; unfold rows in *; simpl.
  - destruct k; simpl; split; try discriminate; auto. intros [H _]. discriminate.
  - destruct k as [| k]; simpl.
    + split; [intros [H _]; discriminate | discriminate].
    + rewrite Forall_cons. specialize (IH k). split.
      * intros [Hl [Hr Hm]]. rewrite Hr. f_equal. apply IH. split; [lia | exact Hm].
      * intros [= Hr Hm]. apply IH in Hm as [Hl Hm]. auto.
Qed.

Section HoareItems.
Context {W : Type}.

(** A loop whose body keeps [P] for the items in [good] keeps it over a list
    of such items. *)
Lemma hoare_for_each_items {A} (P : W -> Prop) (E : exn -> W -> Prop) F
    (body : nat -> A -> M W unit) (good : A -> Prop) :
  (forall i x, good x -> hoare P (body i x) (fun _ => P) E F) ->
  forall l, Forall good l -> forall i, hoare P (for_each body i l) (fun _ => P) E F.
Proof.
  intros Hb l Hl. induction Hl as [| x l Hx _ IH]; intros i; simpl.
  - intros w Hw. exact Hw.
  - eapply hoare_bind; [apply Hb; exact Hx |]. intros u. apply IH.
Qed.

Lemma hoare_lift_ok {A} (P : W -> Prop) (E : exn -> W -> Prop) F (r : result A) (a : A) :
  (forall w, P w -> r = Ok a) -> hoare P (lift r) (fun x w => P w /\ x = a) E F.
Proof.
  intros H w Hw. unfold lift. rewrite (H w Hw). split; [exact Hw | reflexivity].
Qed.
End HoareItems.

Section SolverBuffers.
Context {lib : Sundials}.
Import Solver.
Context (n p k : nat).

Ltac keep_fits cs :=
  apply (hoare_bind _ _ (fun _ => solver_fits cs n p k)).

Ltac drop_value cs :=
  eapply hoare_bind; [apply hoare_gets |]; intros ?;
  apply (hoare_pre _ (solver_fits cs n p k)); [| intros ? [? _]; assumption].

(** Reading [self._compute_sens] in a world where it is [cs]: the other
    value does not occur. *)
Ltac read_sens cs :=
  eapply hoare_bind; [apply hoare_gets |];
  intros [|];
  first
    [ apply hoare_false; intros ? [(? & _) ?]; congruence
    | apply (hoare_pre _ (solver_fits cs n p k)); [| intros ? [? _]; assumption] ].

Lemma sfits_write_y_out (cs : bool) (i : nat) (v : vec) :
  (i < k)%nat -> length v = n -> fits_inv cs n p k (write_y_out i v).
Proof.
  intros Hi Hv w (Hc & Hs & [Hk Hrows] & Hsens).
  destruct (sized_lookup _ k _ i Hk Hrows Hi) as (row & Hrow & Hlen).
  assert (Hvr : length v = length row) by congruence.
  rewrite (write_y_out_exact i v row w Hrow Hvr).
  split; [exact Hc |]. split; [exact Hs |]. split; [| exact Hsens].
  split; simpl; [rewrite length_insert; exact Hk | apply Forall_insert; assumption].
Qed.

Lemma sfits_write_state (cs : bool) (i : nat) (sd : vec) :
  (i < k)%nat ->
  hoare (fun w => solver_fits cs n p k w /\ sd = _state_buffer w) (write_y_out i sd)
    (fun _ => solver_fits cs n p k) from_engine (solver_fits cs n p k).
Proof.
  intros Hi w [Hw ->]. apply sfits_write_y_out; [exact Hi | apply Hw | exact Hw].
Qed.

Lemma sfits_call_CVode (cs : bool) (t : float) : fits_inv cs n p k (call_CVode t).
Proof.
  intros w (Hc & Hs & Hy & Hsens). unfold call_CVode.
  pose proof (CVode_length (_ode w) t (_state_buffer w) (time_p w) CV_NORMAL) as L.
  destruct (CVode _ _ _ _ _) as [[[r e] y] tp]. simpl in L.
  split; [exact Hc |]. split; [simpl; congruence |]. split; [exact Hy | exact Hsens].
Qed.

Lemma sfits_step_loop (cs : bool) (fuel : nat) (t : float) :
  fits_inv cs n p k (step_loop call_CVode fuel t).
Proof.
  apply hoare_step_while; [intros; exact I | intros; exact I | apply sfits_call_CVode].
Qed.

Lemma sfits_load_sens_row (s0 : mat) (i : nat) :
  rows p n s0 -> (i < p)%nat -> fits_inv true n p k (load_sens_row (Some s0) i).
Proof.
  intros [Hl0 Hr0] Hi w (Hc & Hs & Hy & Hsens).
  destruct (Hsens eq_refl) as (Hp & [Hlb Hrb] & Hso).
  destruct (sized_lookup _ p _ i Hlb Hrb Hi) as (buf & Hbuf & Hblen).
  destruct (sized_lookup _ p _ i Hl0 Hr0 Hi) as (row & Hrow & Hrlen).
  assert (Hfit : length row = length buf) by congruence.
  unfold load_sens_row, bind, gets. rewrite Hbuf, Hrow. unfold lift.
  rewrite (assign_same_length buf row Hfit). cbn [modify fst snd].
  split; [exact Hc |]. split; [exact Hs |]. split; [exact Hy |]. intros _.
  split; [exact Hp |]. split; [| exact Hso].
  split; simpl; [rewrite length_insert; exact Hlb | apply Forall_insert; assumption].
Qed.

Lemma sfits_call_CVodeSensReInit (cs : bool) : fits_inv cs n p k call_CVodeSensReInit.
Proof.
  intros w Hw. unfold call_CVodeSensReInit. destruct (CVodeSensReInit _ _ _) as [r e].
  exact Hw.
Qed.

Lemma sfits_call_CVodeReInit (cs : bool) (t0 : float) :
  fits_inv cs n p k (call_CVodeReInit t0).
Proof.
  intros w Hw. unfold call_CVodeReInit. destruct (CVodeReInit _ _ _) as [r e]. exact Hw.
Qed.

Lemma sfits_call_CVodeGetSens : fits_inv true n p k call_CVodeGetSens.
Proof.
  intros w (Hc & Hs & Hy & Hsens). unfold call_CVodeGetSens.
  pose proof (CVodeGetSens_shape (_ode w) (time_p w) (_sens_buffers w)) as L.
  destruct (CVodeGetSens _ _ _) as [[r tp] yS]. simpl in L.
  destruct (Hsens eq_refl) as (Hp & Hb & Hso).
  split; [exact Hc |]. split; [exact Hs |]. split; [exact Hy |]. intros _.
  split; [exact Hp |]. split; [| exact Hso].
  apply rows_shape. simpl. rewrite L. apply rows_shape. exact Hb.
Qed.

Lemma sfits_write_sens_row (i j : nat) :
  (i < k)%nat -> (j < p)%nat -> fits_inv true n p k (write_sens_row i j).
Proof.
  intros Hi Hj w (Hc & Hs & Hy & Hsens).
  destruct (Hsens eq_refl) as (Hp & [Hlb Hrb] & so & Hso & [Hlso Hrso]).
  destruct (sized_lookup _ p _ j Hlb Hrb Hj) as (buf & Hbuf & Hblen).
  destruct (sized_lookup _ k _ i Hlso Hrso Hi) as (blk & Hblk & [Hlblk Hrblk]).
  destruct (sized_lookup _ p _ j Hlblk Hrblk Hj) as (row & Hrow & Hrlen).
  assert (Hfit : length buf = length row) by congruence.
  unfold write_sens_row, bind, gets. rewrite Hso, Hbuf, Hblk. unfold lift.
  rewrite (set_row_exact blk j buf row Hrow Hfit). cbn [modify fst snd].
  split; [exact Hc |]. split; [exact Hs |]. split; [exact Hy |]. intros _.
  split; [exact Hp |]. split; [split; assumption |].
  eexists. split; [reflexivity |].
  split; [rewrite length_insert; exact Hlso |].
  apply Forall_insert; [exact Hrso |].
  split; [rewrite length_insert; exact Hlblk | apply Forall_insert; assumption].
Qed.

Lemma sfits_write_sens_block (s0 : mat) :
  rows p n s0 -> (0 < k)%nat -> fits_inv true n p k (write_sens_block (Some s0)).
Proof.
  intros Hs0 Hk w (Hc & Hs & Hy & Hsens).
  destruct (Hsens eq_refl) as (Hp & Hb & so & Hso & [Hlso Hrso]).
  destruct (sized_lookup _ k _ 0%nat Hlso Hrso Hk) as (blk & Hblk & Hrblk).
  assert (Hfit : map length s0 = map length blk).
  { rewrite (proj1 (rows_shape _ _ _) Hs0), (proj1 (rows_shape _ _ _) Hrblk).
    reflexivity. }
  unfold write_sens_block, bind, gets. rewrite Hso, Hblk. unfold lift.
  rewrite (assign2_exact blk s0 Hfit). cbn [modify fst snd].
  split; [exact Hc |]. split; [exact Hs |]. split; [exact Hy |]. intros _.
  split; [exact Hp |]. split; [exact Hb |].
  eexists. split; [reflexivity |].
  split; [rewrite length_insert; exact Hlso |].
  apply Forall_insert; assumption.
Qed.

Lemma seq_below (m : nat) : Forall (fun j => (j < m)%nat) (seq 0 m).
Proof. apply Forall_forall. intros j Hj. apply list_elem_of_In, in_seq in Hj. lia. Qed.

Lemma sfits_solve_body_plain (fuel : nat) (t0 : float) (y0 : vec) (sens0 : option mat)
    (i : nat) (t : float) :
  (i < k)%nat -> length y0 = n ->
  fits_inv false n p k (solve_body fuel t0 y0 sens0 i t).
Proof.
  intros Hi Hy. unfold fits_inv, solve_body. destruct (PrimFloat.eqb t t0).
  - keep_fits false; [apply sfits_write_y_out; [lia | exact Hy] |]. intros u.
    read_sens false. apply hoare_ret. auto.
  - keep_fits false; [apply sfits_step_loop |]. intros u.
    eapply hoare_bind; [apply hoare_gets |]. intros sd.
    keep_fits false; [apply sfits_write_state; exact Hi |]. intros u'.
    read_sens false. apply hoare_ret. auto.
Qed.

Lemma sfits_solve_body_sens (fuel : nat) (t0 : float) (y0 : vec) (s0 : mat)
    (i : nat) (t : float) :
  (i < k)%nat -> length y0 = n -> rows p n s0 ->
  fits_inv true n p k (solve_body fuel t0 y0 (Some s0) i t).
Proof.
  intros Hi Hy Hs0. unfold fits_inv, solve_body. destruct (PrimFloat.eqb t t0).
  - keep_fits true; [apply sfits_write_y_out; [lia | exact Hy] |]. intros u.
    read_sens true. apply sfits_write_sens_block; [exact Hs0 | lia].
  - keep_fits true; [apply sfits_step_loop |]. intros u.
    eapply hoare_bind; [apply hoare_gets |]. intros sd.
    keep_fits true; [apply sfits_write_state; exact Hi |]. intros u'.
    read_sens true.
    keep_fits true; [apply sfits_call_CVodeGetSens |]. intros r.
    keep_fits true; [apply hoare_check; intros; exact I |]. intros u''.
    eapply hoare_bind; [apply hoare_gets |]. intros np.
    intros w [Hw ->].
    destruct Hw as (Hc & Hs & Hyo & Hsens). destruct (Hsens eq_refl) as (Hp & _).
    rewrite Hp.
    apply (hoare_for_each_items _ _ _ _ (fun j => (j < p)%nat));
      [| apply seq_below | split; [exact Hc |]; split; [exact Hs |]; split; [exact Hyo | exact Hsens]].
    intros j' j Hj. apply sfits_write_sens_row; assumption.
Qed.

Lemma sfits_solve_plain (fuel : nat) (t0 : float) (tvals : list float) (y0 : vec)
    (sens0 : option mat) :
  length y0 = n -> (length tvals <= k)%nat ->
  fits_inv false n p k (solve fuel t0 tvals y0 sens0).
Proof.
  intros Hy Hk. unfold fits_inv, solve.
  read_sens false. drop_value false. cbn [andb]. cbv iota.
  keep_fits false; [apply hoare_ret; auto |]. intros u.
  eapply hoare_bind; [apply hoare_gets |]. intros sd.
  eapply hoare_bind.
  { apply (hoare_lift_ok _ _ _ _ y0). intros w [Hw ->].
    apply assign_same_length. rewrite Hy. symmetry. apply Hw. }
  intros y.
  keep_fits false.
  { apply hoare_modify. intros w [[(Hc & Hs & Hrest) _] ->].
    split; [exact Hc |]. split; [exact Hy | exact Hrest]. }
  intros u1.
  keep_fits false; [apply hoare_modify; intros w Hw; exact Hw |]. intros u2.
  keep_fits false; [apply sfits_call_CVodeReInit |]. intros r.
  keep_fits false; [apply hoare_check; intros; exact I |]. intros u3.
  keep_fits false; [apply hoare_ret; auto |]. intros u4.
  apply (hoare_for_each _ _ _ _ k); [| simpl; lia].
  intros i t Hi. apply sfits_solve_body_plain; assumption.
Qed.

Lemma sfits_solve_sens (fuel : nat) (t0 : float) (tvals : list float) (y0 : vec)
    (s0 : mat) :
  length y0 = n -> (length tvals <= k)%nat -> rows p n s0 ->
  fits_inv true n p k (solve fuel t0 tvals y0 (Some s0)).
Proof.
  intros Hy Hk Hs0. unfold fits_inv, solve.
  read_sens true.
  eapply hoare_bind; [apply hoare_gets |]. intros so.
  apply (hoare_pre _ (fun w => solver_fits true n p k w /\ is_none so = false)).
  2:{ intros w [Hw ->]. split; [exact Hw |].
      destruct Hw as (_ & _ & _ & Hsens). destruct (Hsens eq_refl) as (_ & _ & x & -> & _).
      reflexivity. }
  destruct (is_none so); [apply hoare_false; intros w [_ H]; discriminate |].
  cbn [andb orb is_none]. cbv iota.
  apply (hoare_pre _ (solver_fits true n p k)); [| intros ? [? _]; assumption].
  keep_fits true.
  { eapply hoare_bind; [apply hoare_gets |]. intros np. intros w [Hw ->].
    destruct Hw as (Hc & Hs & Hyo & Hsens). destruct (Hsens eq_refl) as (Hp & _).
    rewrite Hp.
    apply (hoare_for_each_items _ _ _ _ (fun j => (j < p)%nat));
      [| apply seq_below | split; [exact Hc |]; split; [exact Hs |]; split; [exact Hyo | exact Hsens]].
    intros j' j Hj. apply sfits_load_sens_row; assumption. }
  intros u.
  eapply hoare_bind; [apply hoare_gets |]. intros sd.
  eapply hoare_bind.
  { apply (hoare_lift_ok _ _ _ _ y0). intros w [Hw ->].
    apply assign_same_length. rewrite Hy. symmetry. apply Hw. }
  intros y.
  keep_fits true.
  { apply hoare_modify. intros w [[(Hc & Hs & Hrest) _] ->].
    split; [exact Hc |]. split; [exact Hy | exact Hrest]. }
  intros u1.
  keep_fits true; [apply hoare_modify; intros w Hw; exact Hw |]. intros u2.
  keep_fits true; [apply sfits_call_CVodeReInit |]. intros r.
  keep_fits true; [apply hoare_check; intros; exact I |]. intros u3.
  keep_fits true.
  { keep_fits true; [apply sfits_call_CVodeSensReInit |]. intros r'.
    apply hoare_check; intros; exact I. }
  intros u4.
  apply (hoare_for_each _ _ _ _ k); [| simpl; lia].
  intros i t Hi. apply sfits_solve_body_sens; assumption.
Qed.

End SolverBuffers.

Section SolverOwnBuffers.
Context {lib : Sundials}.
Import Solver.

(** X14: on the arrays of its own [make_output_buffers], with an initial
    state of the size of the problem and, where sensitivities are computed,
    with initial sensitivities and sensitivity buffers of one row per
    parameter and one column per state, [Solver.solve] raises no indexing,
    broadcasting or type error: whatever it raises stems from an answer of
    the engine, and the output arrays keep their shapes. *)
Theorem solve_fits_own_buffers (n p : nat) (fuel : nat) (t0 : float)
    (tvals : list float) (y0 : vec) (sens0 : option mat) (w : state) :
  length (_state_buffer w) = n -> length y0 = n ->
  (_compute_sens w = true ->
   n_params w = p /\ rows p n (_sens_buffers w)
   /\ exists s0, sens0 = Some s0 /\ rows p n s0) ->
  match solve fuel t0 tvals y0 sens0 (with_own_buffers n tvals w) with
  | (Ok _, w') =>
      rows (length tvals) n (y_out w')
      /\ (_compute_sens w = true ->
          exists so, sens_out w' = Some so /\ blocks (length tvals) p n so)
  | (Raise e, _) => engine_born e
  | (OutOfFuel, _) => True
  end.
Proof.
  intros Hs Hy Hsens.
  assert (Hrows : forall a b, rows a b (replicate a (replicate b 0%float))).
  { intros a b. split; [apply length_replicate |].
    apply Forall_replicate. apply length_replicate. }
  destruct (_compute_sens w) eqn:Hc.
  - destruct (Hsens eq_refl) as (Hp & Hb & s0 & -> & Hs0).
    assert (Hw : solver_fits true n p (length tvals) (with_own_buffers n tvals w)).
    { unfold with_own_buffers, make_output_buffers. rewrite Hc. cbn [fst snd].
      split; [exact Hc |]. split; [exact Hs |]. split; [apply Hrows |]. intros _.
      split; [exact Hp |]. split; [exact Hb |].
      eexists. split; [reflexivity |]. rewrite Hp.
      split; [apply length_replicate |]. apply Forall_replicate. apply Hrows. }
    pose proof (sfits_solve_sens n p (length tvals) fuel t0 tvals y0 s0 Hy (le_n _) Hs0
                  _ Hw) as H.
    destruct (solve _ _ _ _ _ _) as [[[] | e |] w']; [| exact H | exact I].
    destruct H as (_ & _ & Hyo & Hso). split; [exact Hyo |]. intros _.
    apply (Hso eq_refl).
  - assert (Hw : solver_fits false n p (length tvals) (with_own_buffers n tvals w)).
    { unfold with_own_buffers, make_output_buffers. rewrite Hc. cbn [fst snd].
      split; [exact Hc |]. split; [exact Hs |]. split; [apply Hrows |]. discriminate. }
    pose proof (sfits_solve_plain n p (length tvals) fuel t0 tvals y0 sens0 Hy (le_n _)
                  _ Hw) as H.
    destruct (solve _ _ _ _ _ _) as [[[] | e |] w']; [| exact H | exact I].
    destruct H as (_ & _ & Hyo & _). split; [exact Hyo |]. discriminate.
Qed.
End SolverOwnBuffers.

(** X14 on the scripted engine: a solver with sensitivities, two states and
    one parameter, over two output times. *)
Lemma solve_fits_own_buffers_witness :
  match Solver.solve (lib := Scripted.lib) 5 0%float [0%float; 1%float]
          [3%float; 4%float] (Some [[1%float; 0%float]])
          (with_own_buffers (lib := Scripted.lib) 2 [0%float; 1%float]
             (Scripted.solver true 2 1 2 [])) with
  | (Ok _, w') =>
      rows 2 2 (Solver.y_out w')
      /\ (Solver._compute_sens (Scripted.solver true 2 1 2 []) = true ->
          exists so, Solver.sens_out w' = Some so /\ blocks 2 1 2 so)
  | (Raise e, _) => engine_born e
  | (OutOfFuel, _) => True
  end.
Proof.
  apply (solve_fits_own_buffers (lib := Scripted.lib) 2 1 5 0%float [0%float; 1%float]
           [3%float; 4%float] (Some [[1%float; 0%float]]) (Scripted.solver true 2 1 2 [])).
  - reflexivity.
  - reflexivity.
  - intros _. split; [reflexivity |].
    split; [split; [reflexivity | repeat constructor] |].
    eexists. split; [reflexivity |]. split; [reflexivity | repeat constructor].
Defined.

(** * Output times equal to the initial time, on the time grid *)

Lemma SFcompare_Lt_trans (x y z : SpecFloat.spec_float) :
  SpecFloat.SFcompare x y = Some Lt -> SpecFloat.SFcompare y z = Some Lt ->
  SpecFloat.SFcompare x z = Some Lt.
Proof.
  destruct x as [sx | sx | | sx mx ex], y as [sy | sy | | sy my ey],
    z as [sz | sz | | sz mz ez];
    try destruct sx; try destruct sy; try destruct sz; simpl;
    try discriminate; try reflexivity.
  all: destruct (Z.compare_spec ex ey), (Z.compare_spec ey ez), (Z.compare_spec ex ez);
    subst; try lia; try discriminate; try reflexivity.
  all: change (PosDef.Pos.compare_cont Eq mx my) with (Pos.compare mx my);
    change (PosDef.Pos.compare_cont Eq my mz) with (Pos.compare my mz);
    change (PosDef.Pos.compare_cont Eq mx mz) with (Pos.compare mx mz).
  all: destruct (Pos.compare_spec mx my), (Pos.compare_spec my mz),
         (Pos.compare_spec mx mz); subst; simpl; try discriminate; try reflexivity; lia.
Qed.

Lemma SFcompare_Eq_Eq (x y z : SpecFloat.spec_float) :
  SpecFloat.SFcompare x z = Some Eq -> SpecFloat.SFcompare y z = Some Eq ->
  SpecFloat.SFcompare x y = Some Eq.
Proof.
  destruct x as [sx | sx | | sx mx ex], y as [sy | sy | | sy my ey],
    z as [sz | sz | | sz mz ez];
    try destruct sx; try destruct sy; try destruct sz; simpl;
    try discriminate; try reflexivity.
  all: destruct (Z.compare_spec ex ez), (Z.compare_spec ey ez), (Z.compare_spec ex ey);
    subst; try lia; try discriminate; try reflexivity.
  all: change (PosDef.Pos.compare_cont Eq mx mz) with (Pos.compare mx mz);
    change (PosDef.Pos.compare_cont Eq my mz) with (Pos.compare my mz);
    change (PosDef.Pos.compare_cont Eq mx my) with (Pos.compare mx my).
  all: destruct (Pos.compare_spec mx mz), (Pos.compare_spec my mz),
         (Pos.compare_spec mx my); subst; simpl; try discriminate; try reflexivity; lia.
Qed.

(** [<] on doubles is transitive. *)
Lemma ltb_trans (a b c : float) :
  PrimFloat.ltb a b = true -> PrimFloat.ltb b c = true -> PrimFloat.ltb a c = true.
Proof.
  rewrite !FloatAxioms.ltb_spec. unfold SpecFloat.SFltb.
  destruct (SpecFloat.SFcompare (Prim2SF a) (Prim2SF b)) as [[] |] eqn:E1; try discriminate.
  destruct (SpecFloat.SFcompare (Prim2SF b) (Prim2SF c)) as [[] |] eqn:E2; try discriminate.
  intros _ _. rewrite (SFcompare_Lt_trans _ _ _ E1 E2). reflexivity.
Qed.

(** A double above one that equals [b] does not equal [b]. *)
Lemma ltb_eqb_neq (a b c : float) :
  PrimFloat.ltb a c = true -> PrimFloat.eqb a b = true -> PrimFloat.eqb c b = false.
Proof.
  rewrite FloatAxioms.ltb_spec, !FloatAxioms.eqb_spec.
  unfold SpecFloat.SFltb, SpecFloat.SFeqb.
  destruct (SpecFloat.SFcompare (Prim2SF a) (Prim2SF c)) as [[] |] eqn:E1; try discriminate.
  destruct (SpecFloat.SFcompare (Prim2SF a) (Prim2SF b)) as [[] |] eqn:E2; try discriminate.
  destruct (SpecFloat.SFcompare (Prim2SF c) (Prim2SF b)) as [[] |] eqn:E3; try reflexivity.
  intros _ _. rewrite (SFcompare_Eq_Eq _ _ _ E2 E3) in E1. discriminate.
Qed.

(** On the grid every output time after the first is above the first, and
    so differs from [t0]: [t0] is at index [0] only. *)
Lemma grid_above_first (t0 : float) (tvals : list float) (t1 : float) :
  time_grid t0 tvals -> tvals !! 0%nat = Some t1 ->
  forall i t, tvals !! S i = Some t -> PrimFloat.ltb t1 t = true.
Proof.
  intros [_ Hinc] H1. induction i as [| i IH]; intros t Ht.
  - apply (Hinc 0%nat t1 t H1 Ht).
  - destruct (lookup_lt_is_Some_2 tvals (S i)) as [t' Ht'].
    { apply lookup_lt_Some in Ht. lia. }
    apply (ltb_trans _ t'); [apply IH; exact Ht' | apply (Hinc (S i) t' t Ht' Ht)].
Qed.

Lemma grid_later_differs (t0 : float) (tvals : list float) :
  time_grid t0 tvals ->
  forall i t, tvals !! S i = Some t -> PrimFloat.eqb t t0 = false.
Proof.
  intros Hgrid i t Ht. destruct (proj1 Hgrid) as (t1 & H1 & Heq).
  apply (ltb_eqb_neq t1); [apply (grid_above_first t0 tvals t1 Hgrid H1 i t Ht) | exact Heq].
Qed.

Lemma grid_index (t0 : float) (tvals : list float) (i : nat) (t : float) :
  time_grid t0 tvals -> tvals !! i = Some t -> PrimFloat.eqb t t0 = true -> i = 0%nat.
Proof.
  intros Hgrid Ht Heq. destruct i as [| i]; [reflexivity |].
  rewrite (grid_later_differs t0 tvals Hgrid i t Ht) in Heq. discriminate.
Qed.

Lemma grid_split (t0 : float) (tvals : list float) :
  time_grid t0 tvals ->
  exists t1 rest, tvals = t1 :: rest /\ PrimFloat.eqb t1 t0 = true
                  /\ Forall (fun t => PrimFloat.eqb t t0 = false) rest.
Proof.
  intros Hgrid. destruct (proj1 Hgrid) as (t1 & H1 & Heq).
  destruct tvals as [| t rest]; [discriminate |]. injection H1 as ->.
  exists t1, rest. split; [reflexivity |]. split; [exact Heq |].
  apply Forall_lookup. intros i t Ht. apply (grid_later_differs t0 _ Hgrid i t Ht).
Qed.

Section KeepsToHoare.
Context {W : Type}.

(** What a computation keeps, whatever its outcome, it keeps as a
    precondition and postcondition. *)
Lemma hoare_of_stable {A B} (obs : W -> B) (Q : B -> Prop) (m : M W A) :
  stable (keeps obs) m ->
  hoare (fun w => Q (obs w)) m (fun _ w => Q (obs w)) (fun _ _ => True) (fun _ => True).
Proof.
  intros Hst w Hw. specialize (Hst w). unfold keeps in Hst.
  destruct (m w) as [[a | e |] w1]; simpl in *; [rewrite Hst; exact Hw | exact I | exact I].
Qed.
End KeepsToHoare.

Lemma stable_keeps_compose {W B C A : Type} (obs : W -> B) (f : B -> C) (m : M W A) :
  stable (keeps obs) m -> stable (keeps (fun w => f (obs w))) m.
Proof. intros H w. unfold keeps. rewrite (H w). reflexivity. Qed.

Lemma set_row_other (out out' : mat) (i j : nat) (v : vec) :
  set_row out j v = Ok out' -> i <> j -> out' !! i = out !! i.
Proof.
  unfold set_row. destruct (out !! j); [| discriminate].
  destruct (assign _ _); try discriminate. intros [= <-] Hne.
  apply list_lookup_insert_ne. congruence.
Qed.

Section EqualTimeSolver.
Context {lib : Sundials}.
Import Solver.
#[local] Existing Instance keeps_preorder.

Ltac keeps_modify := apply stable_modify; intros ?; reflexivity.

Lemma keeps_y_out_call_CVode (t : float) : stable (keeps y_out) (call_CVode t).
Proof.
  intros w. unfold call_CVode. destruct (CVode _ _ _ _ _) as [[[? ?] ?] ?]. reflexivity.
Qed.

Lemma keeps_y_out_step_loop (fuel : nat) (t : float) :
  stable (keeps y_out) (step_loop call_CVode fuel t).
Proof.
  apply stable_step_while; [typeclasses eauto | apply keeps_y_out_call_CVode].
Qed.

Lemma keeps_y_out_call_CVodeGetSens : stable (keeps y_out) call_CVodeGetSens.
Proof.
  intros w. unfold call_CVodeGetSens. destruct (CVodeGetSens _ _ _) as [[? ?] ?].
  reflexivity.
Qed.

Lemma keeps_y_out_call_CVodeReInit (t0 : float) : stable (keeps y_out) (call_CVodeReInit t0).
Proof.
  intros w. unfold call_CVodeReInit. destruct (CVodeReInit _ _ _). reflexivity.
Qed.

Lemma keeps_y_out_call_CVodeSensReInit : stable (keeps y_out) call_CVodeSensReInit.
Proof.
  intros w. unfold call_CVodeSensReInit. destruct (CVodeSensReInit _ _ _). reflexivity.
Qed.

Lemma keeps_y_out_write_sens_row (i j : nat) : stable (keeps y_out) (write_sens_row i j).
Proof. unfold write_sens_row. repeat stable_step. keeps_modify. Qed.

Lemma keeps_y_out_write_sens_block (sens0 : option mat) :
  stable (keeps y_out) (write_sens_block sens0).
Proof. unfold write_sens_block. repeat stable_step. keeps_modify. Qed.

Lemma keeps_y_out_load_sens_row (sens0 : option mat) (i : nat) :
  stable (keeps y_out) (load_sens_row sens0 i).
Proof. unfold load_sens_row. repeat stable_step. keeps_modify. Qed.

(** An iteration for an index other than [0] and a time other than [t0]
    leaves row [0] of [y_out] alone. *)
Lemma solve_body_keeps_row_zero (fuel : nat) (t0 : float) (y0 : vec) (sens0 : option mat)
    (j : nat) (t : float) :
  j <> 0%nat -> PrimFloat.eqb t t0 = false ->
  stable (keeps (fun w => y_out w !! 0%nat)) (solve_body fuel t0 y0 sens0 j t).
Proof.
  intros Hj Hne. unfold solve_body. rewrite Hne.
  stable_step; [apply (stable_keeps_compose y_out), keeps_y_out_step_loop |].
  stable_step; [stable_step |].
  stable_step.
  { intros w. unfold write_y_out, bind, gets, lift, modify, keeps.
    destruct (set_row (y_out w) j a0) as [out' | e |] eqn:E; simpl; try reflexivity.
    apply (set_row_other _ _ 0 _ _ E). congruence. }
  stable_step; [stable_step |]. stable_step; [| stable_step].
  stable_step; [apply (stable_keeps_compose y_out), keeps_y_out_call_CVodeGetSens |].
  stable_step; [repeat stable_step |].
  stable_step; [stable_step |].
  apply stable_for_each; [typeclasses eauto |]. intros i' j'.
  apply (stable_keeps_compose y_out), keeps_y_out_write_sens_row.
Qed.

Lemma rest_keeps_row_zero (fuel : nat) (t0 : float) (y0 : vec) (sens0 : option mat)
    (rest : list float) :
  Forall (fun t => PrimFloat.eqb t t0 = false) rest ->
  forall j, j <> 0%nat ->
    stable (keeps (fun w => y_out w !! 0%nat))
      (for_each (solve_body fuel t0 y0 sens0) j rest).
Proof.
  induction 1 as [| t rest Ht _ IH]; intros j Hj; simpl.
  - stable_step.
  - stable_step; [apply solve_body_keeps_row_zero; assumption | apply IH; lia].
Qed.

(** An iteration for a time equal to [t0] makes no engine call and leaves
    the state buffer alone. *)
Lemma solve_body_equal_time_no_step (fuel : nat) (t0 : float) (y0 : vec)
    (sens0 : option mat) (i : nat) (t : float) :
  PrimFloat.eqb t t0 = true ->
  stable (keeps (fun w => (trace w, _ode w, _state_buffer w)))
    (solve_body fuel t0 y0 sens0 i t).
Proof.
  intros Heq. unfold solve_body. rewrite Heq.
  stable_step; [unfold write_y_out; repeat stable_step; keeps_modify |].
  stable_step; [stable_step |]. stable_step; [| stable_step].
  unfold write_sens_block. repeat stable_step. keeps_modify.
Qed.

(** It writes [y0] to row [0]. *)
Lemma solve_body_equal_time_row (fuel : nat) (t0 : float) (y0 : vec) (sens0 : option mat)
    (i : nat) (t : float) (yo : mat) (row : vec) :
  PrimFloat.eqb t t0 = true -> yo !! 0%nat = Some row -> length y0 = length row ->
  hoare (fun w => y_out w = yo) (solve_body fuel t0 y0 sens0 i t)
    (fun _ w => y_out w !! 0%nat = Some y0) (fun _ _ => True) (fun _ => True).
Proof.
  intros Heq Hrow Hlen. unfold solve_body. rewrite Heq.
  apply (hoare_bind _ _ (fun _ w => y_out w !! 0%nat = Some y0)).
  - intros w Hw. subst yo. rewrite (write_y_out_exact 0 y0 row w Hrow Hlen).
    simpl. apply list_lookup_insert_eq. eapply lookup_lt_Some; eauto.
  - intros u.
    apply (hoare_of_stable (fun w => y_out w !! 0%nat) (fun r => r = Some y0)).
    stable_step; [stable_step |]. stable_step; [| stable_step].
    apply (stable_keeps_compose y_out), keeps_y_out_write_sens_block.
Qed.

(** On the grid a completed [solve] has [y0] in row [0]. *)
Lemma solve_row_zero (fuel : nat) (t0 : float) (y0 : vec) (sens0 : option mat)
    (t1 : float) (rest : list float) (yo : mat) (row : vec) :
  PrimFloat.eqb t1 t0 = true -> Forall (fun t => PrimFloat.eqb t t0 = false) rest ->
  yo !! 0%nat = Some row -> length y0 = length row ->
  hoare (fun w => y_out w = yo) (solve fuel t0 (t1 :: rest) y0 sens0)
    (fun _ w => y_out w !! 0%nat = Some y0) (fun _ _ => True) (fun _ => True).
Proof.
  intros Heq Hrest Hrow Hlen. unfold solve.
  assert (Hkeep : forall A (m : M state A),
             stable (keeps y_out) m ->
             hoare (fun w => y_out w = yo) m (fun _ w => y_out w = yo)
               (fun _ _ => True) (fun _ => True)).
  { intros A m Hm. apply (hoare_of_stable y_out (fun r => r = yo) m Hm). }
  apply (hoare_bind _ _ (fun _ w => y_out w = yo)); [apply Hkeep; stable_step |].
  intros cs.
  apply (hoare_bind _ _ (fun _ w => y_out w = yo)); [apply Hkeep; stable_step |].
  intros so.
  destruct (cs && (is_none sens0 || is_none so)); [intros w _; exact I |].
  apply (hoare_bind _ _ (fun _ w => y_out w = yo)).
  { apply Hkeep. destruct cs; [| stable_step].
    stable_step; [stable_step |].
    apply stable_for_each; [typeclasses eauto |]. intros i' j'.
    apply keeps_y_out_load_sens_row. }
  intros u.
  apply (hoare_bind _ _ (fun _ w => y_out w = yo)); [apply Hkeep; stable_step |].
  intros sd.
  apply (hoare_bind _ _ (fun _ w => y_out w = yo)); [apply Hkeep; stable_step |].
  intros y.
  apply (hoare_bind _ _ (fun _ w => y_out w = yo)); [apply Hkeep; keeps_modify |].
  intros u1.
  apply (hoare_bind _ _ (fun _ w => y_out w = yo)); [apply Hkeep; keeps_modify |].
  intros u2.
  apply (hoare_bind _ _ (fun _ w => y_out w = yo));
    [apply Hkeep, keeps_y_out_call_CVodeReInit |].
  intros r.
  apply (hoare_bind _ _ (fun _ w => y_out w = yo)); [apply Hkeep; repeat stable_step |].
  intros u3.
  apply (hoare_bind _ _ (fun _ w => y_out w = yo)).
  { apply Hkeep. destruct cs; [| stable_step].
    stable_step; [apply keeps_y_out_call_CVodeSensReInit | repeat stable_step]. }
  intros u4. cbn [for_each].
  apply (hoare_bind _ _ (fun _ w => y_out w !! 0%nat = Some y0)).
  { apply (solve_body_equal_time_row fuel t0 y0 sens0 0 t1 yo row); assumption. }
  intros u5.
  apply (hoare_of_stable (fun w => y_out w !! 0%nat) (fun r => r = Some y0)).
  apply rest_keeps_row_zero; [exact Hrest | lia].
Qed.
End EqualTimeSolver.

Section EqualTimeAdjoint.
Context {lib : Sundials}.
Import AdjointSolver.
#[local] Existing Instance keeps_preorder.

Ltac keeps_modify := apply stable_modify; intros ?; reflexivity.

Lemma adjoint_write_y_out_exact (i : nat) (v row : vec) (w : state) :
  y_out w !! i = Some row -> length v = length row ->
  write_y_out i v w = (Ok tt, set_y_out w (<[i := v]> (y_out w))).
Proof.
  intros Hrow Hlen. unfold write_y_out, bind, gets, lift.
  rewrite (set_row_exact _ _ _ _ Hrow Hlen). reflexivity.
Qed.

Lemma keeps_y_out_call_CVodeF (t : float) : stable (keeps y_out) (call_CVodeF t).
Proof.
  intros w. unfold call_CVodeF.
  destruct (CVodeF _ _ _ _ _ _) as [[[[? ?] ?] ?] ?]. reflexivity.
Qed.

Lemma keeps_y_out_forward_step_loop (fuel : nat) (t : float) :
  stable (keeps y_out) (step_loop call_CVodeF fuel t).
Proof.
  apply stable_step_while; [typeclasses eauto | apply keeps_y_out_call_CVodeF].
Qed.

Lemma keeps_y_out_forward_CVodeReInit (t0 : float) :
  stable (keeps y_out) (call_CVodeReInit t0).
Proof.
  intros w. unfold call_CVodeReInit. destruct (CVodeReInit _ _ _). reflexivity.
Qed.

Lemma keeps_y_out_call_CVodeAdjReInit : stable (keeps y_out) call_CVodeAdjReInit.
Proof.
  intros w. unfold call_CVodeAdjReInit. destruct (CVodeAdjReInit _). reflexivity.
Qed.

(** An iteration for an index other than [0] and a time other than [t0]
    leaves row [0] of [y_out] alone. *)
Lemma solve_forward_body_keeps_row_zero (fuel : nat) (t0 : float) (y0 : vec)
    (j : nat) (t : float) :
  j <> 0%nat -> PrimFloat.eqb t t0 = false ->
  stable (keeps (fun w => y_out w !! 0%nat)) (solve_forward_body fuel t0 y0 j t).
Proof.
  intros Hj Hne. unfold solve_forward_body. rewrite Hne.
  stable_step; [apply (stable_keeps_compose y_out), keeps_y_out_forward_step_loop |].
  stable_step; [stable_step |].
  intros w. unfold write_y_out, bind, gets, lift, modify, keeps.
  destruct (set_row (y_out w) j a0) as [out' | e |] eqn:E; simpl; try reflexivity.
  apply (set_row_other _ _ 0 _ _ E). congruence.
Qed.

Lemma forward_rest_keeps_row_zero (fuel : nat) (t0 : float) (y0 : vec)
    (rest : list float) :
  Forall (fun t => PrimFloat.eqb t t0 = false) rest ->
  forall j, j <> 0%nat ->
    stable (keeps (fun w => y_out w !! 0%nat))
      (for_each (solve_forward_body fuel t0 y0) j rest).
Proof.
  induction 1 as [| t rest Ht _ IH]; intros j Hj; simpl.
  - stable_step.
  - stable_step; [apply solve_forward_body_keeps_row_zero; assumption | apply IH; lia].
Qed.

(** An iteration for a time equal to [t0] makes no engine call and leaves
    the state buffer, the current time and the checkpoint count alone. *)
Lemma solve_forward_body_equal_time_no_step (fuel : nat) (t0 : float) (y0 : vec)
    (i : nat) (t : float) :
  PrimFloat.eqb t t0 = true ->
  stable (keeps (fun w => (trace w, _ode w, _state_buffer w, time_p w, n_check w)))
    (solve_forward_body fuel t0 y0 i t).
Proof.
  intros Heq. unfold solve_forward_body. rewrite Heq.
  unfold write_y_out; repeat stable_step; keeps_modify.
Qed.

(** On the grid a completed [solve_forward] has [y0] in row [0]. *)
Lemma solve_forward_row_zero (fuel : nat) (t0 : float) (y0 : vec)
    (t1 : float) (rest : list float) (yo : mat) (row : vec) :
  PrimFloat.eqb t1 t0 = true -> Forall (fun t => PrimFloat.eqb t t0 = false) rest ->
  yo !! 0%nat = Some row -> length y0 = length row ->
  hoare (fun w => y_out w = yo) (solve_forward fuel t0 (t1 :: rest) y0)
    (fun _ w => y_out w !! 0%nat = Some y0) (fun _ _ => True) (fun _ => True).
Proof.
  intros Heq Hrest Hrow Hlen. unfold solve_forward.
  assert (Hkeep : forall A (m : M state A),
             stable (keeps y_out) m ->
             hoare (fun w => y_out w = yo) m (fun _ w => y_out w = yo)
               (fun _ _ => True) (fun _ => True)).
  { intros A m Hm. apply (hoare_of_stable y_out (fun r => r = yo) m Hm). }
  apply (hoare_bind _ _ (fun _ w => y_out w = yo)); [apply Hkeep; stable_step |].
  intros sd.
  apply (hoare_bind _ _ (fun _ w => y_out w = yo)); [apply Hkeep; stable_step |].
  intros y.
  apply (hoare_bind _ _ (fun _ w => y_out w = yo)); [apply Hkeep; keeps_modify |].
  intros u1.
  apply (hoare_bind _ _ (fun _ w => y_out w = yo)); [apply Hkeep; keeps_modify |].
  intros u2.
  apply (hoare_bind _ _ (fun _ w => y_out w = yo)); [apply Hkeep; keeps_modify |].
  intros u3.
  apply (hoare_bind _ _ (fun _ w => y_out w = yo));
    [apply Hkeep, keeps_y_out_forward_CVodeReInit |].
  intros r.
  apply (hoare_bind _ _ (fun _ w => y_out w = yo)); [apply Hkeep; repeat stable_step |].
  intros u4.
  apply (hoare_bind _ _ (fun _ w => y_out w = yo));
    [apply Hkeep, keeps_y_out_call_CVodeAdjReInit |].
  intros r'.
  apply (hoare_bind _ _ (fun _ w => y_out w = yo)); [apply Hkeep; repeat stable_step |].
  intros u5. cbn [for_each].
  apply (hoare_bind _ _ (fun _ w => y_out w !! 0%nat = Some y0)).
  { unfold solve_forward_body. rewrite Heq.
    intros w Hw. subst yo. rewrite (adjoint_write_y_out_exact 0 y0 row w Hrow Hlen).
    simpl. apply list_lookup_insert_eq. eapply lookup_lt_Some; eauto. }
  intros u6.
  apply (hoare_of_stable (fun w => y_out w !! 0%nat) (fun r => r = Some y0)).
  apply forward_rest_keeps_row_zero; [exact Hrest | lia].
Qed.
End EqualTimeAdjoint.

(** C4: on a time grid (the first output time equals [t0], the output times
    strictly increase) an output time equal to [t0] can only stand at index
    [0].  The iteration for it, in [Solver.solve] and in
    [AdjointSolver.solve_forward] alike, takes no integration step: it makes
    no engine call at all and leaves the engine, the state buffer (and, in
    the adjoint solver, the current time and the checkpoint count) as they
    were.  When the solve completes, the row of [y_out] at that index is
    [y0] itself, whatever the later iterations did. *)
Theorem C4_equal_time_row_is_y0 {lib : Sundials} (fuel : nat) (t0 : float)
    (tvals : list float) (y0 : vec) (sens0 : option mat) (i : nat) (t : float) :
  time_grid t0 tvals -> tvals !! i = Some t -> PrimFloat.eqb t t0 = true ->
  i = 0%nat
  /\ (forall w : Solver.state,
        Solver.trace (Solver.solve_body fuel t0 y0 sens0 i t w).2 = Solver.trace w
        /\ Solver._ode (Solver.solve_body fuel t0 y0 sens0 i t w).2 = Solver._ode w
        /\ Solver._state_buffer (Solver.solve_body fuel t0 y0 sens0 i t w).2
           = Solver._state_buffer w)
  /\ (forall w : AdjointSolver.state,
        AdjointSolver.trace (AdjointSolver.solve_forward_body fuel t0 y0 i t w).2
        = AdjointSolver.trace w
        /\ AdjointSolver._ode (AdjointSolver.solve_forward_body fuel t0 y0 i t w).2
           = AdjointSolver._ode w
        /\ AdjointSolver._state_buffer (AdjointSolver.solve_forward_body fuel t0 y0 i t w).2
           = AdjointSolver._state_buffer w
        /\ AdjointSolver.time_p (AdjointSolver.solve_forward_body fuel t0 y0 i t w).2
           = AdjointSolver.time_p w
        /\ AdjointSolver.n_check (AdjointSolver.solve_forward_body fuel t0 y0 i t w).2
           = AdjointSolver.n_check w)
  /\ (forall (w w' : Solver.state) (row : vec),
        Solver.y_out w !! i = Some row -> length y0 = length row ->
        Solver.solve fuel t0 tvals y0 sens0 w = (Ok tt, w') ->
        Solver.y_out w' !! i = Some y0)
  /\ (forall (w w' : AdjointSolver.state) (row : vec),
        AdjointSolver.y_out w !! i = Some row -> length y0 = length row ->
        AdjointSolver.solve_forward fuel t0 tvals y0 w = (Ok tt, w') ->
        AdjointSolver.y_out w' !! i = Some y0).
Proof.
  intros Hgrid Hi Heq.
  assert (Hi0 : i = 0%nat) by (eapply grid_index; eauto). subst i.
  destruct (grid_split t0 tvals Hgrid) as (t1 & rest & -> & Ht1 & Hrest).
  split; [reflexivity |].
  split.
  { intros w.
    pose proof (solve_body_equal_time_no_step fuel t0 y0 sens0 0 t Heq w) as H.
    unfold keeps in H. injection H as H1 H2 H3. auto. }
  split.
  { intros w.
    pose proof (solve_forward_body_equal_time_no_step fuel t0 y0 0 t Heq w) as H.
    unfold keeps in H. injection H as H1 H2 H3 H4 H5. auto. }
  split.
  - intros w w' row Hrow Hlen Hrun.
    pose proof (solve_row_zero fuel t0 y0 sens0 t1 rest (Solver.y_out w) row
                  Ht1 Hrest Hrow Hlen w eq_refl) as H.
    rewrite Hrun in H. exact H.
  - intros w w' row Hrow Hlen Hrun.
    pose proof (solve_forward_row_zero fuel t0 y0 t1 rest (AdjointSolver.y_out w) row
                  Ht1 Hrest Hrow Hlen w eq_refl) as H.
    rewrite Hrun in H. exact H.
Qed.

(** C4 on the scripted engine: output times [0, 1] from [t0 = 0]; both
    solves complete, the engine moved the state on the way to time [1], and
    row [0] is [y0]. *)
Lemma C4_equal_time_row_is_y0_witness :
  time_grid 0%float [0%float; 1%float]
  /\ Solver.y_out
       (Solver.solve (lib := Scripted.lib) 5 0%float [0%float; 1%float]
          [3%float; 4%float] None
          (with_own_buffers (lib := Scripted.lib) 2 [0%float; 1%float]
             (Scripted.solver false 2 1 2 []))).2 !! 0%nat
     = Some [3%float; 4%float]
  /\ AdjointSolver.y_out
       (AdjointSolver.solve_forward (lib := Scripted.lib) 5 0%float
          [0%float; 1%float] [1%float]
          (SolveODEAdjoint.fresh_buffers [0%float; 1%float] adjoint_run)).2 !! 0%nat
     = Some [1%float].
Proof.
  assert (Hgrid : time_grid 0%float [0%float; 1%float]).
  { split.
    - exists 0%float. split; reflexivity.
    - intros j a b Ha Hb. destruct j as [| [| j]]; simpl in Ha, Hb; try discriminate.
      injection Ha as <-. injection Hb as <-. reflexivity. }
  split; [exact Hgrid |]. split.
  - destruct (C4_equal_time_row_is_y0 (lib := Scripted.lib) 5 0%float
                [0%float; 1%float] [3%float; 4%float] None 0 0%float Hgrid
                eq_refl eq_refl) as (_ & _ & _ & Hs & _).
    apply (Hs (with_own_buffers (lib := Scripted.lib) 2 [0%float; 1%float]
                 (Scripted.solver false 2 1 2 []))
             (Solver.solve (lib := Scripted.lib) 5 0%float [0%float; 1%float]
                [3%float; 4%float] None
                (with_own_buffers (lib := Scripted.lib) 2 [0%float; 1%float]
                   (Scripted.solver false 2 1 2 []))).2
             [0%float; 0%float]); vm_compute; reflexivity.
  - destruct (C4_equal_time_row_is_y0 (lib := Scripted.lib) 5 0%float
                [0%float; 1%float] [1%float] None 0 0%float Hgrid
                eq_refl eq_refl) as (_ & _ & _ & _ & Ha).
    apply (Ha (SolveODEAdjoint.fresh_buffers [0%float; 1%float] adjoint_run)
             (AdjointSolver.solve_forward (lib := Scripted.lib) 5 0%float
                [0%float; 1%float] [1%float]
                (SolveODEAdjoint.fresh_buffers [0%float; 1%float] adjoint_run)).2
             [0%float]); vm_compute; reflexivity.
Defined.

(** * A completed solve with sensitivities *)

Section SensitivityResult.
Context {lib : Sundials}.
Import Solver.

(** An iteration that steps, in terms of the engine: the stepping loop ends
    in a world [u1], the sensitivities are read back there, and row [i] of
    [y_out] is the state buffer of [u1], block [i] of [sens_out] what the
    read-back returned. *)
Lemma solve_body_stepped_read (fuel : nat) (t0 : float) (y0 : vec) (sens0 : option mat)
    (i : nat) (t : float) (u u' : state) (so : tensor3) (row : vec) (blk : mat) :
  _compute_sens u = true -> sens_out u = Some so ->
  n_params u = length (_sens_buffers u) ->
  y_out u !! i = Some row -> length row = length (_state_buffer u) ->
  so !! i = Some blk -> map length blk = map length (_sens_buffers u) ->
  PrimFloat.eqb t t0 = false ->
  solve_body fuel t0 y0 sens0 i t u = (Ok tt, u') ->
  exists u1,
    step_loop call_CVode fuel t u = (Ok tt, u1)
    /\ check_ok (CVodeGetSens (_ode u1) (time_p u1) (_sens_buffers u1)).1.1 = true
    /\ y_out u' = <[i := _state_buffer u1]> (y_out u)
    /\ sens_out u'
       = Some (<[i := (CVodeGetSens (_ode u1) (time_p u1) (_sens_buffers u1)).2]> so).
Proof.
  intros Hcs Hso Hn Hrow Hrl Hblk Hshape Hne H.
  unfold solve_body in H. rewrite Hne in H.
  apply bind_inv in H as [([] & u1 & E1 & H) | [(? & _ & ?) | (_ & ?)]]; try discriminate.
  exists u1. split; [exact E1 |].
  pose proof (step_loop_frame fuel t u) as F. rewrite E1 in F.
  change (step_frame u u1) in F. destruct F as [Fy Fso Fb Fn Fcs Fl].
  rewrite (bind_ok _ _ u1 u1 (_state_buffer u1)) in H by reflexivity.
  assert (Hrow1 : y_out u1 !! i = Some row) by (rewrite Fy; exact Hrow).
  assert (Hlen1 : length (_state_buffer u1) = length row) by congruence.
  rewrite (bind_ok _ _ _ _ _ (write_y_out_exact i (_state_buffer u1) row u1 Hrow1 Hlen1))
    in H.
  set (u2 := set_y_out u1 (<[i := _state_buffer u1]> (y_out u1))) in H.
  rewrite (bind_ok _ _ u2 u2 (_compute_sens u1)) in H by reflexivity.
  rewrite Fcs, Hcs in H.
  unfold bind at 1 in H. unfold call_CVodeGetSens in H.
  change (CVodeGetSens (_ode u2) (time_p u2) (_sens_buffers u2))
    with (CVodeGetSens (_ode u1) (time_p u1) (_sens_buffers u1)) in H.
  pose proof (CVodeGetSens_shape (_ode u1) (time_p u1) (_sens_buffers u1)) as L.
  destruct (CVodeGetSens _ _ _) as [[r tp] yS]. simpl in L. cbn [fst snd].
  rewrite Fb in L.
  set (u3 := log (set_time_p (set_sens_buffers u2 yS) tp) EvGetSens) in H.
  apply bind_inv in H as [([] & u3' & E3 & H) | [(? & _ & ?) | (_ & ?)]]; try discriminate.
  apply check_inv in E3 as [-> [[_ Hok] | ?]]; [| discriminate].
  split; [exact Hok |].
  rewrite (bind_ok _ _ u3 u3 (n_params u1)) in H by reflexivity.
  rewrite Fn, Hn, <- (same_shape_length _ _ L) in H.
  rewrite (write_rows i yS blk so (length yS) 0 0 u3) in H.
  - injection H as <-. simpl. rewrite Fy. split; reflexivity.
  - rewrite L. symmetry. exact Hshape.
  - reflexivity.
  - eapply lookup_lt_Some. exact Hblk.
  - reflexivity.
  - change (sens_out u3) with (sens_out u1). rewrite Fso, Hso.
    change (take 0 yS ++ drop 0 blk) with blk.
    rewrite (list_insert_id _ _ _ Hblk). reflexivity.
Qed.

(** What the shapes give for the iteration of index [j]. *)
Lemma fits_at (n p k j : nat) (u : state) :
  solver_fits true n p k u -> (j < k)%nat ->
  _compute_sens u = true
  /\ n_params u = length (_sens_buffers u)
  /\ length (y_out u) = k
  /\ exists so row blk,
       sens_out u = Some so /\ length so = k
       /\ y_out u !! j = Some row /\ length row = length (_state_buffer u)
       /\ so !! j = Some blk /\ map length blk = map length (_sens_buffers u).
Proof.
  intros (Hc & Hs & [Hyl Hyr] & Hsens) Hj.
  destruct (Hsens eq_refl) as (Hp & Hb & so & Hso & [Hsl Hsr]).
  split; [exact Hc |]. split; [rewrite Hp; symmetry; apply Hb |]. split; [exact Hyl |].
  destruct (lookup_lt_is_Some_2 (y_out u) j ltac:(lia)) as [row Hrow].
  destruct (lookup_lt_is_Some_2 so j ltac:(lia)) as [blk Hblk].
  exists so, row, blk. split; [exact Hso |]. split; [exact Hsl |].
  split; [exact Hrow |].
  split; [rewrite Hs; apply (proj1 (Forall_lookup _ _) Hyr _ _ Hrow) |].
  split; [exact Hblk |].
  pose proof (proj1 (Forall_lookup _ _) Hsr _ _ Hblk) as Hbr.
  rewrite (proj1 (rows_shape _ _ _) Hbr), (proj1 (rows_shape _ _ _) Hb). reflexivity.
Qed.

(** The iterations that step, from index [j] on: each leaves in its row and
    block what the engine returned, and later iterations keep them. *)
Lemma stepping_rows (n p k fuel : nat) (t0 : float) (y0 : vec) (s0 : mat) :
  length y0 = n -> rows p n s0 ->
  forall (rest : list float) (j : nat) (u w' : state),
    Forall (fun t => PrimFloat.eqb t t0 = false) rest ->
    solver_fits true n p k u -> (j + length rest <= k)%nat ->
    for_each (solve_body fuel t0 y0 (Some s0)) j rest u = (Ok tt, w') ->
    solver_fits true n p k w'
    /\ (forall i, (i < j)%nat ->
          y_out w' !! i = y_out u !! i /\ sens_block w' i = sens_block u i)
    /\ forall pre t post, rest = pre ++ t :: post ->
         exists v v1,
           for_each (solve_body fuel t0 y0 (Some s0)) j pre u = (Ok tt, v)
           /\ step_loop call_CVode fuel t v = (Ok tt, v1)
           /\ check_ok (CVodeGetSens (_ode v1) (time_p v1) (_sens_buffers v1)).1.1 = true
           /\ y_out w' !! (j + length pre)%nat = Some (_state_buffer v1)
           /\ sens_block w' (j + length pre)
              = Some (CVodeGetSens (_ode v1) (time_p v1) (_sens_buffers v1)).2.
Proof.
  intros Hy Hs0 rest. induction rest as [| t rest IH]; intros j u w' Hne Hfit Hk H.
  - simpl in H. injection H as <-. split; [exact Hfit |]. split; [auto |].
    intros [| ? ?] ? ? ?; discriminate.
  - simpl in Hk. assert (Hj : (j < k)%nat) by lia.
    apply Forall_cons in Hne as [Ht Hne].
    simpl in H.
    apply bind_inv in H as [([] & u' & Hb & Hr) | [(? & _ & ?) | (_ & ?)]];
      try discriminate.
    pose proof (sfits_solve_body_sens n p k fuel t0 y0 s0 j t Hj Hy Hs0 u Hfit) as Hfit'.
    rewrite Hb in Hfit'.
    destruct (fits_at n p k j u Hfit Hj)
      as (Hc & Hn & Hyl & so & row & blk & Hso & Hsl & Hrow & Hrl & Hblk & Hshape).
    destruct (solve_body_stepped_read fuel t0 y0 (Some s0) j t u u' so row blk
                Hc Hso Hn Hrow Hrl Hblk Hshape Ht Hb) as (u1 & E1 & Hok & Hy' & Hso').
    destruct (IH (S j) u' w' Hne Hfit' ltac:(lia) Hr) as (Hfw & Hkeep & Hdec).
    assert (Hblock' : forall i, sens_block u' i
                                = <[j := (CVodeGetSens (_ode u1) (time_p u1)
                                            (_sens_buffers u1)).2]> so !! i).
    { intros i. unfold sens_block. rewrite Hso'. reflexivity. }
    assert (Hblock : forall i, sens_block u i = so !! i).
    { intros i. unfold sens_block. rewrite Hso. reflexivity. }
    split; [exact Hfw |]. split.
    + intros i Hi. destruct (Hkeep i ltac:(lia)) as [K1 K2]. split.
      * rewrite K1, Hy'. apply list_lookup_insert_ne. lia.
      * rewrite K2, Hblock', Hblock. apply list_lookup_insert_ne. lia.
    + intros pre t' post Hrest. destruct pre as [| t1 pre].
      * simpl in Hrest. injection Hrest as <- <-.
        exists u, u1. split; [reflexivity |]. split; [exact E1 |]. split; [exact Hok |].
        destruct (Hkeep j ltac:(lia)) as [K1 K2].
        simpl. rewrite Nat.add_0_r. split.
        -- rewrite K1, Hy'. apply list_lookup_insert_eq. lia.
        -- rewrite K2, Hblock'. apply list_lookup_insert_eq. lia.
      * simpl in Hrest. injection Hrest as <- ->.
        destruct (Hdec pre t' post eq_refl) as (v & v1 & Hpre & Hstep & Hok' & R1 & R2).
        exists v, v1. split.
        { simpl. rewrite (bind_ok _ _ _ _ _ Hb). exact Hpre. }
        split; [exact Hstep |]. split; [exact Hok' |].
        simpl. rewrite Nat.add_succ_r. split; [exact R1 | exact R2].
Qed.

(** A [solve] with sensitivities that completes has run its loop from a
    world in which the state buffer is [y0], the sensitivity buffers are
    [sens0], the engine has been reinitialised with both, in this order, and
    the output arrays are still the caller's. *)
Lemma solve_sens_started (n p k fuel : nat) (t0 : float) (tvals : list float)
    (y0 : vec) (s0 : mat) (w w' : state) :
  solver_fits true n p k w -> length y0 = n -> rows p n s0 ->
  solve fuel t0 tvals y0 (Some s0) w = (Ok tt, w') ->
  exists ws,
    for_each (solve_body fuel t0 y0 (Some s0)) 0 tvals ws = (Ok tt, w')
    /\ solver_fits true n p k ws
    /\ y_out ws = y_out w /\ sens_out ws = sens_out w
    /\ _state_buffer ws = y0 /\ _sens_buffers ws = s0 /\ time_p ws = t0
    /\ check_ok (CVodeReInit (_ode w) t0 y0).1 = true
    /\ check_ok (CVodeSensReInit (CVodeReInit (_ode w) t0 y0).2 (_sens_mode w) s0).1 = true
    /\ _ode ws = (CVodeSensReInit (CVodeReInit (_ode w) t0 y0).2 (_sens_mode w) s0).2
    /\ trace ws = trace w ++ [EvReInit t0 y0; EvSensReInit (_sens_mode w) s0].
Proof.
  intros Hfit Hy0 Hs0 H.
  destruct Hfit as (Hcs & Hsl & Hyo & Hsens).
  destruct (Hsens eq_refl) as (Hp & Hb & so & Hso & Hblocks).
  assert (Hshape : map length s0 = map length (_sens_buffers w)).
  { rewrite (proj1 (rows_shape _ _ _) Hs0), (proj1 (rows_shape _ _ _) Hb). reflexivity. }
  assert (Hn : n_params w = length (_sens_buffers w)) by (rewrite Hp; symmetry; apply Hb).
  unfold solve in H.
  rewrite (bind_ok _ _ w w true) in H by (unfold gets; rewrite Hcs; reflexivity).
  rewrite (bind_ok _ _ w w (Some so)) in H by (unfold gets; rewrite Hso; reflexivity).
  change (true && (is_none (Some s0) || is_none (Some so))) with false in H. cbv iota in H.
  rewrite (bind_ok _ _ w (set_sens_buffers w s0) tt) in H.
  2:{ rewrite (bind_ok _ _ w w (n_params w)) by reflexivity.
      rewrite Hn, <- (same_shape_length _ _ Hshape).
      apply (load_rows s0 (_sens_buffers w) (length s0) 0 0 w Hshape); reflexivity. }
  set (wA := set_sens_buffers w s0) in H.
  rewrite (bind_ok _ _ wA wA (_state_buffer w)) in H by reflexivity.
  assert (Hyl : length y0 = length (_state_buffer w)) by congruence.
  rewrite (bind_ok _ _ wA wA y0) in H
    by (unfold lift; rewrite (assign_same_length _ _ Hyl); reflexivity).
  rewrite (bind_ok _ _ wA (set_state_buffer wA y0) tt) in H by reflexivity.
  rewrite (bind_ok _ _ _ (set_time_p (set_state_buffer wA y0) t0) tt) in H by reflexivity.
  set (wB := set_time_p (set_state_buffer wA y0) t0) in H.
  unfold bind at 1 in H. unfold call_CVodeReInit in H.
  change (_ode wB) with (_ode w) in H. change (_state_buffer wB) with y0 in H.
  destruct (CVodeReInit (_ode w) t0 y0) as [r e]. cbn [fst snd].
  set (wC := log (set_ode wB e) (EvReInit t0 y0)) in H.
  apply bind_inv in H as [([] & wC' & E & H) | [(? & _ & ?) | (_ & ?)]]; try discriminate.
  apply check_inv in E as [-> [[_ Hok] | ?]]; [| discriminate].
  unfold bind at 1 in H. unfold bind at 1 in H. unfold call_CVodeSensReInit in H.
  change (_ode wC) with e in H.
  change (_sens_mode wC) with (_sens_mode w) in H. change (_sens_buffers wC) with s0 in H.
  destruct (CVodeSensReInit e (_sens_mode w) s0) as [r' e']. cbn [fst snd].
  set (wD := log (set_ode wC e') (EvSensReInit (_sens_mode w) s0)) in H.
  destruct (check r' wD) as [[[] | x |] wD'] eqn:E'; try discriminate.
  apply check_inv in E' as [-> [[_ Hok'] | ?]]; [| discriminate].
  exists wD. split; [exact H |].
  split.
  { split; [exact Hcs |]. split; [exact Hy0 |]. split; [exact Hyo |]. intros _.
    split; [exact Hp |]. split; [exact Hs0 |]. exists so. split; [exact Hso | exact Hblocks]. }
  split; [reflexivity |]. split; [reflexivity |]. split; [reflexivity |].
  split; [reflexivity |]. split; [reflexivity |]. split; [exact Hok |].
  split; [exact Hok' |]. split; [reflexivity |].
  unfold wD, wC. simpl. rewrite <- app_assoc. reflexivity.
Qed.

(** X15: a [Solver.solve] with sensitivities that completes on a time grid,
    with arrays of the shapes of the solver.  Its loop has run from a world
    [ws] in which the state buffer is [y0] and the sensitivity buffers are
    [sens0], after the engine has been reinitialised at [(t0, y0)] and its
    sensitivity blocks to [sens0].  In the arrays it leaves, row [0] of
    [y_out] is [y0] and block [0] of [sens_out] is [sens0]; and for every
    later output time [t], at the index [i] it has in [tvals], row [i] is the
    state buffer as the stepping loop to [t] left it, and block [i] is what
    the read-back of the sensitivities returned right after that loop: the
    two arrays are indexed by the same output times. *)
Theorem solve_with_sensitivities (n p fuel : nat) (t0 : float) (tvals : list float)
    (y0 : vec) (s0 : mat) (w w' : state) :
  time_grid t0 tvals ->
  solver_fits true n p (length tvals) w -> length y0 = n -> rows p n s0 ->
  solve fuel t0 tvals y0 (Some s0) w = (Ok tt, w') ->
  exists ws,
    (_state_buffer ws = y0 /\ _sens_buffers ws = s0 /\ time_p ws = t0
     /\ y_out ws = y_out w /\ sens_out ws = sens_out w
     /\ _ode ws = (CVodeSensReInit (CVodeReInit (_ode w) t0 y0).2 (_sens_mode w) s0).2
     /\ trace ws = trace w ++ [EvReInit t0 y0; EvSensReInit (_sens_mode w) s0])
    /\ for_each (solve_body fuel t0 y0 (Some s0)) 0 tvals ws = (Ok tt, w')
    /\ y_out w' !! 0%nat = Some y0
    /\ sens_block w' 0 = Some s0
    /\ solver_fits true n p (length tvals) w'
    /\ forall pre t post, tvals = pre ++ t :: post -> pre <> [] ->
         exists v v1,
           for_each (solve_body fuel t0 y0 (Some s0)) 0 pre ws = (Ok tt, v)
           /\ step_loop call_CVode fuel t v = (Ok tt, v1)
           /\ check_ok (CVodeGetSens (_ode v1) (time_p v1) (_sens_buffers v1)).1.1 = true
           /\ y_out w' !! length pre = Some (_state_buffer v1)
           /\ sens_block w' (length pre)
              = Some (CVodeGetSens (_ode v1) (time_p v1) (_sens_buffers v1)).2.
Proof.
  intros Hgrid Hfit Hy0 Hs0 Hrun.
  destruct (solve_sens_started n p (length tvals) fuel t0 tvals y0 s0 w w'
              Hfit Hy0 Hs0 Hrun)
    as (ws & Hloop & Hfs & Hyo & Hso & Hsb & Hbufs & Htp & _ & _ & Hode & Htr).
  exists ws. split; [auto 10 |]. split; [exact Hloop |].
  destruct (grid_split t0 tvals Hgrid) as (t1 & rest & -> & Ht1 & Hrest).
  simpl in Hloop.
  apply bind_inv in Hloop as [([] & u0 & Hb0 & Hr) | [(? & _ & ?) | (_ & ?)]];
    try discriminate.
  assert (H0 : (0 < length (t1 :: rest))%nat) by (simpl; lia).
  pose proof (sfits_solve_body_sens n p _ fuel t0 y0 s0 0 t1 H0 Hy0 Hs0 ws Hfs) as Hf0.
  rewrite Hb0 in Hf0.
  destruct (fits_at n p _ 0 ws Hfs H0)
    as (Hc & Hn & Hyl & so & row & blk & Hsos & Hsl & Hrow & Hrl & Hblk & Hshape).
  assert (Hyr : length y0 = length row) by congruence.
  assert (Hsh : map length s0 = map length blk) by congruence.
  rewrite (solve_body_initial fuel t0 y0 s0 0 t1 ws so row blk
             Hc Hsos Hrow Hyr Hblk Hsh Ht1) in Hb0.
  injection Hb0 as Hu0.
  destruct (stepping_rows n p (length (t1 :: rest)) fuel t0 y0 s0 Hy0 Hs0 rest 1 u0 w'
              Hrest Hf0 ltac:(simpl; lia) Hr) as (Hfw & Hkeep & Hdec).
  destruct (Hkeep 0%nat ltac:(lia)) as [K1 K2].
  split.
  { rewrite K1, <- Hu0. simpl. apply list_lookup_insert_eq. lia. }
  split.
  { rewrite K2, <- Hu0. unfold sens_block. simpl. apply list_lookup_insert_eq. lia. }
  split; [exact Hfw |].
  intros pre t post Htv Hpre. destruct pre as [| t1' pre]; [congruence |].
  simpl in Htv. injection Htv as <- ->.
  destruct (Hdec pre t post eq_refl) as (v & v1 & Hp & Hstep & Hok & R1 & R2).
  exists v, v1. split.
  { simpl. unfold bind.
    rewrite (solve_body_initial fuel t0 y0 s0 0 t1 ws so row blk
               Hc Hsos Hrow Hyr Hblk Hsh Ht1).
    rewrite Hu0. exact Hp. }
  split; [exact Hstep |]. split; [exact Hok |]. split; [exact R1 | exact R2].
Qed.
End SensitivityResult.

(** X15 on the scripted engine: two states, one parameter, output times
    [0, 1] from [t0 = 0]; row and block [0] hold [y0] and [sens0], row and
    block [1] the state after the stepping loop to time [1] and the
    sensitivities read back there. *)
Lemma solve_with_sensitivities_witness :
  let w := with_own_buffers (lib := Scripted.lib) 2 [0%float; 1%float]
             (Scripted.solver true 2 1 2 []) in
  let w' := (Solver.solve (lib := Scripted.lib) 5 0%float [0%float; 1%float]
               [3%float; 4%float] (Some [[1%float; 0%float]]) w).2 in
  Solver.y_out w' !! 0%nat = Some [3%float; 4%float]
  /\ sens_block (lib := Scripted.lib) w' 0 = Some [[1%float; 0%float]]
  /\ exists v v1,
       step_loop (lib := Scripted.lib) Solver.call_CVode 5 1%float v = (Ok tt, v1)
       /\ Solver.y_out w' !! 1%nat = Some (Solver._state_buffer v1)
       /\ sens_block (lib := Scripted.lib) w' 1
          = Some (CVodeGetSens (Sundials := Scripted.lib) (Solver._ode v1)
                    (Solver.time_p v1) (Solver._sens_buffers v1)).2.
Proof.
  intros w w'.
  assert (Hgrid : time_grid 0%float [0%float; 1%float]).
  { split.
    - exists 0%float. split; reflexivity.
    - intros j a b Ha Hb. destruct j as [| [| j]]; simpl in Ha, Hb; try discriminate.
      injection Ha as <-. injection Hb as <-. reflexivity. }
  assert (Hfit : solver_fits (lib := Scripted.lib) true 2 1
                   (length [0%float; 1%float]) w).
  { split; [reflexivity |]. split; [reflexivity |].
    split; [split; [reflexivity | repeat constructor] |]. intros _.
    split; [reflexivity |]. split; [split; [reflexivity | repeat constructor] |].
    eexists. split; [reflexivity |]. split; [reflexivity | repeat constructor]. }
  assert (Hs0 : rows 1 2 [[1%float; 0%float]])
    by (split; [reflexivity | repeat constructor]).
  assert (Hrun : Solver.solve (lib := Scripted.lib) 5 0%float [0%float; 1%float]
                   [3%float; 4%float] (Some [[1%float; 0%float]]) w = (Ok tt, w'))
    by (vm_compute; reflexivity).
  destruct (solve_with_sensitivities (lib := Scripted.lib) 2 1 5 0%float
              [0%float; 1%float] [3%float; 4%float] [[1%float; 0%float]] w w'
              Hgrid Hfit eq_refl Hs0 Hrun)
    as (ws & _ & _ & R0 & B0 & _ & Hdec).
  split; [exact R0 |]. split; [exact B0 |].
  destruct (Hdec [0%float] 1%float [] eq_refl ltac:(discriminate))
    as (v & v1 & _ & Hstep & _ & R1 & B1).
  exists v, v1. split; [exact Hstep |]. split; [exact R1 | exact B1].
Defined.
